(** * IntelliTutor ingestion and retrieval pipeline: a shallow embedding

    The development follows the TypeScript sources of the repository:

    - [lib/search-cache.ts]       ([Module SearchCache])
    - [lib/prisma.ts]             ([Module Retry], [executeWithRetry])
    - [lib/file-processor.ts]     ([Module Chapters], [detectChapters])
    - [lib/pinecone.ts]           ([Module Pinecone])
    - [app/api/upload/route.ts]   ([Module Pipeline], [processDocumentAsync])
    - [app/api/chat/route.ts]     ([Module Chat], [POST])
    - [scripts/*.ts]              ([Module Scripts])

    Conventions.  JavaScript numbers that the code uses as integers
    (sizes, indices, millisecond clocks, HTTP status codes) are [Z];
    strings are [string] (sequences of 8-bit characters, so the ASCII
    fragment of JavaScript strings is modelled exactly); a [Map] is an
    association list in insertion order; an object literal is an
    association list of its fields; promises that may reject are
    computations in an error-and-state monad over the external world.
    Console output is not modelled. *)

From Stdlib Require Import ZArith Lia List String Ascii.
From stdpp Require Import base list strings gmap pretty.

Set Default Proof Using "Type".
Set Warnings "-abstract-large-number".

(** ** JavaScript string primitives used by the sources *)

Module Js.

  (** [String.prototype.toLowerCase] on the ASCII fragment. *)
Definition lower_ascii (c : ascii) : ascii :=
    let n := N_of_ascii c in
    if ((65 <=? n)%N && (n <=? 90)%N)%bool then ascii_of_N (n + 32) else c.

Fixpoint toLowerCase (s : string) : string :=
    match s with
    | EmptyString => EmptyString
    | String c s' => String (lower_ascii c) (toLowerCase s')
    end.

  (** [String.prototype.toUpperCase] on the ASCII fragment. *)
Definition upper_ascii (c : ascii) : ascii :=
  let n := N_of_ascii c in
  if ((97 <=? n)%N && (n <=? 122)%N)%bool then ascii_of_N (n - 32) else c.

Fixpoint toUpperCase (s : string) : string :=
  match s with
  | EmptyString => EmptyString
  | String c s' => String (upper_ascii c) (toUpperCase s')
  end.



(** [xs.slice(a, b)] on arrays, for [0 <= a <= b]. *)
Definition array_slice {A} (a b : nat) (xs : list A) : list A :=
  take (b - a) (drop a xs).

(** The values of [i] in [for (let i = 0; i < n; i += step)]. *)
Definition strides (n step : nat) : list nat :=
  (λ k, k * step) <$> seq 0 ((n + step - 1) / step).

(** White space and line terminators of the ASCII fragment:
      TAB, LF, VT, FF, CR and SPACE. *)
Definition is_ws (c : ascii) : bool :=
    let n := N_of_ascii c in
    ((9 <=? n)%N && (n <=? 13)%N)%bool || (n =? 32)%N.

Fixpoint trimStart (s : string) : string :=
    match s with
    | EmptyString => EmptyString
    | String c s' => if is_ws c then trimStart s' else s
    end.

Definition trimEnd (s : string) : string :=
    String.rev (trimStart (String.rev s)).

Definition trim (s : string) : string := trimEnd (trimStart s).

  (** [s.substring(0, n)] *)
Definition substring0 (n : nat) (s : string) : string := substring 0 n s.

  (** [s.slice(a, b)] for [0 <= a <= b]. *)
Definition slice (a b : nat) (s : string) : string := substring a (b - a) s.

  (** [hay.includes(needle)] *)
Fixpoint includes (needle hay : string) : bool :=
    if Stdlib.Strings.String.prefix needle hay then true
    else match hay with
         | EmptyString => false
         | String _ hay' => includes needle hay'
         end.

  (** [xs.join(sep)] *)
Fixpoint join (sep : string) (xs : list string) : string :=
    match xs with
    | [] => EmptyString
    | [x] => x
    | x :: xs' => x ++ sep ++ join sep xs'
    end.

End Js.

(** ** An insertion-ordered [Map<string, V>] *)

Module JsMap.
Section Ops.
Context {V : Type}.

Definition t := list (string * V).

Definition get (k : string) (m : t) : option V :=
      snd <$> List.find (λ kv, bool_decide (kv.1 = k)) m.

    (** [m.set(k, v)]: an existing key keeps its place in the order,
        a new key goes last. *)
Fixpoint set (k : string) (v : V) (m : t) : t :=
      match m with
      | [] => [(k, v)]
      | (k', v') :: m' =>
          if decide (k' = k) then (k, v) :: m' else (k', v') :: set k v m'
      end.

Definition delete (k : string) (m : t) : t :=
      List.filter (λ kv, negb (bool_decide (kv.1 = k))) m.

Definition size (m : t) : Z := Z.of_nat (length m).

Definition keys (m : t) : list string := m.*1.

    (** [m.keys().next().value] *)
Definition first_key (m : t) : option string := head (keys m).
End Ops.
Arguments t : clear implicits.
End JsMap.

(** ** lib/search-cache.ts *)

Module SearchCache.
Section Cache.
    (** The element type of the cached result arrays ([any[]]). *)
Context {R : Type}.

Record CacheEntry := { results : list R; timestamp : Z }.

Record t := {
      cache : JsMap.t CacheEntry;
      maxSize : Z;
      ttl : Z  (* milliseconds *)
    }.

Definition with_cache (c : t) (m : JsMap.t CacheEntry) : t :=
      {| cache := m; maxSize := maxSize c; ttl := ttl c |}.

Definition constructor (maxSize ttlMinutes : Z) : t :=
      {| cache := []; maxSize := maxSize; ttl := ttlMinutes * 60 * 1000 |}.

Definition getCacheKey (query materialId : string) : string :=
      let queryKey := Js.trim (Js.toLowerCase (Js.substring0 100 query)) in
      materialId ++ ":" ++ queryKey.

    (** [get]; [now] is the value of [Date.now()]. *)
Definition get (now : Z) (query materialId : string) (c : t)
      : option (list R) * t :=
      let key := getCacheKey query materialId in
      match JsMap.get key (cache c) with
      | None => (None, c)
      | Some entry =>
          if (now - timestamp entry >? ttl c)%Z
          then (None, with_cache c (JsMap.delete key (cache c)))
          else (Some (results entry), c)
      end.

Definition set (now : Z) (query materialId : string) (rs : list R) (c : t)
      : t :=
      let key := getCacheKey query materialId in
      let evicted :=
        if (JsMap.size (cache c) >=? maxSize c)%Z then
          match JsMap.first_key (cache c) with
          | Some oldestKey => JsMap.delete oldestKey (cache c)
          | None => cache c
          end
        else cache c in
      with_cache c (JsMap.set key {| results := rs; timestamp := now |} evicted).

Definition clear (c : t) : t := with_cache c [].

Definition getStats (c : t) : Z * Z * Z :=
      (JsMap.size (cache c), maxSize c, ttl c).

    (** Clients of the cache: the three public mutators. *)
Inductive Op :=
    | OpGet (now : Z) (query materialId : string)
    | OpSet (now : Z) (query materialId : string) (rs : list R)
    | OpClear.

Definition step (c : t) (o : Op) : t :=
      match o with
      | OpGet now q m => (get now q m c).2
      | OpSet now q m rs => set now q m rs c
      | OpClear => clear c
      end.

Definition run (ops : list Op) (c : t) : t := fold_left step ops c.

Definition op_key (o : Op) : option string :=
      match o with
      | OpGet _ q m | OpSet _ q m _ => Some (getCacheKey q m)
      | OpClear => None
      end.

Definition is_get (o : Op) : bool :=
      match o with OpGet _ _ _ => true | _ => false end.

Definition is_set (o : Op) : bool :=
  match o with OpSet _ _ _ _ => true | _ => false end.

Definition keys (c : t) : list string := JsMap.keys (cache c).
Definition has (key : string) (c : t) : bool :=
      bool_decide (key ∈ keys c).

(** The representation invariant: keys are unique and the capacity is
    respected. *)
Definition cache_wf (c : t) : Prop :=
  NoDup (keys c) ∧ (JsMap.size (cache c) ≤ maxSize c)%Z.

(** What [set] leaves of the old entries before it inserts. *)
Definition after_eviction (c : t) : JsMap.t CacheEntry :=
  if (JsMap.size (cache c) >=? maxSize c)%Z then tail (cache c) else cache c.

(** A client that only reads entries other than [key]. *)
Definition reads_other (key : string) (o : Op) : Prop :=
  is_get o = true ∧ op_key o ≠ Some key.
End Cache.
Arguments CacheEntry : clear implicits.
Arguments t : clear implicits.
Arguments Op : clear implicits.

  (** The exported singleton: [new SearchCache(100, 5)]. *)
Definition searchCache {R} : t R := constructor 100 5.

(** The last [n] elements of a list. *)
Definition newest {A} (n : Z) (l : list A) : list A :=
  drop (length l - Z.to_nat n) l.
End SearchCache.

(** ** The external world: record store, vector index, model providers *)

Module Io.

(** A value thrown by JavaScript code: only what the sources inspect
    ([instanceof Error], [.code], [.status], [.message]). *)
Record Thrown := {
  instanceofError : bool;
  code : option string;
  status : option Z;
  message : option string
}.

(** [new Error(msg)] *)
Definition Error (msg : string) : Thrown :=
  {| instanceofError := true; code := None; status := None;
     message := Some msg |}.

Inductive Res (A : Type) : Type :=
| Ok (a : A)
| Throw (e : Thrown).
Arguments Ok {A} a.
Arguments Throw {A} e.

Definition is_ok {A} (r : Res A) : bool :=
  match r with Ok _ => true | Throw _ => false end.

(** *** Records of the store (the fields the sources read or write) *)

Inductive ProcessingStatus := PENDING | PROCESSING | READY | ERROR.

#[global] Instance ProcessingStatus_eq_dec : EqDecision ProcessingStatus.
Proof. solve_decision. Defined.

Record Material := {
  processingStatus : ProcessingStatus;
  pageCount : option Z;
  author : option string;
  wholeSummary : option string;
  title : string;
  fileUrl : string;
  fileType : string
}.

Record Question := { question : string; answer : string }.

Record ChapterRow := {
  ch_materialId : string;
  ch_number : Z;
  ch_title : string;
  ch_pageStart : Z;
  ch_pageEnd : Z;
  summaryBrief : string;
  summaryStandard : string;
  summaryDetailed : string;
  practiceQuestions : list Question
}.

Record ConceptRow := {
  co_materialId : string;
  term : string;
  definition : string;
  category : string;
  pageReferences : list Z;
  co_chapterNumber : Z
}.

Record TextChunkRow := {
  tc_id : string;
  tc_materialId : string;
  tc_text : string;
  tc_pageNumber : Z;
  tc_chapterNumber : Z
}.

(** An embedding: its components are never inspected by the sources. *)
Definition Embedding := list Z.

(** A metadata value of a vector record. *)
Inductive MetaValue := MStr (s : string) | MNum (n : Z).

#[global] Instance MetaValue_eq_dec : EqDecision MetaValue.
Proof. solve_decision. Defined.

(** A record sent to the vector index; [metadata] is the object literal,
    field by field.  [values] is [None] where the source reads past the
    end of the embeddings array. *)
Record VectorRecord := {
  v_id : string;
  values : option Embedding;
  metadata : list (string * MetaValue)
}.

Record Match := {
  m_id : string;
  m_score : option Z;
  m_pageNumber : option Z
}.

Record SearchResult := {
  sr_text : string;
  sr_pageNumber : Z;
  sr_score : Z
}.

(** *** Requests that leave the process *)

Inductive DbOp :=
| MaterialFindUnique (id : string)
| MaterialUpdate (id : string)
| ChapterDeleteMany (materialId : string)
| ConceptDeleteMany (materialId : string)
| ChapterUpsert (materialId : string) (number : Z)
| ConceptCreate (materialId : string) (term : string)
| TextChunkDeleteMany (materialId : string)
| TextChunkCreate (id : string)
| TextChunkFindMany (ids : list string)
| Disconnect.

Inductive Call :=
| CReadFile (path : string)
| CPdfParse
| CMammoth (path : string)
| CGenerateSummary (text level : string)
| CGeneratePracticeQuestions (text : string) (count : Z)
| CExtractKeyConcepts (text : string)
| CEmbedBatch (texts : list string)
| CEmbed (text : string)
| CAnswerQuestion (question context : string)
| CIndexUpsert (batch : list VectorRecord)
| CIndexQuery (vector : Embedding) (topK : Z) (materialId : string)
| CIndexDeleteMany (materialId : string)
| CDb (op : DbOp)
| CSleep (ms : Z)
| COperation.

Record World := {
  materials : gmap string Material;
  chapters : list ChapterRow;
  concepts : list ConceptRow;
  textChunks : list TextChunkRow;
  vectors : list VectorRecord;
  searchCache : SearchCache.t SearchResult;
  calls : list Call
}.

(** The instant of a request: how many requests were made before it. *)
Definition instant (w : World) : nat := length (calls w).

Definition record (c : Call) (w : World) : World :=
  {| materials := materials w; chapters := chapters w;
     concepts := concepts w; textChunks := textChunks w;
     vectors := vectors w; searchCache := searchCache w;
     calls := calls w ++ [c] |}.

Definition set_materials (f : gmap string Material → gmap string Material)
  (w : World) : World :=
  {| materials := f (materials w); chapters := chapters w;
     concepts := concepts w; textChunks := textChunks w;
     vectors := vectors w; searchCache := searchCache w;
     calls := calls w |}.

Definition set_chapters (f : list ChapterRow → list ChapterRow)
  (w : World) : World :=
  {| materials := materials w; chapters := f (chapters w);
     concepts := concepts w; textChunks := textChunks w;
     vectors := vectors w; searchCache := searchCache w;
     calls := calls w |}.

Definition set_concepts (f : list ConceptRow → list ConceptRow)
  (w : World) : World :=
  {| materials := materials w; chapters := chapters w;
     concepts := f (concepts w); textChunks := textChunks w;
     vectors := vectors w; searchCache := searchCache w;
     calls := calls w |}.

Definition set_textChunks (f : list TextChunkRow → list TextChunkRow)
  (w : World) : World :=
  {| materials := materials w; chapters := chapters w;
     concepts := concepts w; textChunks := f (textChunks w);
     vectors := vectors w; searchCache := searchCache w;
     calls := calls w |}.

Definition set_vectors (f : list VectorRecord → list VectorRecord)
  (w : World) : World :=
  {| materials := materials w; chapters := chapters w;
     concepts := concepts w; textChunks := textChunks w;
     vectors := f (vectors w); searchCache := searchCache w;
     calls := calls w |}.

(** *** Promises: state and exceptions *)

Definition M (A : Type) : Type := World → Res A * World.

Definition ret {A} (a : A) : M A := λ w, (Ok a, w).

Definition bind {A B} (m : M A) (k : A → M B) : M B :=
  λ w, match m w with
       | (Ok a, w') => k a w'
       | (Throw e, w') => (Throw e, w')
       end.

Definition throw {A} (e : Thrown) : M A := λ w, (Throw e, w).

(** [try { m } catch (error) { h error }] *)
Definition try_catch {A} (m : M A) (h : Thrown → M A) : M A :=
  λ w, match m w with
       | (Ok a, w') => (Ok a, w')
       | (Throw e, w') => h e w'
       end.

(** [try { m } finally { f }] *)
Definition try_finally {A} (m : M A) (f : M unit) : M A :=
  λ w, match m w with
       | (r, w') =>
           match f w' with
           | (Ok _, w'') => (r, w'')
           | (Throw e, w'') => (Throw e, w'')
           end
       end.

#[global] Instance M_ret : MRet M := @ret.
#[global] Instance M_bind : MBind M := λ A B k m, bind m k.

(** [for (const x of xs) { await body(x) }] *)
Fixpoint for_of {A} (xs : list A) (body : A → M unit) : M unit :=
  match xs with
  | [] => ret tt
  | x :: xs' => bind (body x) (λ _, for_of xs' body)
  end.

(** [for (let i = 0; i < xs.length; i++) { const x = xs[i]; ... }] *)
Definition for_index {A} (xs : list A) (body : nat → A → M unit) : M unit :=
  for_of (imap (λ i x, (i, x)) xs) (λ ix, body ix.1 ix.2).

(** A request to a collaborator whose answer at each instant is given. *)
Definition call {A} (c : Call) (outcome : nat → Res A) : M A :=
  λ w, (outcome (instant w), record c w).

(** [await new Promise(resolve => setTimeout(resolve, ms))] *)
Definition sleep (ms : Z) : M unit := λ w, (Ok tt, record (CSleep ms) w).

(** *** Vocabulary for statements about promises *)

(** [m] keeps [I] true, whether it returns or throws. *)
Definition preserves {A} (I : World → Prop) (m : M A) : Prop :=
  ∀ w, I w → I (m w).2.

(** [m] returns normally from every world. *)
Definition returns {A} (m : M A) : Prop :=
  ∀ w, ∃ a, (m w).1 = Ok a.

(** From a world where [I] holds, [m] returns normally and keeps [I]. *)
Definition safe {A} (I : World → Prop) (m : M A) : Prop :=
  ∀ w, I w → I (m w).2 ∧ ∃ a, (m w).1 = Ok a.

(** When [m] throws, [I] still holds. *)
Definition keeps_on_throw {A} (I : World → Prop) (m : M A) : Prop :=
  ∀ w e w', I w → m w = (Throw e, w') → I w'.

(** Whenever [m] returns, what it returns satisfies [Q]. *)
Definition yields {A} (Q : A → Prop) (m : M A) : Prop :=
  ∀ w a w', m w = (Ok a, w') → Q a.

(** The world with another content of the search cache. *)
Definition set_searchCache (c : SearchCache.t SearchResult) (w : World)
  : World :=
  {| materials := materials w; chapters := chapters w;
     concepts := concepts w; textChunks := textChunks w;
     vectors := vectors w; searchCache := c; calls := calls w |}.

(** [m] neither reads nor writes the search cache: with another cache
    it gives the same result and the same world, up to the cache. *)
Definition cache_blind {A} (m : M A) : Prop :=
  ∀ c w, m (set_searchCache c w) = ((m w).1, set_searchCache c (m w).2).

(** The vector records that the upsert requests of a log carry. *)
Definition upserted (log : list Call) : list VectorRecord :=
  flat_map (λ c, match c with CIndexUpsert batch => batch | _ => [] end) log.

Definition is_index_upsert (c : Call) : bool :=
  match c with CIndexUpsert _ => true | _ => false end.

(** [m] only adds requests to the log, and each of them satisfies [P]. *)
Definition traces {A} (P : Call → Prop) (m : M A) : Prop :=
  ∀ w, ∃ new, calls (m w).2 = calls w ++ new ∧ Forall P new.

End Io.

(** ** Collaborators that are not part of the sources

    The providers ([pdf-parse], [mammoth], the file system, the
    summarisation and embedding models, the answer synthesiser) and the
    failures of the record store and of the vector index are given by an
    environment: each answer may depend on the arguments of the request
    and on the instant at which it is made. *)

Module Env.
Import Io.

Record PdfData := {
  pdf_text : string;
  numpages : Z;
  info_Title : option string;
  info_Author : option string;
  info_Subject : option string
}.

Record RawConcept := {
  rc_term : string;
  rc_definition : string;
  rc_category : option string
}.

Record t := {
  (** [process.env.DATABASE_URL] is set *)
  DATABASE_URL : bool;
  (** [process.env.PINECONE_API_KEY] is set *)
  PINECONE_ENABLED : bool;
  (** [Object.values(ConceptCategory)], from the generated client *)
  conceptCategories : list string;
  (** [splitTextRecursive] of [lib/text-splitter], mapped to the texts *)
  splitTextRecursive : string → Z → Z → Res (list string);
  readFile : string → nat → Res string;
  pdfParse : string → nat → Res PdfData;
  mammoth_extractRawText : string → nat → Res string;
  generateSummary : string → string → nat → Res string;
  generatePracticeQuestions : string → Z → nat → Res (list Question);
  extractKeyConcepts : string → nat → Res (list RawConcept);
  generateLocalEmbeddingsBatch : list string → nat → Res (list Embedding);
  generateLocalEmbedding : string → nat → Res Embedding;
  generateEmbedding : string → nat → Res Embedding;
  answerQuestion :
    string → string → list (string * string) → bool → nat →
    Res (string * list string);
  (** a request to the record store fails *)
  db_fault : DbOp → nat → option Thrown;
  (** a request to the vector index fails *)
  index_fault : nat → option Thrown;
  (** the ranked matches the index returns for a query over its records *)
  index_matches :
    Embedding → Z → string → list VectorRecord → nat → list Match
}.

(** [index] of [lib/pinecone.ts] is non-null exactly when the key is set. *)
Definition index_configured (env : t) : bool := PINECONE_ENABLED env.

End Env.

(** ** The record store (Prisma client) and the vector index (Pinecone)

    Their behaviour is that of the libraries, as relied on by the
    sources: [update] of a missing record and [create] with a taken
    identifier reject; [upsert] replaces the record with the same key. *)

Module Store.
Import Io.

Definition db {A} (env : Env.t) (op : DbOp) (effect : M A) : M A :=
  λ w, match Env.db_fault env op (instant w) with
       | Some e => (Throw e, record (CDb op) w)
       | None => effect (record (CDb op) w)
       end.

Definition P2025 : Thrown :=
  {| instanceofError := true; code := Some "P2025"; status := None;
     message := Some "Record to update not found." |}.

Definition P2002 : Thrown :=
  {| instanceofError := true; code := Some "P2002"; status := None;
     message := Some "Unique constraint failed" |}.

Definition material_findUnique (env : Env.t) (id : string)
  : M (option Material) :=
  db env (MaterialFindUnique id) (λ w, (Ok (materials w !! id), w)).

Definition material_update (env : Env.t) (id : string)
  (data : Material → Material) : M unit :=
  db env (MaterialUpdate id)
    (λ w, match materials w !! id with
          | Some m => (Ok tt, set_materials (insert id (data m)) w)
          | None => (Throw P2025, w)
          end).

Definition chapter_deleteMany (env : Env.t) (materialId : string) : M unit :=
  db env (ChapterDeleteMany materialId)
    (λ w, (Ok tt,
           set_chapters
             (List.filter (λ r, negb (bool_decide (ch_materialId r = materialId))))
             w)).

Definition concept_deleteMany (env : Env.t) (materialId : string) : M unit :=
  db env (ConceptDeleteMany materialId)
    (λ w, (Ok tt,
           set_concepts
             (List.filter (λ r, negb (bool_decide (co_materialId r = materialId))))
             w)).

Definition same_chapter (a b : ChapterRow) : bool :=
  bool_decide (ch_materialId a = ch_materialId b)
  && bool_decide (ch_number a = ch_number b).

(** [upsert] on the composite key [(materialId, number)] *)
Fixpoint upsert_row (row : ChapterRow) (rows : list ChapterRow)
  : list ChapterRow :=
  match rows with
  | [] => [row]
  | r :: rows' =>
      if same_chapter r row then row :: rows' else r :: upsert_row row rows'
  end.

Definition chapter_upsert (env : Env.t) (row : ChapterRow) : M unit :=
  db env (ChapterUpsert (ch_materialId row) (ch_number row))
    (λ w, (Ok tt, set_chapters (upsert_row row) w)).

Definition concept_create (env : Env.t) (row : ConceptRow) : M unit :=
  db env (ConceptCreate (co_materialId row) (term row))
    (λ w, (Ok tt, set_concepts (λ rows, rows ++ [row]) w)).

Definition textChunk_deleteMany (env : Env.t) (materialId : string) : M unit :=
  db env (TextChunkDeleteMany materialId)
    (λ w, (Ok tt,
           set_textChunks
             (List.filter (λ r, negb (bool_decide (tc_materialId r = materialId))))
             w)).

Definition textChunk_create (env : Env.t) (row : TextChunkRow) : M unit :=
  db env (TextChunkCreate (tc_id row))
    (λ w, if bool_decide (tc_id row ∈ tc_id <$> textChunks w)
          then (Throw P2002, w)
          else (Ok tt, set_textChunks (λ rows, rows ++ [row]) w)).

Definition textChunk_findMany (env : Env.t) (ids : list string)
  : M (list TextChunkRow) :=
  db env (TextChunkFindMany ids)
    (λ w, (Ok (List.filter (λ r, bool_decide (tc_id r ∈ ids)) (textChunks w)),
           w)).

Definition disconnect (env : Env.t) : M unit :=
  db env Disconnect (ret tt).

(** *** The vector index *)

Definition index_request {A} (env : Env.t) (c : Call) (effect : M A) : M A :=
  λ w, match Env.index_fault env (instant w) with
       | Some e => (Throw e, record c w)
       | None => effect (record c w)
       end.

Fixpoint upsert_vector (v : VectorRecord) (vs : list VectorRecord)
  : list VectorRecord :=
  match vs with
  | [] => [v]
  | u :: vs' =>
      if bool_decide (v_id u = v_id v) then v :: vs'
      else u :: upsert_vector v vs'
  end.

Definition index_upsert (env : Env.t) (batch : list VectorRecord) : M unit :=
  index_request env (CIndexUpsert batch)
    (λ w, (Ok tt, set_vectors (λ vs, fold_left (λ acc v, upsert_vector v acc) batch vs) w)).

(** [index.query({ vector, topK, filter: { materialId: { $eq } } })] *)
Definition index_query (env : Env.t) (vector : Embedding) (topK : Z)
  (materialId : string) : M (list Match) :=
  index_request env (CIndexQuery vector topK materialId)
    (λ w, (Ok (Env.index_matches env vector topK materialId (vectors w)
                 (instant w)), w)).

Definition has_materialId (materialId : string) (v : VectorRecord) : bool :=
  bool_decide ((("materialId" : string), MStr materialId) ∈ metadata v).

Definition index_deleteMany (env : Env.t) (materialId : string) : M unit :=
  index_request env (CIndexDeleteMany materialId)
    (λ w, (Ok tt,
           set_vectors (List.filter (λ v, negb (has_materialId materialId v))) w)).

End Store.

(** ** lib/file-processor.ts *)

Module FileProcessor.
Import Io.

Record Metadata := {
  md_title : option string;
  md_author : option string;
  md_subject : option string
}.

Record ProcessedDocument := {
  text : string;
  pageCount : Z;
  metadata : option Metadata
}.

(** [text.split(/\s+/)] *)
Fixpoint split_ws_go (cur : string) (inws : bool) (s : string) : list string :=
  match s with
  | EmptyString => [String.rev cur]
  | String c s' =>
      if Js.is_ws c then
        if inws then split_ws_go cur true s'
        else String.rev cur :: split_ws_go EmptyString true s'
      else split_ws_go (String c cur) false s'
  end.

Definition split_ws (s : string) : list string :=
  split_ws_go EmptyString false s.

(** [Math.ceil(wordCount / 500)] *)
Definition pages_of_words (wordCount : nat) : Z :=
  (Z.of_nat wordCount + 499) / 500.

Definition error_message (e : Thrown) : string :=
  if instanceofError e then default EmptyString (message e)
  else "Unknown error".

Definition processPDF (env : Env.t) (filePath : string) : M ProcessedDocument :=
  try_catch
    (dataBuffer ← call (CReadFile filePath) (Env.readFile env filePath);
     data ← call CPdfParse (Env.pdfParse env dataBuffer);
     ret {| text := Env.pdf_text data;
             pageCount := Env.numpages data;
             metadata := Some {| md_title := Env.info_Title data;
                                 md_author := Env.info_Author data;
                                 md_subject := Env.info_Subject data |} |})
    (λ error,
       throw (Error ("Failed to process PDF file: " ++ error_message error))).

Definition empty_metadata : Metadata :=
  {| md_title := None; md_author := None; md_subject := None |}.

Definition processDOCX (env : Env.t) (filePath : string) : M ProcessedDocument :=
  try_catch
    (text ← call (CMammoth filePath) (Env.mammoth_extractRawText env filePath);
     let wordCount := length (split_ws text) in
     let pageCount := pages_of_words wordCount in
     ret {| text := text; pageCount := pageCount;
             metadata := Some empty_metadata |})
    (λ _, throw (Error "Failed to process DOCX file")).

Definition processTXT (env : Env.t) (filePath : string) : M ProcessedDocument :=
  try_catch
    (text ← call (CReadFile filePath) (Env.readFile env filePath);
     let wordCount := length (split_ws text) in
     let pageCount := pages_of_words wordCount in
     ret {| text := text; pageCount := pageCount;
             metadata := Some empty_metadata |})
    (λ _, throw (Error "Failed to process TXT file")).

Definition processEPUB (filePath : string) : M ProcessedDocument :=
  throw (Error ("EPUB processing not yet implemented for " ++ filePath
                ++ ". Please use PDF or DOCX format.")).

Definition processDocument (env : Env.t) (filePath fileType : string)
  : M ProcessedDocument :=
  let type := Js.toLowerCase fileType in
  if bool_decide (type = "application/pdf") || bool_decide (type = "pdf")
  then processPDF env filePath
  else if bool_decide
            (type = "application/vnd.openxmlformats-officedocument.wordprocessingml.document")
          || bool_decide (type = "docx")
  then processDOCX env filePath
  else if bool_decide (type = "text/plain") || bool_decide (type = "txt")
  then processTXT env filePath
  else if bool_decide (type = "application/epub+zip")
          || bool_decide (type = "epub")
  then processEPUB filePath
  else throw (Error ("Unsupported file type: " ++ type)).

(** *** Chapter detection *)

(** One result of [text.matchAll(pattern)]: [match.index], [match[1]]
    and [match[2]]. *)
Record RegExpMatch := {
  index : nat;
  group1 : string;
  group2 : string
}.

Definition is_digit (c : ascii) : bool :=
  let n := N_of_ascii c in ((48 <=? n)%N && (n <=? 57)%N)%bool.

Definition is_upper (c : ascii) : bool :=
  let n := N_of_ascii c in ((65 <=? n)%N && (n <=? 90)%N)%bool.

Definition is_newline (c : ascii) : bool := (N_of_ascii c =? 10)%N.

(** [[:\s]] *)
Definition is_sep (c : ascii) : bool :=
  (N_of_ascii c =? 58)%N || Js.is_ws c.

(** The longest prefix of characters satisfying [p], and the rest. *)
Fixpoint span (p : ascii → bool) (s : string) : string * string :=
  match s with
  | EmptyString => (EmptyString, EmptyString)
  | String c s' =>
      if p c then let '(a, b) := span p s' in (String c a, b)
      else (EmptyString, s)
  end.

(** The literal [lit] at the start of [s], ignoring case (flag [i]). *)
Fixpoint strip_prefix_ci (lit s : string) : option string :=
  match lit, s with
  | EmptyString, _ => Some s
  | String a lit', String b s' =>
      if bool_decide (Js.lower_ascii a = Js.lower_ascii b)
      then strip_prefix_ci lit' s' else None
  | String _ _, EmptyString => None
  end.

Fixpoint drop_string (n : nat) (s : string) : string :=
  match n, s with
  | S n', String _ s' => drop_string n' s'
  | _, _ => s
  end.

(** [[:\s]+([^\n]+)] after the digits: the separator run is greedy and
    gives characters back, one at a time, until a title of at least one
    character that is not a line feed can start.  [k] is the number of
    separator characters kept. *)
Fixpoint sep_then_title (k : nat) (seps rest : string)
  : option (nat * string) :=
  match k with
  | O => None
  | S k' =>
      let '(title, _) :=
        span (λ c, negb (is_newline c)) (drop_string k seps ++ rest) in
      if bool_decide (title = EmptyString)
      then sep_then_title k' seps rest
      else Some (k, title)
  end.

(** [/Chapter\s+(\d+)[:\s]+([^\n]+)/gi] tried at the start of [s]: the
    length of the match and its two groups.  White space and digits are
    disjoint classes, and so are digits and separators, so only the
    separator run can give characters back. *)
Definition chapter_at (s : string) : option (nat * string * string) :=
  s1 ← strip_prefix_ci "chapter" s;
  let '(ws, s2) := span Js.is_ws s1 in
  if bool_decide (ws = EmptyString) then None else
  let '(digits, s3) := span is_digit s2 in
  if bool_decide (digits = EmptyString) then None else
  let '(seps, s4) := span is_sep s3 in
  '(k, title) ← sep_then_title (String.length seps) seps s4;
  Some (7 + String.length ws + String.length digits + k
        + String.length title, digits, title).

(** [/(\d+)\.\s+([A-Z][^\n]+)/g] tried at the start of [s]. *)
Definition numbered_at (s : string) : option (nat * string * string) :=
  let '(digits, s1) := span is_digit s in
  if bool_decide (digits = EmptyString) then None else
  match s1 with
  | String dot s2 =>
      if negb (N_of_ascii dot =? 46)%N then None else
      let '(ws, s3) := span Js.is_ws s2 in
      if bool_decide (ws = EmptyString) then None else
      match s3 with
      | String u s4 =>
          if negb (is_upper u) then None else
          let '(more, _) := span (λ c, negb (is_newline c)) s4 in
          if bool_decide (more = EmptyString) then None else
          Some (String.length digits + 1 + String.length ws + 1
                + String.length more, digits, String u more)
      | EmptyString => None
      end
  | EmptyString => None
  end.

(** [[...text.matchAll(pattern)]] for a pattern that consumes at least
    one character: after a match the scan resumes at its end. *)
Fixpoint scan (try_at : string → option (nat * string * string))
  (pos skip : nat) (s : string) : list RegExpMatch :=
  match s with
  | EmptyString => []
  | String _ s' =>
      match skip with
      | S k => scan try_at (S pos) k s'
      | O =>
          match try_at s with
          | Some (len, g1, g2) =>
              {| index := pos; group1 := g1; group2 := g2 |}
              :: scan try_at (S pos) (len - 1) s'
          | None => scan try_at (S pos) 0 s'
          end
      end
  end.

Definition matchAll (try_at : string → option (nat * string * string))
  (text : string) : list RegExpMatch :=
  scan try_at 0 0 text.

(** The second pattern differs from the first in the case of its
    literal only, which flag [i] ignores. *)
Definition chapterPatterns : list (string → option (nat * string * string)) :=
  [chapter_at; chapter_at; numbered_at].

(** [parseInt] of a run of decimal digits. *)
Definition digit_value (c : ascii) : Z := Z.of_N (N_of_ascii c) - 48.

Fixpoint parseInt_go (acc : Z) (s : string) : Z :=
  match s with
  | EmptyString => acc
  | String c s' => parseInt_go (10 * acc + digit_value c) s'
  end.

Definition parseInt (s : string) : Z := parseInt_go 0 s.

Record Chapter := {
  number : Z;
  title : string;
  startIndex : nat;
  endIndex : nat
}.

(** The loop state: [seenNumbers] and [chapters]. *)
Definition DetectState : Type := gset Z * list Chapter.

(** The callback of [matches.forEach((match, index) => ...)]. *)
Definition forEach_body (text : string) (matches : list RegExpMatch)
  (st : DetectState) (im : nat * RegExpMatch) : DetectState :=
  let '(i, m) := im in
  let '(seenNumbers, chapters) := st in
  let number := parseInt (group1 m) in
  if bool_decide (number ∈ seenNumbers) then st
  else
    let title := Js.trim (group2 m) in
    let startIndex := index m in
    let endIndex :=
      match matches !! S i with
      | Some next => index next
      | None => String.length text
      end in
    ({[number]} ∪ seenNumbers,
     chapters ++ [{| number := number; title := title;
                     startIndex := startIndex; endIndex := endIndex |}]).

Definition forEach_matches (text : string) (matches : list RegExpMatch)
  (st : DetectState) : DetectState :=
  fold_left (forEach_body text matches) (imap (λ i m, (i, m)) matches) st.

(** [for (const pattern of chapterPatterns)], leaving at the first
    pattern that finds matches. *)
Fixpoint pattern_loop
  (patterns : list (string → option (nat * string * string)))
  (text : string) (st : DetectState) : DetectState :=
  match patterns with
  | [] => st
  | pattern :: patterns' =>
      let matches := matchAll pattern text in
      if (0 <? length matches)%nat
      then forEach_matches text matches st
      else pattern_loop patterns' text st
  end.

(** The matches that the loop over the patterns works on: those of the
    first pattern that has any. *)
Fixpoint first_matches
  (patterns : list (string → option (nat * string * string)))
  (text : string) : list RegExpMatch :=
  match patterns with
  | [] => []
  | pattern :: patterns' =>
      let matches := matchAll pattern text in
      if (0 <? length matches)%nat then matches
      else first_matches patterns' text
  end.

(** The chapter that the callback makes of the match at position [i]. *)
Definition chapter_of_match (text : string) (matches : list RegExpMatch)
  (i : nat) (m : RegExpMatch) : Chapter :=
  {| number := parseInt (group1 m);
     title := Js.trim (group2 m);
     startIndex := index m;
     endIndex := match matches !! S i with
                 | Some next => index next
                 | None => String.length text
                 end |}.

Definition fullDocument (text : string) : Chapter :=
  {| number := 1; title := "Full Document";
     startIndex := 0; endIndex := String.length text |}.

Definition detectChapters (text : string) : list Chapter :=
  let chapters := (pattern_loop chapterPatterns text (∅, [])).2 in
  if (length chapters =? 0)%nat then [fullDocument text] else chapters.

End FileProcessor.

(** ** lib/pinecone.ts *)

Module Pinecone.
Import Io.

Record ChunkInput := {
  id : string;
  text : string;
  pageNumber : Z;
  chapterNumber : option Z
}.

(** [x || 0] on an optional number *)
Definition or_zero (x : option Z) : Z := default 0%Z x.

(** The callback of [chunks.map((chunk, index) => ...)] that builds the
    records sent to the index. *)
Definition vector_of (materialId : string) (embeddings : list Embedding)
  (index : nat) (chunk : ChunkInput) : VectorRecord :=
  {| v_id := id chunk;
     values := embeddings !! index;
     metadata :=
       [("materialId", MStr materialId);
        ("pageNumber", MNum (pageNumber chunk));
        ("chapterNumber", MNum (or_zero (chapterNumber chunk)))] |}.

(** The row of the record store that is created for a chunk. *)
Definition row_of_chunk (materialId : string) (chunk : ChunkInput)
  : TextChunkRow :=
  {| tc_id := id chunk;
     tc_materialId := materialId;
     tc_text := text chunk;
     tc_pageNumber := pageNumber chunk;
     tc_chapterNumber := or_zero (chapterNumber chunk) |}.

(** The batches that the upsert loop sends, for the records [vectors]. *)
Definition batches (vectors : list VectorRecord) : list (list VectorRecord) :=
  (λ i, Js.array_slice i (i + 100) vectors)
    <$> Js.strides (length vectors) 100.

Definition upsertDocumentChunks (env : Env.t) (materialId : string)
  (chunks : list ChunkInput) : M unit :=
  if negb (Env.index_configured env) then ret tt
  else
    Store.textChunk_deleteMany env materialId;;
    for_of chunks (λ chunk,
      Store.textChunk_create env
        {| tc_id := id chunk;
           tc_materialId := materialId;
           tc_text := text chunk;
           tc_pageNumber := pageNumber chunk;
           tc_chapterNumber := or_zero (chapterNumber chunk) |});;
    let texts := text <$> chunks in
    embeddings ← call (CEmbedBatch texts)
                   (Env.generateLocalEmbeddingsBatch env texts);
    let vectors := imap (vector_of materialId embeddings) chunks in
    let batchSize := 100%nat in
    for_of (Js.strides (length vectors) batchSize) (λ i,
      let batch := Js.array_slice i (i + batchSize) vectors in
      Store.index_upsert env batch).

(** [textMap.get(id)?.text || ''], the map being built from the rows in
    order (a later row with the same id wins). *)
Definition text_of (rows : list TextChunkRow) (id : string) : string :=
  default EmptyString
    (tc_text <$> last (List.filter (λ r, bool_decide (tc_id r = id)) rows)).

Definition searchRelevantChunks (env : Env.t) (query materialId : string)
  (topK : Z) : M (list SearchResult) :=
  if negb (Env.index_configured env) then ret []
  else
    queryEmbedding ← call (CEmbed query) (Env.generateLocalEmbedding env query);
    results ← Store.index_query env queryEmbedding topK materialId;
    let chunkIds := m_id <$> results in
    textChunks ← Store.textChunk_findMany env chunkIds;
    ret ((λ m, {| sr_text := text_of textChunks (m_id m);
                   sr_pageNumber := or_zero (m_pageNumber m);
                   sr_score := or_zero (m_score m) |}) <$> results).

Definition deleteMaterialVectors (env : Env.t) (materialId : string) : M unit :=
  if negb (Env.index_configured env) then ret tt
  else Store.index_deleteMany env materialId.

Definition chunkText (env : Env.t) (text : string) (chunkSize overlap : Z)
  : M (list string) :=
  λ w, (Env.splitTextRecursive env text chunkSize overlap, w).

End Pinecone.

(** ** app/api/upload/route.ts: the pipeline orchestrator *)

Module Pipeline.
Import Io.

Definition normalizeConceptCategory (env : Env.t) (value : option string)
  : string :=
  match value with
  | None => "OTHER"
  | Some v =>
      if bool_decide (v = EmptyString) then "OTHER"
      else
        let upperValue := Js.toUpperCase v in
        if bool_decide (upperValue ∈ Env.conceptCategories env)
        then upperValue else "OTHER"
  end.

Definition placeholder : string :=
  "Summary generation skipped due to API limits".

(** The three [let] variables assigned inside the summary [try]. *)
Record Summaries := {
  brief : string;
  standard : string;
  detailed : string
}.

(** [try { s1; s2; ... } catch (error) { console.warn(...) }] where the
    statements assign local variables: after an exception the variables
    keep what was assigned before it. *)
Fixpoint try_assigning {S} (stmts : list (S → M S)) (s : S) : M S :=
  match stmts with
  | [] => ret s
  | stmt :: rest =>
      λ w, match stmt s w with
           | (Ok s', w') => try_assigning rest s' w'
           | (Throw _, w') => (Ok s, w')
           end
  end.

Definition generateSummary (env : Env.t) (text level : string) : M string :=
  call (CGenerateSummary text level) (Env.generateSummary env text level).

Definition generateSummaries (env : Env.t) (i : nat) (chapterText : string)
  : M Summaries :=
  try_assigning
    [ (λ s, (if (0 <? i)%nat then sleep 2000 else ret tt);; ret s);
      (λ s, v ← generateSummary env chapterText "brief";
            ret {| brief := v; standard := standard s;
                    detailed := detailed s |});
      (λ s, sleep 1000;; ret s);
      (λ s, v ← generateSummary env chapterText "standard";
            ret {| brief := brief s; standard := v;
                    detailed := detailed s |});
      (λ s, sleep 1000;; ret s);
      (λ s, v ← generateSummary env chapterText "detailed";
            ret {| brief := brief s; standard := standard s;
                    detailed := v |}) ]
    {| brief := placeholder; standard := placeholder;
       detailed := placeholder |}.

(** What the summary block leaves in the three variables, given the
    answers of the summariser to the three requests: a variable keeps
    the placeholder from the first failure on. *)
Definition stored_summaries (rb rs rd : Res string) : Summaries :=
  match rb, rs, rd with
  | Ok b, Ok s, Ok d => {| brief := b; standard := s; detailed := d |}
  | Ok b, Ok s, Throw _ =>
      {| brief := b; standard := s; detailed := placeholder |}
  | Ok b, Throw _, _ =>
      {| brief := b; standard := placeholder; detailed := placeholder |}
  | Throw _, _, _ =>
      {| brief := placeholder; standard := placeholder;
         detailed := placeholder |}
  end.

(** The number of requests and pauses of the summary block from the
    first request to the summariser on. *)
Definition summary_requests (rb rs rd : Res string) : nat :=
  match rb, rs with
  | Ok _, Ok _ => 5
  | Ok _, Throw _ => 3
  | Throw _, _ => 1
  end.

Definition generateQuestions (env : Env.t) (chapterText : string)
  : M (list Question) :=
  try_catch
    (sleep 1000;;
     call (CGeneratePracticeQuestions chapterText 5)
       (Env.generatePracticeQuestions env chapterText 5))
    (λ _, ret []).

Definition storeConcepts (env : Env.t) (materialId : string)
  (chapter : FileProcessor.Chapter) (chapterText : string) : M unit :=
  try_catch
    (sleep 1000;;
     concepts ← call (CExtractKeyConcepts chapterText)
                  (Env.extractKeyConcepts env chapterText);
     for_of concepts (λ concept,
       Store.concept_create env
         {| co_materialId := materialId;
            term := Env.rc_term concept;
            definition := Env.rc_definition concept;
            category := normalizeConceptCategory env (Env.rc_category concept);
            pageReferences := [];
            co_chapterNumber := FileProcessor.number chapter |}))
    (λ _, ret tt).

(** The row that is created for a concept of a chapter. *)
Definition conceptRow (env : Env.t) (materialId : string)
  (chapter : FileProcessor.Chapter) (concept : Env.RawConcept) : ConceptRow :=
  {| co_materialId := materialId;
     term := Env.rc_term concept;
     definition := Env.rc_definition concept;
     category := normalizeConceptCategory env (Env.rc_category concept);
     pageReferences := [];
     co_chapterNumber := FileProcessor.number chapter |}.

Definition chapterRow (materialId : string) (chapter : FileProcessor.Chapter)
  (s : Summaries) (practiceQuestions : list Question) : ChapterRow :=
  {| ch_materialId := materialId;
     ch_number := FileProcessor.number chapter;
     ch_title := FileProcessor.title chapter;
     ch_pageStart := Z.of_nat (FileProcessor.startIndex chapter / 2000);
     ch_pageEnd := Z.of_nat (FileProcessor.endIndex chapter / 2000);
     summaryBrief := brief s;
     summaryStandard := standard s;
     summaryDetailed := detailed s;
     practiceQuestions := practiceQuestions |}.

(** The body of the loop over the detected chapters. *)
Definition processChapter (env : Env.t) (materialId text : string)
  (i : nat) (chapter : FileProcessor.Chapter) : M unit :=
  let chapterText :=
    Js.slice (FileProcessor.startIndex chapter)
      (FileProcessor.endIndex chapter) text in
  s ← generateSummaries env i chapterText;
  practiceQuestions ← generateQuestions env chapterText;
  Store.chapter_upsert env (chapterRow materialId chapter s practiceQuestions);;
  storeConcepts env materialId chapter chapterText.

(** The callback of [chunks.map((chunk, index) => ...)] in step 4. *)
Definition chunkData_of (materialId : string) (index : nat) (chunk : string)
  : Pinecone.ChunkInput :=
  {| Pinecone.id := materialId ++ "-chunk-" ++ pretty index;
     Pinecone.text := chunk;
     Pinecone.pageNumber := Z.of_nat (index / 2);
     Pinecone.chapterNumber := Some 1%Z |}.

Definition createEmbeddings (env : Env.t) (materialId text : string) : M unit :=
  try_catch
    (chunks ← Pinecone.chunkText env text 1000 300;
     let chunkData := imap (chunkData_of materialId) chunks in
     Pinecone.upsertDocumentChunks env materialId chunkData)
    (λ _, ret tt).

Definition generateWholeSummary (env : Env.t) (text : string)
  : M (option string) :=
  try_catch
    (sleep 2000;;
     v ← generateSummary env (Js.slice 0 10000 text) "detailed";
     ret (Some v))
    (λ _, ret None).

Definition with_extraction (pageCount : Z) (author : option string)
  (m : Material) : Material :=
  {| processingStatus := processingStatus m;
     pageCount := Some pageCount;
     author := match author with Some a => Some a | None => Io.author m end;
     wholeSummary := Io.wholeSummary m;
     title := Io.title m; fileUrl := Io.fileUrl m; fileType := Io.fileType m |}.

Definition with_ready (wholeSummary : option string) (m : Material)
  : Material :=
  {| processingStatus := READY;
     pageCount := Io.pageCount m; author := Io.author m;
     wholeSummary := wholeSummary;
     title := Io.title m; fileUrl := Io.fileUrl m; fileType := Io.fileType m |}.

Definition with_status (st : ProcessingStatus) (m : Material) : Material :=
  {| processingStatus := st;
     pageCount := Io.pageCount m; author := Io.author m;
     wholeSummary := Io.wholeSummary m;
     title := Io.title m; fileUrl := Io.fileUrl m; fileType := Io.fileType m |}.

Definition processDocumentAsync (env : Env.t)
  (materialId filePath fileType : string) : M unit :=
  try_catch
    (processed ← FileProcessor.processDocument env filePath fileType;
     Store.material_update env materialId
       (with_extraction (FileProcessor.pageCount processed)
          (FileProcessor.metadata processed ≫= FileProcessor.md_author));;
     let chapters := FileProcessor.detectChapters (FileProcessor.text processed) in
     Store.chapter_deleteMany env materialId;;
     Store.concept_deleteMany env materialId;;
     for_index chapters
       (processChapter env materialId (FileProcessor.text processed));;
     createEmbeddings env materialId (FileProcessor.text processed);;
     wholeSummary ← generateWholeSummary env (FileProcessor.text processed);
     Store.material_update env materialId (with_ready wholeSummary))
    (λ error, Store.material_update env materialId (with_status ERROR)).

(** The writes that sit between the guarded blocks of the pipeline, in
    the outer [try] only: the [deleteMany] of the chapters and of the
    concepts, and the [upsert] of a chapter. *)
Definition unguarded_write (op : DbOp) : bool :=
  match op with
  | ChapterDeleteMany _ | ConceptDeleteMany _ | ChapterUpsert _ _ => true
  | _ => false
  end.

(** Request [c], made at instant [n], is one of these writes and the
    record store rejects it. *)
Definition rejected (env : Env.t) (n : nat) (c : Call) : bool :=
  match c with
  | CDb op =>
      unguarded_write op
      && match Env.db_fault env op n with Some _ => true | None => false end
  | _ => false
  end.

(** One of the requests of [log], the first of which is made at instant
    [n], is such a rejected write. *)
Fixpoint rejects (env : Env.t) (n : nat) (log : list Call) : bool :=
  match log with
  | [] => false
  | c :: log' => rejected env n c || rejects env (S n) log'
  end.

(** From a world where [I] holds, [m] only adds requests to the log,
    keeps [I], and throws exactly when one of the requests it adds is a
    rejected write. *)
Definition throws_iff_rejected {A} (env : Env.t) (I : World → Prop)
  (m : M A) : Prop :=
  ∀ w, I w →
    ∃ new,
      calls (m w).2 = calls w ++ new
      ∧ I (m w).2
      ∧ is_ok (m w).1 = negb (rejects env (instant w) new).

(** A request that is none of the writes between the guarded blocks. *)
Definition guarded_or_other (c : Call) : Prop :=
  match c with
  | CDb op => unguarded_write op = false
  | _ => True
  end.

End Pipeline.

(** ** app/api/chat/route.ts *)

Module Chat.
Import Io.

(** The parsed request body. *)
Record Request := {
  materialId : option string;
  question : option string;
  conversationHistory : option (list (string * string))
}.

Inductive Body :=
| ErrorBody (error : string)
| AnswerBody (answer : string) (citations : list string)
    (relevantPages : list Z).

Record Response := { http_status : Z; body : Body }.

Definition json (b : Body) (st : Z) : Response :=
  {| http_status := st; body := b |}.

Definition isRateLimitError (error : Thrown) : bool :=
  bool_decide (status error = Some 429%Z)
  || from_option (Js.includes "429") false (message error)
  || from_option (Js.includes "Too Many Requests") false (message error).

(** [!s] on an optional string: missing or empty. *)
Definition falsy (s : option string) : bool :=
  match s with
  | None => true
  | Some v => bool_decide (v = EmptyString)
  end.

Definition formatHistory (h : option (list (string * string)))
  : list (string * string) :=
  match h with
  | Some msgs =>
      (λ msg, (if bool_decide (msg.1 = "user") then "user" else "assistant",
               msg.2)) <$> msgs
  | None => []
  end.

Definition contextOf (relevantChunks : list SearchResult) : string :=
  Js.join (String (ascii_of_nat 10) (String (ascii_of_nat 10) EmptyString))
    ((λ chunk : SearchResult,
        ("[Page " ++ pretty (sr_pageNumber chunk) ++ "] "
         ++ sr_text chunk)%string) <$> relevantChunks).

(** The responses of the route: an answer goes with status 200, an
    error message with one of five other statuses. *)
Definition well_formed (response : Response) : Prop :=
  match body response with
  | AnswerBody _ _ _ => http_status response = 200%Z
  | ErrorBody _ => http_status response ∈ [400; 404; 429; 500; 503]%Z
  end.

Definition POST (env : Env.t) (request : Request) : M Response :=
  try_catch
    (if negb (Env.DATABASE_URL env)
     then ret (json (ErrorBody "Database not configured") 503)
     else
       if falsy (materialId request) || falsy (question request)
       then ret (json (ErrorBody "Missing required fields") 400)
       else
         let materialId := default EmptyString (materialId request) in
         let question := default EmptyString (question request) in
         if (String.length (Js.trim question) =? 0)%nat
         then ret (json (ErrorBody "Question cannot be empty") 400)
         else if (1000 <? String.length question)%nat
         then ret (json (ErrorBody
                "Question is too long. Please keep it under 1000 characters.")
                400)
         else
           material ← Store.material_findUnique env materialId;
           match material with
           | None => ret (json (ErrorBody "Material not found") 404)
           | Some material =>
               if bool_decide (processingStatus material = PROCESSING)
               then ret (json (ErrorBody "Material is still being processed")
                            400)
               else
                 relevantChunks ←
                   try_catch
                     (Pinecone.searchRelevantChunks env question materialId 5)
                     (λ _, ret []);
                 let context := contextOf relevantChunks in
                 let formattedHistory :=
                   formatHistory (conversationHistory request) in
                 '(answer, citations) ←
                   call (CAnswerQuestion question context)
                     (Env.answerQuestion env question context
                        formattedHistory true);
                 ret (json (AnswerBody answer citations
                               (sr_pageNumber <$> relevantChunks)) 200)
           end)
    (λ error,
       if isRateLimitError error
       then ret (json (ErrorBody "Rate limit exceeded") 429)
       else ret (json (ErrorBody "Failed to process question") 500)).

End Chat.

(** ** The vectorisation script ([src/unnamed/part_001]) *)

Module Scripts.
Import Io.

Definition simpleChunk (text : string) (size : nat) : list string :=
  let words := FileProcessor.split_ws text in
  (λ i, Js.join " " (Js.array_slice i (i + size) words))
    <$> Js.strides (length words) size.

(** The record that the loop of [main] upserts for chunk [i]. *)
Definition vector_of (materialId : string) (chunk : string) (i : nat)
  (embedding : Embedding) : VectorRecord :=
  {| v_id := materialId ++ "-chunk-" ++ pretty i;
     values := Some embedding;
     metadata :=
       [("materialId", MStr materialId);
        ("text", MStr (Js.substring0 500 chunk));
        ("pageNumber", MNum (Z.of_nat (i / 3) + 1));
        ("chapterNumber", MNum 0)] |}.

Definition with_ready (pageCount : Z) (m : Material) : Material :=
  {| processingStatus := READY;
     pageCount := Some pageCount; author := Io.author m;
     wholeSummary := Io.wholeSummary m;
     title := Io.title m; fileUrl := Io.fileUrl m; fileType := Io.fileType m |}.

Definition materialId : string := "cmhpytgw60001scknysxye92f".

Definition main (env : Env.t) : M unit :=
  try_finally
    (try_catch
       (material ← Store.material_findUnique env materialId;
        match material with
        | None => ret tt
        | Some material =>
            dataBuffer ← call (CReadFile (fileUrl material))
                           (Env.readFile env (fileUrl material));
            data ← call CPdfParse (Env.pdfParse env dataBuffer);
            Store.material_update env materialId
              (with_ready (Env.numpages data));;
            let chunks := simpleChunk (Env.pdf_text data) 300 in
            if negb (Env.index_configured env) then ret tt
            else
              let limit := Nat.min (length chunks) 30 in
              for_index (take limit chunks) (λ i chunk,
                try_catch
                  (embedding ← call (CEmbed chunk)
                                 (Env.generateEmbedding env chunk);
                   Store.index_upsert env
                     [vector_of materialId chunk i embedding];;
                   sleep 200)
                  (λ _, ret tt))
        end)
       (λ _, ret tt))
    (Store.disconnect env).

End Scripts.

(** ** lib/prisma.ts: the retry policy *)

Module Retry.
Import Io.

Definition retryable (error : Thrown) : bool :=
  let message := default EmptyString (message error) in
  bool_decide (code error = Some "P1001")
  || bool_decide (code error = Some "P1002")
  || bool_decide (code error = Some "P1008")
  || bool_decide (code error = Some "P1017")
  || Js.includes "ECONNREFUSED" message
  || Js.includes "ETIMEDOUT" message.

(** [Math.min(1000 * Math.pow(2, attempt), 5000)] *)
Definition delay (attempt : Z) : Z := Z.min (1000 * 2 ^ attempt) 5000.

(** [throw lastError ?? new Error('Unknown database error')] *)
Definition surface {T} (lastError : option Thrown) : M T :=
  throw (default (Error "Unknown database error") lastError).

(** The values of [attempt] in
    [for (let attempt = 0; attempt <= maxRetries; attempt++)]. *)
Definition attempts (maxRetries : Z) : list Z :=
  Z.of_nat <$> seq 0 (Z.to_nat (maxRetries + 1)).

Fixpoint retry_loop {T} (operation : M T) (maxRetries : Z)
  (todo : list Z) (lastError : option Thrown) : M T :=
  match todo with
  | [] => surface lastError
  | attempt :: todo' =>
      try_catch operation (λ error,
        let lastError :=
          if instanceofError error then Some error else lastError in
        if negb (retryable error) || (attempt =? maxRetries)%Z
        then surface lastError
        else
          sleep (delay attempt);;
          retry_loop operation maxRetries todo' lastError)
  end.

Definition executeWithRetry {T} (operation : M T) (maxRetries : Z) : M T :=
  retry_loop operation maxRetries (attempts maxRetries) None.

(** The requests of the failed attempts [from], ..., [from + k - 1], each
    followed by its pause. *)
Definition failed_attempts (from k : nat) : list Call :=
  flat_map (λ j, [COperation; CSleep (delay (Z.of_nat j))]) (seq from k).

(** The time, in milliseconds, that the pauses of a log add up to. *)
Definition slept (log : list Call) : Z :=
  foldr (λ c acc, match c with CSleep ms => ms + acc | _ => acc end)%Z 0%Z log.

(** The pauses of a log, in order. *)
Definition pauses (log : list Call) : list Z :=
  omap (λ c, match c with CSleep ms => Some ms | _ => None end) log.

(** [lastError] after the values [errs] were caught in this order. *)
Definition last_error (lastError : option Thrown) (errs : list Thrown)
  : option Thrown :=
  fold_left (λ acc e, if instanceofError e then Some e else acc)
    errs lastError.

End Retry.

(** ** Sample deployments and worlds, for the examples below *)

Module Examples.
Import Io.

Definition lf : string := String (ascii_of_nat 10) EmptyString.

(** A text file with two chapter headings and a repeated one. *)
Definition book : string :=
  ("Chapter 1: Cells" ++ lf ++ "Cells are small." ++ lf
   ++ "Chapter 2: Genes" ++ lf ++ "Genes are smaller." ++ lf
   ++ "Chapter 1: Cells again" ++ lf)%string.

(** A deployment: whether the vector index is configured, how the
    summariser answers, and which record-store requests fail; every
    other provider answers. *)
Definition deployment (pinecone : bool)
  (summary : string → string → nat → Res string)
  (db_fault : DbOp → nat → option Thrown) : Env.t :=
  {| Env.DATABASE_URL := true;
     Env.PINECONE_ENABLED := pinecone;
     Env.conceptCategories := ["DEFINITION"; "FORMULA"; "OTHER"];
     Env.splitTextRecursive := λ text _ _,
       Ok [Js.substring0 20 text; Js.slice 14 40 text; Js.slice 34 60 text];
     Env.readFile := λ _ _, Ok book;
     Env.pdfParse := λ buffer _,
       Ok {| Env.pdf_text := buffer; Env.numpages := 3;
             Env.info_Title := None; Env.info_Author := Some "A. Author";
             Env.info_Subject := None |};
     Env.mammoth_extractRawText := λ _ _, Ok book;
     Env.generateSummary := summary;
     Env.generatePracticeQuestions := λ _ _ _,
       Ok [{| question := "What is a cell?"; answer := "A small unit." |}];
     Env.extractKeyConcepts := λ _ _,
       Ok [{| Env.rc_term := "cell"; Env.rc_definition := "a small unit";
              Env.rc_category := Some "definition" |}];
     Env.generateLocalEmbeddingsBatch := λ texts _,
       Ok ((λ t, [Z.of_nat (String.length t)]) <$> texts);
     Env.generateLocalEmbedding := λ t _, Ok [Z.of_nat (String.length t)];
     Env.generateEmbedding := λ t _, Ok [Z.of_nat (String.length t)];
     Env.answerQuestion := λ q context _ _ _, Ok (("Answer"%string), []);
     Env.db_fault := db_fault;
     Env.index_fault := λ _, None;
     Env.index_matches := λ _ topK _ vs _,
       (λ v, {| m_id := v_id v; m_score := Some 1%Z;
                m_pageNumber := Some 3%Z |}) <$> take (Z.to_nat topK) vs |}.

Definition summary_ok : string → string → nat → Res string :=
  λ _ level _, Ok ("A " ++ level ++ " summary")%string.

Definition summary_down : string → string → nat → Res string :=
  λ _ _ _, Throw (Error "429 Too Many Requests").

(** The summariser answers for the brief variant only. *)
Definition summary_brief_only : string → string → nat → Res string :=
  λ _ level _,
    if bool_decide (level = "brief") then Ok "A brief summary"%string
    else Throw (Error "429 Too Many Requests").

Definition no_fault : DbOp → nat → option Thrown := λ _ _, None.

(** A value that is thrown without being an [Error]: the object
    [{ code: 'P1001' }]. *)
Definition refused : Thrown :=
  {| instanceofError := false; code := Some "P1001"; status := None;
     message := None |}.

(** An [Error] of the record store whose code is a connection code. *)
Definition unreachable : Thrown :=
  {| instanceofError := true; code := Some "P1001"; status := None;
     message := Some "Can't reach database server" |}.

(** The record store rejects the chapter writes. *)
Definition chapter_write_fault : DbOp → nat → option Thrown :=
  λ op _,
    match op with
    | ChapterUpsert _ _ =>
        Some {| instanceofError := true; code := Some "P1001";
                status := None;
                message := Some "Can't reach database server" |}
    | _ => None
    end.

(** The record store rejects the updates of the material. *)
Definition status_write_fault : DbOp → nat → option Thrown :=
  λ op _,
    match op with
    | MaterialUpdate _ => Some unreachable
    | _ => None
    end.

Definition env_ok : Env.t := deployment true summary_ok no_fault.
Definition env_status_write_down : Env.t :=
  deployment true summary_ok status_write_fault.
Definition env_unconfigured : Env.t := deployment false summary_ok no_fault.
Definition env_summary_down : Env.t := deployment true summary_down no_fault.
Definition env_brief_only : Env.t :=
  deployment true summary_brief_only no_fault.
Definition env_store_down : Env.t :=
  deployment true summary_ok chapter_write_fault.

Definition uploaded (st : ProcessingStatus) : Material :=
  {| processingStatus := st; pageCount := None; author := None;
     wholeSummary := None; title := "book"; fileUrl := "uploads/book.txt";
     fileType := "text/plain" |}.

(** A world with one uploaded material in state [st] and an empty
    search cache. *)
Definition world (id : string) (st : ProcessingStatus) : World :=
  {| materials := {[ id := uploaded st ]};
     chapters := []; concepts := []; textChunks := []; vectors := [];
     searchCache := SearchCache.searchCache;
     calls := [] |}.

Definition ask (id q : string) : Chat.Request :=
  {| Chat.materialId := Some id; Chat.question := Some q;
     Chat.conversationHistory := None |}.

(** The world [w] after the results [rs] of question [q] on material
    [id] were put into the search cache at time [now]. *)
Definition cached (q id : string) (rs : list SearchResult) (now : Z)
  (w : World) : World :=
  set_searchCache (SearchCache.set now q id rs (searchCache w)) w.

Definition one_result : list SearchResult :=
  [{| sr_text := "Cells are small."; sr_pageNumber := 1; sr_score := 1 |}].

End Examples.

(** * Properties *)

(** ** Insertion-ordered maps *)

Section JsMapFacts.
Context {V : Type}.
Implicit Types (m : JsMap.t V) (k : string) (v : V).

Lemma JsMap_keys_set_fresh k v m :
  k ∉ JsMap.keys m → JsMap.keys (JsMap.set k v m) = JsMap.keys m ++ [k].
Proof.
  unfold JsMap.keys. induction m as [|[k' v'] m IH]; intros Hk; simpl; [done|].
  rewrite fmap_cons, not_elem_of_cons in Hk. destruct Hk as [Hne Hk].
  simpl in Hne. destruct (decide (k' = k)); [congruence|].
  rewrite !fmap_cons. simpl. f_equal. by apply IH.
Qed.

Lemma JsMap_keys_set_present k v m :
  k ∈ JsMap.keys m → JsMap.keys (JsMap.set k v m) = JsMap.keys m.
Proof.
  unfold JsMap.keys. induction m as [|[k' v'] m IH]; intros Hk; simpl.
  - by apply elem_of_nil in Hk.
  - destruct (decide (k' = k)) as [->|Hne]; [done|].
    rewrite fmap_cons, elem_of_cons in Hk. destruct Hk as [Hk|Hk].
    + simpl in Hk. congruence.
    + rewrite !fmap_cons. f_equal. by apply IH.
Qed.

Lemma JsMap_length_set k v m :
  length (JsMap.set k v m) ≤ S (length m).
Proof.
  induction m as [|[k' v'] m IH]; simpl; [lia|].
  destruct (decide (k' = k)); simpl; lia.
Qed.

Lemma JsMap_keys_delete k m :
  JsMap.keys (JsMap.delete k m) = List.filter (λ k', negb (bool_decide (k' = k))) (JsMap.keys m).
Proof.
  unfold JsMap.keys, JsMap.delete.
  induction m as [|[k' v'] m IH]; simpl; [done|].
  destruct (bool_decide (k' = k)); simpl; [|f_equal]; apply IH.
Qed.

Lemma JsMap_delete_absent k m :
  k ∉ JsMap.keys m → JsMap.delete k m = m.
Proof.
  unfold JsMap.keys, JsMap.delete.
  induction m as [|[k' v'] m IH]; intros Hk; simpl; [done|].
  rewrite fmap_cons, not_elem_of_cons in Hk. destruct Hk as [Hne Hk].
  simpl in Hne. rewrite bool_decide_eq_false_2 by congruence.
  simpl. by rewrite IH.
Qed.

Lemma JsMap_delete_head k v m :
  NoDup (JsMap.keys ((k, v) :: m)) → JsMap.delete k ((k, v) :: m) = m.
Proof.
  unfold JsMap.keys. rewrite fmap_cons, NoDup_cons. intros [Hk _].
  unfold JsMap.delete. simpl. rewrite bool_decide_eq_true_2 by done.
  simpl. by apply JsMap_delete_absent.
Qed.

Lemma JsMap_length_delete k m :
  length (JsMap.delete k m) ≤ length m.
Proof. unfold JsMap.delete. apply List.filter_length_le. Qed.

Lemma JsMap_not_in_delete k m : k ∉ JsMap.keys (JsMap.delete k m).
Proof.
  rewrite JsMap_keys_delete. intros Hin. apply list_elem_of_In in Hin.
  apply List.filter_In in Hin as [_ Hb].
  by rewrite bool_decide_eq_true_2 in Hb.
Qed.

Lemma JsMap_NoDup_delete k m :
  NoDup (JsMap.keys m) → NoDup (JsMap.keys (JsMap.delete k m)).
Proof.
  rewrite JsMap_keys_delete. intros H. apply NoDup_ListNoDup.
  apply List.NoDup_filter. by apply NoDup_ListNoDup.
Qed.

Lemma JsMap_NoDup_set k v m :
  NoDup (JsMap.keys m) → NoDup (JsMap.keys (JsMap.set k v m)).
Proof.
  intros H. destruct (decide (k ∈ JsMap.keys m)) as [Hin|Hout].
  - by rewrite JsMap_keys_set_present.
  - rewrite JsMap_keys_set_fresh by done.
    apply NoDup_app. split_and!; [done| |apply NoDup_singleton].
    intros x Hx Hx'. apply list_elem_of_singleton in Hx'. by subst.
Qed.

Lemma JsMap_get_set_eq k v m : JsMap.get k (JsMap.set k v m) = Some v.
Proof.
  unfold JsMap.get. induction m as [|[k' v'] m IH]; simpl.
  - by rewrite bool_decide_eq_true_2.
  - destruct (decide (k' = k)) as [->|Hne]; simpl.
    + by rewrite bool_decide_eq_true_2.
    + by rewrite bool_decide_eq_false_2.
Qed.

Lemma JsMap_get_delete_ne k k' m :
  k ≠ k' → JsMap.get k (JsMap.delete k' m) = JsMap.get k m.
Proof.
  intros Hne. unfold JsMap.get, JsMap.delete.
  induction m as [|[k0 v0] m IH]; simpl; [done|].
  destruct (decide (k0 = k')) as [->|Hne'].
  - rewrite bool_decide_eq_true_2 by done. simpl.
    rewrite (bool_decide_eq_false_2 (k' = k)) by congruence. done.
  - rewrite (bool_decide_eq_false_2 (k0 = k')) by done. simpl.
    destruct (bool_decide (k0 = k)); [done|apply IH].
Qed.

Lemma JsMap_get_None k m : JsMap.get k m = None ↔ k ∉ JsMap.keys m.
Proof.
  unfold JsMap.get, JsMap.keys. induction m as [|[k0 v0] m IH]; simpl.
  - split; [intros _; apply not_elem_of_nil|done].
  - rewrite not_elem_of_cons. simpl. destruct (decide (k0 = k)) as [->|Hne].
    + rewrite bool_decide_eq_true_2 by done. simpl. split; [done|]. intros [? _]. done.
    + rewrite bool_decide_eq_false_2 by done. rewrite IH.
      split; [by intros ?|by intros [_ ?]].
Qed.

End JsMapFacts.

(** ** The search cache *)

Section SearchCacheFacts.
Context {R : Type}.
Import SearchCache.
Implicit Types (c : t R) (o : Op R).


Lemma step_maxSize c o : maxSize (step c o) = maxSize c.
Proof.
  destruct o; simpl; [|done..]. unfold get.
  destruct (JsMap.get _ _); [|done]. by destruct (_ >? _)%Z.
Qed.

Lemma step_ttl c o : ttl (step c o) = ttl c.
Proof.
  destruct o; simpl; [|done..]. unfold get.
  destruct (JsMap.get _ _); [|done]. by destruct (_ >? _)%Z.
Qed.

Lemma run_maxSize ops c : maxSize (run ops c) = maxSize c.
Proof.
  revert c. induction ops as [|o ops IH]; intros c; [done|].
  unfold run in *. simpl. by rewrite IH, step_maxSize.
Qed.

Lemma run_ttl ops c : ttl (run ops c) = ttl c.
Proof.
  revert c. induction ops as [|o ops IH]; intros c; [done|].
  unfold run in *. simpl. by rewrite IH, step_ttl.
Qed.

Lemma run_app ops1 ops2 c : run (ops1 ++ ops2) c = run ops2 (run ops1 c).
Proof. unfold run. apply fold_left_app. Qed.


Lemma set_unfold now q m rs c :
  NoDup (keys c) →
  cache (set now q m rs c)
  = JsMap.set (getCacheKey q m) {| results := rs; timestamp := now |}
      (after_eviction c).
Proof.
  intros Hnd. unfold set, after_eviction. simpl.
  destruct (_ >=? _)%Z; [|done].
  unfold keys in Hnd. destruct (cache c) as [|[k0 e0] rest]; [done|].
  simpl. f_equal. exact (JsMap_delete_head k0 e0 rest Hnd).
Qed.

Lemma NoDup_after_eviction c :
  NoDup (keys c) → NoDup (JsMap.keys (after_eviction c)).
Proof.
  unfold keys, after_eviction. intros H. destruct (_ >=? _)%Z; [|done].
  destruct (cache c) as [|[k0 e0] rest]; [done|].
  unfold JsMap.keys in *. rewrite fmap_cons in H. by apply NoDup_cons in H as [_ ?].
Qed.

Lemma wf_set now q m rs c :
  (0 < maxSize c)%Z → cache_wf c → cache_wf (set now q m rs c).
Proof.
  intros Hpos [Hnd Hsz]. split.
  - unfold keys. rewrite set_unfold by done.
    by apply JsMap_NoDup_set, NoDup_after_eviction.
  - rewrite set_unfold by done. change (maxSize (set now q m rs c)) with (maxSize c).
    pose proof (JsMap_length_set (getCacheKey q m)
                  {| results := rs; timestamp := now |} (after_eviction c)) as Hl.
    unfold after_eviction, JsMap.size in *.
    destruct (Z.geb_spec (Z.of_nat (length (cache c))) (maxSize c)) as [Hge|Hlt].
    + destruct (cache c) as [|e rest]; simpl in *; lia.
    + lia.
Qed.

Lemma wf_step c o : (0 < maxSize c)%Z → cache_wf c → cache_wf (step c o).
Proof.
  intros Hpos Hwf. destruct o as [now q m|now q m rs|]; simpl.
  - unfold get. destruct (JsMap.get _ _); [|done].
    destruct (_ >? _)%Z; [|done]. destruct Hwf as [Hnd Hsz]. split.
    + by apply JsMap_NoDup_delete.
    + simpl. unfold JsMap.size in *.
      pose proof (JsMap_length_delete (getCacheKey q m) (cache c)). lia.
  - by apply wf_set.
  - split; [apply NoDup_nil_2|]. simpl. unfold JsMap.size. simpl. lia.
Qed.

Lemma wf_run ops c : (0 < maxSize c)%Z → cache_wf c → cache_wf (run ops c).
Proof.
  revert c. induction ops as [|o ops IH]; intros c Hpos Hwf; [done|].
  unfold run in *. simpl. apply IH; [by rewrite step_maxSize|by apply wf_step].
Qed.

Lemma wf_constructor (maxSize ttlMinutes : Z) :
  (0 < maxSize)%Z → cache_wf (constructor (R:=R) maxSize ttlMinutes).
Proof.
  intros H. split; [apply NoDup_nil_2|]. simpl. unfold JsMap.size. simpl. lia.
Qed.


Lemma keys_set_fresh now q m rs c :
  cache_wf c → getCacheKey q m ∉ keys c →
  keys (set now q m rs c)
  = (if (JsMap.size (cache c) >=? maxSize c)%Z then tail (keys c) else keys c)
    ++ [getCacheKey q m].
Proof.
  intros [Hnd Hsz] Hk. unfold keys at 1. rewrite set_unfold by done.
  unfold after_eviction, keys in *. destruct (_ >=? _)%Z.
  - destruct (cache c) as [|[k0 e0] rest]; [done|].
    simpl. apply JsMap_keys_set_fresh.
    unfold JsMap.keys in *. rewrite fmap_cons in Hk. by apply not_elem_of_cons in Hk as [_ ?].
  - by apply JsMap_keys_set_fresh.
Qed.

Lemma keys_run_sets (ops : list (Op R)) c :
  (0 < maxSize c)%Z → cache_wf c →
  Forall (λ o, is_set o = true) ops →
  NoDup (keys c ++ omap op_key ops) →
  keys (run ops c) = newest (maxSize c) (keys c ++ omap op_key ops).
Proof.
  revert c. induction ops as [|o ops IH]; intros c Hpos Hwf Hsets Hnd.
  - simpl. rewrite app_nil_r. unfold newest. destruct Hwf as [_ Hsz].
    unfold JsMap.size, keys, JsMap.keys in *.
    replace (length (cache c).*1 - Z.to_nat (maxSize c)) with 0; [done|].
    rewrite length_fmap. lia.
  - apply Forall_cons in Hsets as [Ho Hsets].
    destruct o as [| now q m rs |]; try discriminate. simpl in Hnd.
    assert (getCacheKey q m ∉ keys c) as Hfresh.
    { apply NoDup_app in Hnd as (_ & Hdisj & _). intros Hin.
      apply (Hdisj _ Hin). apply elem_of_cons. by left. }
    change (run (OpSet now q m rs :: ops) c) with (run ops (set now q m rs c)).
    pose proof (keys_set_fresh now q m rs c Hwf Hfresh) as Hkeys.
    rewrite IH; [|done|by apply wf_set|done|].
    + change (maxSize (set now q m rs c)) with (maxSize c). rewrite Hkeys.
      destruct Hwf as [_ Hsz]. unfold JsMap.size, keys, JsMap.keys in *.
      change (omap op_key (OpSet now q m rs :: ops))
        with (getCacheKey q m :: omap op_key ops).
      destruct (Z.geb_spec (Z.of_nat (length (cache c))) (maxSize c)) as [Hge|Hlt].
      * destruct (cache c) as [|[k0 e0] rest] eqn:Hc; simpl in Hsz, Hge; [lia|].
        rewrite fmap_cons. cbn [tail fst]. rewrite <- app_assoc.
        unfold newest. rewrite <- app_comm_cons. cbn [length app].
        rewrite !length_app, !length_fmap. cbn [length].
        replace (S (length rest + S (length (omap op_key ops))) - Z.to_nat (maxSize c))
          with (S (length rest + S (length (omap op_key ops)) - Z.to_nat (maxSize c)))
          by lia.
        done.
      * by rewrite <- app_assoc.
    + rewrite Hkeys. destruct (_ >=? _)%Z.
      * unfold keys, JsMap.keys in *. destruct (cache c) as [|[k0 e0] rest]; simpl in *.
        -- done.
        -- apply NoDup_cons in Hnd as [_ Hnd]. by rewrite <- app_assoc.
      * by rewrite <- app_assoc.
Qed.

End SearchCacheFacts.

Section SearchCacheCapacity.
Context {R : Type}.
Import SearchCache.

Lemma length_keys_of_sets (ops : list (Op R)) :
  Forall (λ o, is_set o = true) ops → length (omap op_key ops) = length ops.
Proof.
  induction 1 as [|o ops Ho _ IH]; [done|].
  destruct o; try discriminate. cbn [omap list_omap op_key length]. by f_equal.
Qed.

(** C2. A [set] on a cache that already holds [maxSize] entries first
    removes the oldest-inserted entry (the head of the insertion order)
    and then inserts; hence [maxSize + 1] sets with distinct keys on a
    new cache leave exactly [maxSize] entries, the keys of all sets but
    the first; and whatever the clients do, the cache never holds more
    than [maxSize] entries. *)
Theorem set_evicts_oldest_under_capacity (maxSize ttlMinutes : Z) :
  (0 < maxSize)%Z →
  let fresh : t R := constructor maxSize ttlMinutes in
  (∀ ops now q m rs,
     let c := run ops fresh in
     (JsMap.size (cache c) >= maxSize)%Z →
     ∃ oldest rest,
       cache c = oldest :: rest
       ∧ cache (set now q m rs c)
         = JsMap.set (getCacheKey q m) {| results := rs; timestamp := now |}
             rest)
  ∧ (∀ ops,
       Forall (λ o, is_set o = true) ops →
       Z.of_nat (length ops) = (maxSize + 1)%Z →
       NoDup (omap op_key ops) →
       let c := run ops fresh in
       keys c = tail (omap op_key ops)
       ∧ JsMap.size (cache c) = maxSize
       ∧ ∀ first, head (omap op_key ops) = Some first →
                  JsMap.get first (cache c) = None)
  ∧ (∀ ops, (JsMap.size (cache (run ops fresh)) ≤ maxSize)%Z).
Proof.
  intros Hpos fresh.
  assert (∀ ops, cache_wf (run ops fresh)) as Hwf.
  { intros ops. apply wf_run; [done|by apply wf_constructor]. }
  split_and!.
  - intros ops now q m rs c Hfull.
    destruct (Hwf ops) as [Hnd _]. fold c in Hnd.
    pose proof (set_unfold now q m rs c Hnd) as Hset.
    unfold after_eviction in Hset.
    assert (maxSize0 : SearchCache.maxSize c = maxSize)
      by (unfold c; by rewrite run_maxSize).
    rewrite maxSize0 in Hset.
    destruct (Z.geb_spec (JsMap.size (cache c)) maxSize) as [_|Hlt]; [|lia].
    destruct (cache c) as [|oldest rest] eqn:Hc.
    + unfold JsMap.size in Hfull. simpl in Hfull. lia.
    + by exists oldest, rest.
  - intros ops Hsets Hlen Hnd c.
    pose proof (keys_run_sets ops fresh Hpos (wf_constructor _ _ Hpos) Hsets Hnd)
      as Hkeys.
    fold c in Hkeys. change (keys fresh) with (@nil string) in Hkeys.
    rewrite app_nil_l in Hkeys. unfold newest in Hkeys.
    rewrite length_keys_of_sets in Hkeys by done.
    change (SearchCache.maxSize fresh) with maxSize in Hkeys.
    replace (length ops - Z.to_nat maxSize) with 1 in Hkeys by lia.
    assert (keys c = tail (omap op_key ops)) as Htail.
    { rewrite Hkeys. by destruct (omap op_key ops). }
    split_and!; [done| |].
    + unfold JsMap.size. unfold keys, JsMap.keys in Hkeys.
      rewrite <- (length_fmap fst), Hkeys, length_drop, length_keys_of_sets by done.
      lia.
    + intros first Hfirst. apply JsMap_get_None. fold (keys c). rewrite Htail.
      destruct (omap op_key ops) as [|k ks]; [done|].
      simpl in Hfirst. injection Hfirst as ->.
      by apply NoDup_cons in Hnd as [? _].
  - intros ops. destruct (Hwf ops) as [_ Hsz]. by rewrite run_maxSize in Hsz.
Qed.

End SearchCacheCapacity.

Lemma set_evicts_oldest_under_capacity_witness :
  (0 < 2)%Z
  ∧ SearchCache.keys
      (SearchCache.run
         [SearchCache.OpSet 10 "What is DNA?" "m1" [1];
          SearchCache.OpSet 20 "what is rna?" "m1" [2];
          SearchCache.OpSet 30 "What is DNA?" "m2" [3]]
         (SearchCache.constructor 2 5))
    = ["m1:what is rna?"; "m2:what is dna?"].
Proof.
  split; [lia|].
  refine (proj1 (proj1 (proj2 (set_evicts_oldest_under_capacity (R:=nat) 2 5 _))
                   _ _ _ _)).
  - lia.
  - repeat constructor.
  - reflexivity.
  - apply (bool_decide_unpack _). vm_compute. exact I.
Defined.

Section SearchCacheExpiry.
Context {R : Type}.
Import SearchCache.


Lemma get_other_keeps (key : string) (e : CacheEntry R) (o : Op R) (c : t R) :
  reads_other key o →
  JsMap.get key (cache c) = Some e →
  JsMap.get key (cache (step c o)) = Some e.
Proof.
  intros [Hget Hne] He. destruct o as [now q m| |]; try discriminate.
  simpl in *. unfold get. destruct (JsMap.get (getCacheKey q m) _); [|done].
  destruct (_ >? _)%Z; [|done]. simpl.
  rewrite JsMap_get_delete_ne; [done|congruence].
Qed.

Lemma gets_other_keep (key : string) (e : CacheEntry R) (ops : list (Op R))
  (c : t R) :
  Forall (reads_other key) ops →
  JsMap.get key (cache c) = Some e →
  JsMap.get key (cache (run ops c)) = Some e.
Proof.
  intros Hops. revert c. induction Hops as [|o ops Ho _ IH]; intros c He; [done|].
  change (run (o :: ops) c) with (run ops (step c o)).
  by apply IH, get_other_keeps.
Qed.

(** C6. An entry stored by [set] at time [now0] is found by a [get]
    with the same query and material at time [now1] exactly when no
    more than [ttl = ttlMinutes * 60 * 1000] milliseconds have passed;
    later the [get] answers [null] and deletes the entry.  Until that
    [get], however much time passes and whatever other keys are read,
    the entry stays in the map. *)
Theorem expired_entry_is_removed_lazily (maxSize ttlMinutes : Z)
  (before others : list (Op R)) (now0 now1 : Z) (q m : string) (rs : list R) :
  Forall (reads_other (getCacheKey q m)) others →
  let key := getCacheKey q m in
  let c0 := set now0 q m rs (run before (constructor maxSize ttlMinutes)) in
  let c1 := run others c0 in
  JsMap.get key (cache c1) = Some {| results := rs; timestamp := now0 |}
  ∧ ((now1 - now0 > ttlMinutes * 60 * 1000)%Z →
     (get now1 q m c1).1 = None
     ∧ cache (get now1 q m c1).2 = JsMap.delete key (cache c1)
     ∧ JsMap.get key (cache (get now1 q m c1).2) = None)
  ∧ ((now1 - now0 ≤ ttlMinutes * 60 * 1000)%Z →
     get now1 q m c1 = (Some rs, c1)).
Proof.
  intros Hothers key c0 c1.
  assert (JsMap.get key (cache c1)
          = Some {| results := rs; timestamp := now0 |}) as Hpresent.
  { apply gets_other_keep; [done|]. apply JsMap_get_set_eq. }
  assert (ttl c1 = (ttlMinutes * 60 * 1000)%Z) as Httl.
  { unfold c1, c0. rewrite run_ttl.
    change (ttl (set now0 q m rs ?c)) with (ttl c). by rewrite run_ttl. }
  split_and!; [done| |].
  - intros Hlate. unfold get. fold key. rewrite Hpresent, Httl. simpl.
    destruct (Z.gtb_spec (now1 - now0) (ttlMinutes * 60 * 1000)) as [_|?]; [|lia].
    simpl. split_and!; [done..|].
    apply JsMap_get_None, JsMap_not_in_delete.
  - intros Hfresh. unfold get. fold key. rewrite Hpresent, Httl. simpl.
    destruct (Z.gtb_spec (now1 - now0) (ttlMinutes * 60 * 1000)) as [?|_]; [lia|].
    done.
Qed.

End SearchCacheExpiry.

Lemma expired_entry_is_removed_lazily_witness :
  let c1 :=
    SearchCache.run [SearchCache.OpGet 900000 "another question" "m1"]
      (SearchCache.set 0 "What is DNA?" "m1" [7%nat] SearchCache.searchCache) in
  SearchCache.has "m1:what is dna?" c1 = true
  ∧ (SearchCache.get 300001 "What is DNA?" "m1" c1).1 = None
  ∧ SearchCache.get 300000 "what is dna?  " "m1" c1 = (Some [7%nat], c1).
Proof.
  assert (Forall (SearchCache.reads_other (R:=nat) (SearchCache.getCacheKey "What is DNA?" "m1"))
            [SearchCache.OpGet 900000 "another question" "m1"]) as Hothers.
  { repeat constructor. vm_compute. discriminate. }
  pose proof (expired_entry_is_removed_lazily (R:=nat) 100 5 []
                [SearchCache.OpGet 900000 "another question" "m1"]
                0 300001 "What is DNA?" "m1" [7%nat] Hothers) as (_ & Hlate & _).
  pose proof (expired_entry_is_removed_lazily (R:=nat) 100 5 []
                [SearchCache.OpGet 900000 "another question" "m1"]
                0 300000 "What is DNA?" "m1" [7%nat] Hothers) as (_ & _ & Hfresh).
  intros c1. split_and!.
  - reflexivity.
  - apply Hlate. lia.
  - apply Hfresh. lia.
Defined.

(** ** Reasoning about promises *)

Section Promises.
Import Io.


Lemma bind_unfold {A B} (m : M A) (k : A → M B) w :
  (m ≫= k) w = match m w with
               | (Ok a, w') => k a w'
               | (Throw e, w') => (Throw e, w')
               end.
Proof. done. Qed.

Lemma bind_assoc {A B C} (m : M A) (n : A → M B) (k : B → M C) w :
  (m ≫= (λ a, n a ≫= k)) w = ((m ≫= n) ≫= k) w.
Proof. rewrite !bind_unfold. by destruct (m w) as [[a|e] w']. Qed.

(** A continuation after a sequence of five statements. *)
Lemma bind_after_sequence {A B} (m1 m2 m3 m4 : M unit) (m5 : M A)
    (k : A → M B) w :
  (m1;; m2;; m3;; m4;; m5 ≫= k) w = ((m1;; m2;; m3;; m4;; m5) ≫= k) w.
Proof.
  rewrite (bind_unfold (m1;; m2;; m3;; m4;; m5)). rewrite !(bind_unfold m1).
  destruct (m1 w) as [[[]|e] w1]; [|done]. rewrite !(bind_unfold m2).
  destruct (m2 w1) as [[[]|e] w2]; [|done]. rewrite !(bind_unfold m3).
  destruct (m3 w2) as [[[]|e] w3]; [|done]. rewrite !(bind_unfold m4).
  destruct (m4 w3) as [[[]|e] w4]; [|done]. by rewrite !(bind_unfold m5).
Qed.

Lemma preserves_ret {A} I (a : A) : preserves I (ret a).
Proof. by intros w. Qed.

Lemma preserves_throw {A} I e : preserves I (throw (A:=A) e).
Proof. by intros w. Qed.

Lemma preserves_bind {A B} I (m : M A) (k : A → M B) :
  preserves I m → (∀ a, preserves I (k a)) → preserves I (m ≫= k).
Proof.
  intros Hm Hk w HI. rewrite bind_unfold. specialize (Hm w HI).
  destruct (m w) as [[a|e] w']; simpl in *; [by apply Hk|done].
Qed.

Lemma preserves_try_catch {A} I (m : M A) h :
  preserves I m → (∀ e, preserves I (h e)) → preserves I (try_catch m h).
Proof.
  intros Hm Hh w HI. unfold try_catch. specialize (Hm w HI).
  destruct (m w) as [[a|e] w']; simpl in *; [done|by apply Hh].
Qed.

Lemma preserves_try_finally {A} I (m : M A) f :
  preserves I m → preserves I f → preserves I (try_finally m f).
Proof.
  intros Hm Hf w HI. unfold try_finally. specialize (Hm w HI).
  destruct (m w) as [r w']; simpl in *. specialize (Hf w' Hm).
  by destruct (f w') as [[[]|e] w''].
Qed.

Lemma preserves_for_of {A} I (xs : list A) body :
  (∀ x, x ∈ xs → preserves I (body x)) → preserves I (for_of xs body).
Proof.
  induction xs as [|x xs IH]; intros Hbody; simpl; [apply preserves_ret|].
  apply (preserves_bind I (body x) (λ _, for_of xs body)).
  - apply Hbody. by left.
  - intros _. apply IH. intros y Hy. apply Hbody. by right.
Qed.

Lemma preserves_for_index {A} I (xs : list A) body :
  (∀ i x, xs !! i = Some x → preserves I (body i x)) →
  preserves I (for_index xs body).
Proof.
  intros Hbody. apply preserves_for_of. intros [i x] Hix.
  apply elem_of_lookup_imap in Hix as (j & y & Heq & Hy).
  injection Heq as -> ->. by apply Hbody.
Qed.

Lemma preserves_call {A} (I : World → Prop) c (outcome : nat → Res A) :
  (∀ w, I w → I (record c w)) → preserves I (call c outcome).
Proof. intros H w HI. by apply H. Qed.

Lemma preserves_sleep (I : World → Prop) ms :
  (∀ w, I w → I (record (CSleep ms) w)) → preserves I (sleep ms).
Proof. intros H w HI. by apply H. Qed.

Lemma preserves_db {A} (I : World → Prop) env op (effect : M A) :
  (∀ w, I w → I (record (CDb op) w)) → preserves I effect →
  preserves I (Store.db env op effect).
Proof.
  intros Hrec Heff w HI. unfold Store.db.
  destruct (Env.db_fault env op (instant w)); simpl; [by apply Hrec|].
  by apply Heff, Hrec.
Qed.

Lemma preserves_index_request {A} (I : World → Prop) env c (effect : M A) :
  (∀ w, I w → I (record c w)) → preserves I effect →
  preserves I (Store.index_request env c effect).
Proof.
  intros Hrec Heff w HI. unfold Store.index_request.
  destruct (Env.index_fault env (instant w)); simpl; [by apply Hrec|].
  by apply Heff, Hrec.
Qed.

Lemma preserves_try_assigning {S} I (stmts : list (S → M S)) s :
  (∀ stmt s, stmt ∈ stmts → preserves I (stmt s)) →
  preserves I (Pipeline.try_assigning stmts s).
Proof.
  revert s. induction stmts as [|stmt stmts IH]; intros s Hs w HI; [done|].
  simpl. pose proof (Hs stmt s ltac:(by left) w HI) as H1.
  destruct (stmt s w) as [[s'|e] w']; simpl in *; [|done].
  apply IH; [|done]. intros st s0 Hst. apply Hs. by right.
Qed.

(** *** Computations that cannot throw *)

Lemma returns_ret {A} (a : A) : returns (ret a).
Proof. intros w. by exists a. Qed.

Lemma returns_bind {A B} (m : M A) (k : A → M B) :
  returns m → (∀ a, returns (k a)) → returns (m ≫= k).
Proof.
  intros Hm Hk w. rewrite bind_unfold. destruct (Hm w) as [a Ha].
  destruct (m w) as [[a'|e] w']; simpl in *; [apply Hk|done].
Qed.

Lemma returns_try_catch {A} (m : M A) h :
  (∀ e, returns (h e)) → returns (try_catch m h).
Proof.
  intros Hh w. unfold try_catch.
  destruct (m w) as [[a|e] w']; simpl; [by exists a|apply Hh].
Qed.

Lemma returns_try_assigning {S} (stmts : list (S → M S)) s :
  returns (Pipeline.try_assigning stmts s).
Proof.
  revert s. induction stmts as [|stmt stmts IH]; intros s w; simpl.
  - by exists s.
  - destruct (stmt s w) as [[s'|e] w']; simpl; [apply IH|by exists s].
Qed.

Lemma returns_for_of {A} (xs : list A) body :
  (∀ x, returns (body x)) → returns (for_of xs body).
Proof.
  intros Hbody. induction xs as [|x xs IH]; simpl; [apply returns_ret|].
  apply (returns_bind (body x) (λ _, for_of xs body)); [apply Hbody|done].
Qed.

Lemma returns_for_index {A} (xs : list A) body :
  (∀ i x, returns (body i x)) → returns (for_index xs body).
Proof. intros Hbody. apply returns_for_of. intros [i x]. apply Hbody. Qed.

Lemma returns_sleep ms : returns (sleep ms).
Proof. intros w. by exists tt. Qed.


(** *** Computations that return and keep an invariant *)

Lemma safe_intro {A} I (m : M A) : preserves I m → returns m → safe I m.
Proof. intros Hp Hr w HI. split; [by apply Hp|apply Hr]. Qed.

Lemma safe_ret {A} I (a : A) : safe I (ret a).
Proof. intros w HI. split; [done|by exists a]. Qed.

Lemma safe_bind {A B} I (m : M A) (k : A → M B) :
  safe I m → (∀ a, safe I (k a)) → safe I (m ≫= k).
Proof.
  intros Hm Hk w HI. rewrite bind_unfold. destruct (Hm w HI) as [HI' [a Ha]].
  destruct (m w) as [[a'|e] w']; simpl in *; [by apply Hk|done].
Qed.

Lemma safe_for_of {A} I (xs : list A) body :
  (∀ x, x ∈ xs → safe I (body x)) → safe I (for_of xs body).
Proof.
  induction xs as [|x xs IH]; intros Hbody; simpl; [apply safe_ret|].
  apply (safe_bind I (body x) (λ _, for_of xs body)).
  - apply Hbody. by left.
  - intros _. apply IH. intros y Hy. apply Hbody. by right.
Qed.

Lemma safe_for_index {A} I (xs : list A) body :
  (∀ i x, xs !! i = Some x → safe I (body i x)) → safe I (for_index xs body).
Proof.
  intros Hbody. apply safe_for_of. intros [i x] Hix.
  apply elem_of_lookup_imap in Hix as (j & y & Heq & Hy).
  injection Heq as -> ->. by apply Hbody.
Qed.

Lemma safe_try_catch {A} I (m : M A) h :
  preserves I m → (∀ e, safe I (h e)) → safe I (try_catch m h).
Proof.
  intros Hm Hh w HI. unfold try_catch. specialize (Hm w HI).
  destruct (m w) as [[a|e] w']; simpl in *; [by eauto|by apply Hh].
Qed.

(** *** Computations that ignore the search cache *)

Lemma set_searchCache_same w : set_searchCache (searchCache w) w = w.
Proof. by destruct w. Qed.

Lemma cache_blind_unchanged {A} (m : M A) w :
  cache_blind m → searchCache (m w).2 = searchCache w.
Proof.
  intros Hm. specialize (Hm (searchCache w) w).
  rewrite set_searchCache_same in Hm.
  by rewrite Hm at 1.
Qed.

Lemma cache_blind_ret {A} (a : A) : cache_blind (ret a).
Proof. done. Qed.

Lemma cache_blind_throw {A} e : cache_blind (throw (A:=A) e).
Proof. done. Qed.

Lemma cache_blind_bind {A B} (m : M A) (k : A → M B) :
  cache_blind m → (∀ a, cache_blind (k a)) → cache_blind (m ≫= k).
Proof.
  intros Hm Hk c w. rewrite !bind_unfold, Hm.
  destruct (m w) as [[a|e] w']; simpl; [apply Hk|done].
Qed.

Lemma cache_blind_try_catch {A} (m : M A) h :
  cache_blind m → (∀ e, cache_blind (h e)) → cache_blind (try_catch m h).
Proof.
  intros Hm Hh c w. unfold try_catch. rewrite Hm.
  destruct (m w) as [[a|e] w']; simpl; [done|apply Hh].
Qed.

Lemma cache_blind_try_finally {A} (m : M A) f :
  cache_blind m → cache_blind f → cache_blind (try_finally m f).
Proof.
  intros Hm Hf c w. unfold try_finally. rewrite Hm.
  destruct (m w) as [r w']; simpl. rewrite Hf.
  by destruct (f w') as [[[]|e] w''].
Qed.

Lemma cache_blind_for_of {A} (xs : list A) body :
  (∀ x, cache_blind (body x)) → cache_blind (for_of xs body).
Proof.
  intros Hbody. induction xs as [|x xs IH]; simpl; [apply cache_blind_ret|].
  by apply (cache_blind_bind (body x) (λ _, for_of xs body)).
Qed.

Lemma cache_blind_for_index {A} (xs : list A) body :
  (∀ i x, cache_blind (body i x)) → cache_blind (for_index xs body).
Proof. intros Hbody. apply cache_blind_for_of. intros [i x]. apply Hbody. Qed.

Lemma cache_blind_call {A} c (outcome : nat → Res A) :
  cache_blind (call c outcome).
Proof. done. Qed.

Lemma cache_blind_sleep ms : cache_blind (sleep ms).
Proof. done. Qed.

Lemma cache_blind_db {A} env op (effect : M A) :
  cache_blind effect → cache_blind (Store.db env op effect).
Proof.
  intros Heff c w. unfold Store.db.
  change (instant (set_searchCache c w)) with (instant w).
  destruct (Env.db_fault env op (instant w)); [done|].
  apply (Heff c (record (CDb op) w)).
Qed.

Lemma cache_blind_index_request {A} env c (effect : M A) :
  cache_blind effect → cache_blind (Store.index_request env c effect).
Proof.
  intros Heff c' w. unfold Store.index_request.
  change (instant (set_searchCache c' w)) with (instant w).
  destruct (Env.index_fault env (instant w)); [done|].
  apply (Heff c' (record c w)).
Qed.

Lemma cache_blind_try_assigning {S} (stmts : list (S → M S)) s :
  (∀ stmt s, stmt ∈ stmts → cache_blind (stmt s)) →
  cache_blind (Pipeline.try_assigning stmts s).
Proof.
  revert s. induction stmts as [|stmt stmts IH]; intros s Hs c w; [done|].
  simpl. rewrite (Hs stmt s ltac:(by left)).
  destruct (stmt s w) as [[s'|e] w']; simpl; [|done].
  apply IH. intros st s0 Hst. apply Hs. by right.
Qed.


(** *** The requests a computation makes *)

Lemma traces_mono {A} (P Q : Call → Prop) (m : M A) :
  (∀ c, P c → Q c) → traces P m → traces Q m.
Proof.
  intros HPQ Hm w. destruct (Hm w) as (new & Hnew & HP).
  exists new. split; [done|]. by eapply Forall_impl.
Qed.

Lemma traces_silent {A} P (m : M A) :
  (∀ w, calls (m w).2 = calls w) → traces P m.
Proof. intros Hm w. exists []. by rewrite app_nil_r. Qed.

Lemma traces_ret {A} P (a : A) : traces P (ret a).
Proof. by apply traces_silent. Qed.

Lemma traces_throw {A} P e : traces P (throw (A:=A) e).
Proof. by apply traces_silent. Qed.

Lemma traces_bind {A B} P (m : M A) (k : A → M B) :
  traces P m → (∀ a, traces P (k a)) → traces P (m ≫= k).
Proof.
  intros Hm Hk w. rewrite bind_unfold. destruct (Hm w) as (new & Hnew & HP).
  destruct (m w) as [[a|e] w']; simpl in *; [|by eauto].
  destruct (Hk a w') as (new' & Hnew' & HP').
  exists (new ++ new'). rewrite Hnew', Hnew, app_assoc.
  split; [done|by apply Forall_app].
Qed.

Lemma traces_try_catch {A} P (m : M A) h :
  traces P m → (∀ e, traces P (h e)) → traces P (try_catch m h).
Proof.
  intros Hm Hh w. unfold try_catch. destruct (Hm w) as (new & Hnew & HP).
  destruct (m w) as [[a|e] w']; simpl in *; [by eauto|].
  destruct (Hh e w') as (new' & Hnew' & HP').
  exists (new ++ new'). rewrite Hnew', Hnew, app_assoc.
  split; [done|by apply Forall_app].
Qed.

Lemma traces_try_finally {A} P (m : M A) f :
  traces P m → traces P f → traces P (try_finally m f).
Proof.
  intros Hm Hf w. unfold try_finally. destruct (Hm w) as (new & Hnew & HP).
  destruct (m w) as [r w']; simpl in *.
  destruct (Hf w') as (new' & Hnew' & HP').
  exists (new ++ new'). split; [|by apply Forall_app].
  rewrite app_assoc, <- Hnew, <- Hnew'. by destruct (f w') as [[[]|e] w''].
Qed.

Lemma traces_for_of {A} P (xs : list A) body :
  (∀ x, x ∈ xs → traces P (body x)) → traces P (for_of xs body).
Proof.
  induction xs as [|x xs IH]; intros Hbody; simpl; [apply traces_ret|].
  apply (traces_bind P (body x) (λ _, for_of xs body)).
  - apply Hbody. by left.
  - intros _. apply IH. intros y Hy. apply Hbody. by right.
Qed.

Lemma traces_for_index {A} P (xs : list A) body :
  (∀ i x, xs !! i = Some x → traces P (body i x)) →
  traces P (for_index xs body).
Proof.
  intros Hbody. apply traces_for_of. intros [i x] Hix.
  apply elem_of_lookup_imap in Hix as (j & y & Heq & Hy).
  injection Heq as -> ->. by apply Hbody.
Qed.

Lemma traces_call {A} (P : Call → Prop) c (outcome : nat → Res A) :
  P c → traces P (call c outcome).
Proof. intros Hc w. exists [c]. split; [done|by constructor]. Qed.

Lemma traces_sleep (P : Call → Prop) ms : P (CSleep ms) → traces P (sleep ms).
Proof. intros Hc w. exists [CSleep ms]. split; [done|by constructor]. Qed.

Lemma traces_db {A} (P : Call → Prop) env op (effect : M A) :
  P (CDb op) → (∀ w, calls (effect w).2 = calls w) →
  traces P (Store.db env op effect).
Proof.
  intros Hc Heff w. exists [CDb op]. split; [|by constructor].
  unfold Store.db. destruct (Env.db_fault env op (instant w)); [done|].
  by rewrite Heff.
Qed.

Lemma traces_index_request {A} (P : Call → Prop) env c (effect : M A) :
  P c → (∀ w, calls (effect w).2 = calls w) →
  traces P (Store.index_request env c effect).
Proof.
  intros Hc Heff w. exists [c]. split; [|by constructor].
  unfold Store.index_request. destruct (Env.index_fault env (instant w));
    [done|]. by rewrite Heff.
Qed.

Lemma traces_try_assigning {S} P (stmts : list (S → M S)) s :
  (∀ stmt s, stmt ∈ stmts → traces P (stmt s)) →
  traces P (Pipeline.try_assigning stmts s).
Proof.
  revert s. induction stmts as [|stmt stmts IH]; intros s Hs w.
  { exists []. by rewrite app_nil_r. }
  simpl. destruct (Hs stmt s ltac:(by left) w) as (new & Hnew & HP).
  destruct (stmt s w) as [[s'|e] w']; simpl in *; [|by eauto].
  destruct (IH s' (λ st s0 Hst, Hs st s0 ltac:(by right)) w')
    as (new' & Hnew' & HP').
  exists (new ++ new'). rewrite Hnew', Hnew, app_assoc.
  split; [done|by apply Forall_app].
Qed.

(** The requests of the store and of the index. *)
Lemma traces_material_findUnique P env id :
  P (CDb (MaterialFindUnique id)) → traces P (Store.material_findUnique env id).
Proof. intros. by apply traces_db. Qed.

Lemma traces_material_update P env id data :
  P (CDb (MaterialUpdate id)) → traces P (Store.material_update env id data).
Proof.
  intros. apply traces_db; [done|]. intros w. by destruct (materials w !! id).
Qed.

Lemma traces_chapter_deleteMany P env id :
  P (CDb (ChapterDeleteMany id)) → traces P (Store.chapter_deleteMany env id).
Proof. intros. by apply traces_db. Qed.

Lemma traces_concept_deleteMany P env id :
  P (CDb (ConceptDeleteMany id)) → traces P (Store.concept_deleteMany env id).
Proof. intros. by apply traces_db. Qed.

Lemma traces_chapter_upsert P env row :
  P (CDb (ChapterUpsert (ch_materialId row) (ch_number row))) →
  traces P (Store.chapter_upsert env row).
Proof. intros. by apply traces_db. Qed.

Lemma traces_concept_create P env row :
  P (CDb (ConceptCreate (co_materialId row) (term row))) →
  traces P (Store.concept_create env row).
Proof. intros. by apply traces_db. Qed.

Lemma traces_textChunk_deleteMany P env id :
  P (CDb (TextChunkDeleteMany id)) →
  traces P (Store.textChunk_deleteMany env id).
Proof. intros. by apply traces_db. Qed.

Lemma traces_textChunk_create P env row :
  P (CDb (TextChunkCreate (tc_id row))) →
  traces P (Store.textChunk_create env row).
Proof.
  intros. apply traces_db; [done|]. intros w. by destruct (bool_decide _).
Qed.

Lemma traces_textChunk_findMany P env ids :
  P (CDb (TextChunkFindMany ids)) → traces P (Store.textChunk_findMany env ids).
Proof. intros. by apply traces_db. Qed.

Lemma traces_index_upsert P env batch :
  P (CIndexUpsert batch) → traces P (Store.index_upsert env batch).
Proof. intros. by apply traces_index_request. Qed.

Lemma traces_index_query P env v topK id :
  P (CIndexQuery v topK id) → traces P (Store.index_query env v topK id).
Proof. intros. by apply traces_index_request. Qed.

Lemma traces_index_deleteMany P env id :
  P (CIndexDeleteMany id) → traces P (Store.index_deleteMany env id).
Proof. intros. by apply traces_index_request. Qed.

End Promises.

Section Unconfigured.
Import Io.

(** C7. With no API key the index is [null], and then
    [upsertDocumentChunks] returns without writing anything (neither
    text chunks nor vectors), [searchRelevantChunks] returns the empty
    list and [deleteMaterialVectors] returns without deleting: each
    returns normally, makes no request and leaves the world as it was. *)
Theorem unconfigured_index_degrades_to_noop (env : Env.t) (w : World)
  (materialId query : string) (chunks : list Pinecone.ChunkInput) (topK : Z) :
  Env.PINECONE_ENABLED env = false →
  Pinecone.upsertDocumentChunks env materialId chunks w = (Ok tt, w)
  ∧ Pinecone.searchRelevantChunks env query materialId topK w = (Ok [], w)
  ∧ Pinecone.deleteMaterialVectors env materialId w = (Ok tt, w).
Proof.
  intros Hoff.
  unfold Pinecone.upsertDocumentChunks, Pinecone.searchRelevantChunks,
    Pinecone.deleteMaterialVectors, Env.index_configured.
  by rewrite Hoff.
Qed.

End Unconfigured.

Lemma unconfigured_index_degrades_to_noop_witness :
  let w := Io.set_vectors
             (λ _, [Pinecone.vector_of "m1" [[1%Z]] 0
                      (Pipeline.chunkData_of "m1" 0 "Cells are small.")])
             (Examples.world "m1" Io.READY) in
  Env.PINECONE_ENABLED Examples.env_unconfigured = false
  ∧ Pinecone.upsertDocumentChunks Examples.env_unconfigured "m1"
      [Pipeline.chunkData_of "m1" 0 "Genes are smaller."] w = (Io.Ok tt, w)
  ∧ Pinecone.searchRelevantChunks Examples.env_unconfigured "What is a cell?"
      "m1" 5 w = (Io.Ok [], w)
  ∧ Pinecone.deleteMaterialVectors Examples.env_unconfigured "m1" w
    = (Io.Ok tt, w).
Proof.
  intros w. split; [reflexivity|].
  apply (unconfigured_index_degrades_to_noop Examples.env_unconfigured w).
  reflexivity.
Defined.

Section ChatFacts.
Import Io Chat.

Lemma search_guarded_returns env q id topK w :
  ∃ chunks w',
    try_catch (Pinecone.searchRelevantChunks env q id topK) (λ _, ret []) w
    = (Ok chunks, w')
    ∧ w' = (Pinecone.searchRelevantChunks env q id topK w).2
    ∧ match (Pinecone.searchRelevantChunks env q id topK w).1 with
      | Ok cs => chunks = cs
      | Throw _ => chunks = []
      end.
Proof.
  unfold try_catch.
  destruct (Pinecone.searchRelevantChunks env q id topK w) as [[cs|e] w'];
    simpl; eauto.
Qed.

(** The request passed validation and names a material of the store. *)
Lemma POST_validated env req w id q mat :
  Env.DATABASE_URL env = true →
  materialId req = Some id → question req = Some q →
  id ≠ EmptyString →
  String.length (Js.trim q) ≠ 0 → String.length q ≤ 1000 →
  Env.db_fault env (MaterialFindUnique id) (instant w) = None →
  materials w !! id = Some mat →
  POST env req w =
  try_catch
    (if bool_decide (processingStatus mat = PROCESSING)
     then ret (json (ErrorBody "Material is still being processed") 400)
     else
       relevantChunks ←
         try_catch (Pinecone.searchRelevantChunks env q id 5) (λ _, ret []);
       '(answer, citations) ←
         call (CAnswerQuestion q (contextOf relevantChunks))
           (Env.answerQuestion env q (contextOf relevantChunks)
              (formatHistory (conversationHistory req)) true);
       ret (json (AnswerBody answer citations
                    (sr_pageNumber <$> relevantChunks)) 200))
    (λ error,
       if isRateLimitError error
       then ret (json (ErrorBody "Rate limit exceeded") 429)
       else ret (json (ErrorBody "Failed to process question") 500))
    (record (CDb (MaterialFindUnique id)) w).
Proof.
  intros Hdb Hid Hq Hne Htrim Hlen Hfault Hmat.
  unfold POST. rewrite Hdb, Hid, Hq. simpl negb. cbv iota.
  assert (falsy (Some id) = false) as ->.
  { simpl. by apply bool_decide_eq_false. }
  assert (falsy (Some q) = false) as ->.
  { simpl. apply bool_decide_eq_false. intros ->. by apply Htrim. }
  simpl orb. cbv iota. simpl default.
  assert ((String.length (Js.trim q) =? 0) = false) as ->
    by by apply Nat.eqb_neq.
  assert ((1000 <? String.length q) = false) as ->
    by (apply Nat.ltb_ge; lia).
  unfold try_catch at 1. rewrite bind_unfold.
  unfold Store.material_findUnique, Store.db. rewrite Hfault.
  cbn [materials record]. rewrite Hmat.
  unfold try_catch at 2. done.
Qed.


(** A validated request on a material that is not PROCESSING: the
    retrieval runs, guarded, and the answer synthesiser is called. *)
Lemma POST_proceeds env req w id q mat :
  Env.DATABASE_URL env = true →
  materialId req = Some id → question req = Some q →
  id ≠ EmptyString →
  String.length (Js.trim q) ≠ 0 → String.length q ≤ 1000 →
  Env.db_fault env (MaterialFindUnique id) (instant w) = None →
  materials w !! id = Some mat →
  processingStatus mat ≠ PROCESSING →
  let w1 := record (CDb (MaterialFindUnique id)) w in
  let search := Pinecone.searchRelevantChunks env q id 5 w1 in
  let chunks := match search.1 with Ok cs => cs | Throw _ => [] end in
  ∃ response,
    (POST env req w).1 = Ok response
    ∧ http_status response ≠ 400%Z
    ∧ calls (POST env req w).2
      = calls search.2 ++ [CAnswerQuestion q (contextOf chunks)]
    ∧ match Env.answerQuestion env q (contextOf chunks)
              (formatHistory (conversationHistory req)) true
              (instant search.2) with
      | Ok (answer, citations) =>
          response = json (AnswerBody answer citations
                             (sr_pageNumber <$> chunks)) 200
      | Throw e =>
          response = json (ErrorBody "Rate limit exceeded") 429
          ∨ response = json (ErrorBody "Failed to process question") 500
      end.
Proof.
  intros Hdb Hid Hq Hne Htrim Hlen Hfault Hmat Hst w1 search chunks.
  rewrite (POST_validated env req w id q mat) by done. fold w1.
  rewrite bool_decide_eq_false_2 by done.
  assert (∀ k (h : Thrown → M Response),
    try_catch (relevantChunks ←
       try_catch (Pinecone.searchRelevantChunks env q id 5) (λ _, ret []);
       k relevantChunks) h w1
    = try_catch (k chunks) h search.2) as Hsearch.
  { intros k h. unfold try_catch at 1. rewrite bind_unfold.
    destruct (search_guarded_returns env q id 5 w1)
      as (cs & w2 & -> & -> & Hcs).
    fold search in Hcs |- *.
    assert (cs = chunks) as -> by (unfold chunks; by destruct (search.1)).
    done. }
  rewrite Hsearch. clear Hsearch.
  unfold try_catch. rewrite bind_unfold. unfold call.
  destruct (Env.answerQuestion env q (contextOf chunks)
              (formatHistory (conversationHistory req)) true
              (instant search.2)) as [[answer citations]|e] eqn:Hans.
  - eexists. split; [done|]. simpl. repeat split; done.
  - destruct (isRateLimitError e); eexists; (split; [done|]); simpl;
      repeat split; try done; auto.
Qed.

(** C10. A validated chat request that names an existing material is
    answered with HTTP 400 exactly when the material is PROCESSING, and
    then with the message "Material is still being processed" and
    without any request after the lookup.  In every other status (READY
    and ERROR alike) the retrieval runs, the answer synthesiser is
    called with the context built from the retrieved chunks, and these
    chunks are the empty list, the context the empty string, when the
    search throws or finds nothing. *)
Theorem chat_rejects_exactly_processing env req w id q mat :
  Env.DATABASE_URL env = true →
  materialId req = Some id → question req = Some q →
  id ≠ EmptyString →
  String.length (Js.trim q) ≠ 0 → String.length q ≤ 1000 →
  Env.db_fault env (MaterialFindUnique id) (instant w) = None →
  materials w !! id = Some mat →
  let w1 := record (CDb (MaterialFindUnique id)) w in
  let search := Pinecone.searchRelevantChunks env q id 5 w1 in
  let chunks := match search.1 with Ok cs => cs | Throw _ => [] end in
  ∃ response,
    (POST env req w).1 = Ok response
    ∧ (http_status response = 400%Z ↔ processingStatus mat = PROCESSING)
    ∧ (processingStatus mat = PROCESSING →
         POST env req w
         = (Ok (json (ErrorBody "Material is still being processed") 400), w1))
    ∧ (processingStatus mat ≠ PROCESSING →
         calls (POST env req w).2
         = calls search.2 ++ [CAnswerQuestion q (contextOf chunks)]
         ∧ (chunks = [] → contextOf chunks = EmptyString)
         ∧ match Env.answerQuestion env q (contextOf chunks)
                   (formatHistory (conversationHistory req)) true
                   (instant search.2) with
           | Ok (answer, citations) =>
               response = json (AnswerBody answer citations
                                  (sr_pageNumber <$> chunks)) 200
           | Throw e =>
               response = json (ErrorBody "Rate limit exceeded") 429
               ∨ response = json (ErrorBody "Failed to process question") 500
           end).
Proof.
  intros Hdb Hid Hq Hne Htrim Hlen Hfault Hmat w1 search chunks.
  destruct (decide (processingStatus mat = PROCESSING)) as [Hst|Hst].
  - rewrite (POST_validated env req w id q mat) by done. fold w1.
    rewrite bool_decide_eq_true_2 by done.
    exists (json (ErrorBody "Material is still being processed") 400).
    repeat split; done.
  - destruct (POST_proceeds env req w id q mat)
      as (response & Hr & H400 & Hcalls & Hans); try done.
    exists response. split; [done|]. split; [split; [done|by intros ?]|].
    split; [done|]. intros _. split; [done|]. split; [by intros ->|done].
Qed.

Lemma chat_rejects_exactly_processing_witness :
  ∃ response,
    (POST Examples.env_ok (Examples.ask "m1" "What is a cell?")
       (Examples.world "m1" ERROR)).1 = Ok response
    ∧ http_status response = 200%Z.
Proof.
  destruct (chat_rejects_exactly_processing Examples.env_ok
              (Examples.ask "m1" "What is a cell?")
              (Examples.world "m1" ERROR) "m1" "What is a cell?"
              (Examples.uploaded ERROR))
    as (response & Hr & _ & _ & Hgo); try reflexivity; try done.
  - vm_compute. lia.
  - exists response. split; [exact Hr|].
    destruct (Hgo ltac:(done)) as (_ & _ & Hans).
    vm_compute in Hans. by subst response.
Defined.

End ChatFacts.

Section ChatCache.
Import Io Chat.

Lemma cache_blind_searchRelevantChunks env q id topK :
  cache_blind (Pinecone.searchRelevantChunks env q id topK).
Proof.
  unfold Pinecone.searchRelevantChunks.
  destruct (negb (Env.index_configured env)); [apply cache_blind_ret|].
  apply cache_blind_bind; [apply cache_blind_call|]. intros v.
  apply cache_blind_bind.
  { apply cache_blind_index_request. by intros c w. }
  intros results. apply cache_blind_bind.
  { apply cache_blind_db. by intros c w. }
  intros rows. apply cache_blind_ret.
Qed.

Lemma cache_blind_POST env req : cache_blind (POST env req).
Proof.
  unfold POST. apply cache_blind_try_catch.
  2:{ intros e. destruct (isRateLimitError e); apply cache_blind_ret. }
  destruct (negb (Env.DATABASE_URL env)); [apply cache_blind_ret|].
  destruct (falsy (materialId req) || falsy (question req));
    [apply cache_blind_ret|].
  destruct (_ =? 0)%nat; [apply cache_blind_ret|].
  destruct (1000 <? _)%nat; [apply cache_blind_ret|].
  apply cache_blind_bind.
  { apply cache_blind_db. by intros c w. }
  intros [mat|]; [|apply cache_blind_ret].
  destruct (bool_decide _); [apply cache_blind_ret|].
  apply cache_blind_bind.
  { apply cache_blind_try_catch; [apply cache_blind_searchRelevantChunks|].
    intros e. apply cache_blind_ret. }
  intros chunks. apply cache_blind_bind; [apply cache_blind_call|].
  intros [answer citations]. apply cache_blind_ret.
Qed.

(** C5, as the code has it.  The chat route does not use the search
    cache: whatever the cache holds, a validated request on a material
    that is not PROCESSING gives the same response and issues the same
    requests, it leaves the cache as it was, and with the index
    configured it embeds the question right after the lookup of the
    material and, when the embedding is there, queries the index with
    it, filtered by the material. *)
Theorem chat_answers_without_search_cache env req w id q mat :
  Env.DATABASE_URL env = true →
  materialId req = Some id → question req = Some q →
  id ≠ EmptyString →
  String.length (Js.trim q) ≠ 0 → String.length q ≤ 1000 →
  Env.db_fault env (MaterialFindUnique id) (instant w) = None →
  materials w !! id = Some mat →
  processingStatus mat ≠ PROCESSING →
  Env.PINECONE_ENABLED env = true →
  (∀ c, POST env req (set_searchCache c w)
        = ((POST env req w).1, set_searchCache c (POST env req w).2))
  ∧ searchCache (POST env req w).2 = searchCache w
  ∧ ∃ rest,
      calls (POST env req w).2
      = calls w ++ CDb (MaterialFindUnique id) :: CEmbed q :: rest
      ∧ ∀ v, Env.generateLocalEmbedding env q (S (instant w)) = Ok v →
             head rest = Some (CIndexQuery v 5 id).
Proof.
  intros Hdb Hid Hq Hne Htrim Hlen Hfault Hmat Hst Hpc.
  split; [intros c; apply cache_blind_POST|].
  split; [apply cache_blind_unchanged, cache_blind_POST|].
  destruct (POST_proceeds env req w id q mat)
    as (response & _ & _ & Hcalls & _); try done.
  rewrite Hcalls. clear Hcalls.
  set (w1 := record (CDb (MaterialFindUnique id)) w).
  assert (∃ rest0,
    calls (Pinecone.searchRelevantChunks env q id 5 w1).2
    = calls w ++ CDb (MaterialFindUnique id) :: CEmbed q :: rest0
    ∧ ∀ v, Env.generateLocalEmbedding env q (S (instant w)) = Ok v →
           head rest0 = Some (CIndexQuery v 5 id)) as (rest0 & -> & Hhead).
  2:{ exists (rest0 ++ [CAnswerQuestion q
         (contextOf match (Pinecone.searchRelevantChunks env q id 5 w1).1 with
                    | Ok cs => cs
                    | Throw _ => []
                    end)]).
      split; [by rewrite <- !app_assoc|].
      intros v Hv. specialize (Hhead v Hv). by destruct rest0. }
  assert (instant w1 = S (instant w)) as Hw1.
  { unfold instant, w1. simpl. rewrite length_app. simpl. lia. }
  unfold Pinecone.searchRelevantChunks, Env.index_configured.
  rewrite Hpc. change (negb true) with false. cbv iota.
  rewrite bind_unfold. unfold call at 1. rewrite Hw1.
  destruct (Env.generateLocalEmbedding env q (S (instant w))) as [v|e] eqn:Hv.
  2:{ exists []. split; [|by intros v' [=]].
      simpl. by rewrite <- app_assoc. }
  set (w2 := record (CEmbed q) w1).
  assert (calls w2 = calls w ++ [CDb (MaterialFindUnique id); CEmbed q]) as Hw2.
  { simpl. by rewrite <- app_assoc. }
  rewrite bind_unfold. unfold Store.index_query, Store.index_request at 1.
  destruct (Env.index_fault env (instant w2)).
  { exists [CIndexQuery v 5 id]. split; [|by intros v' [= <-]].
    cbn [snd record calls]. rewrite Hw2, <- app_assoc. done. }
  match goal with
  | |- context [(?m ≫= ?k) ?w3] =>
      destruct (traces_bind (λ _, True) m k) with (w := w3)
        as (new & Hnew & _)
  end.
  { apply traces_textChunk_findMany. done. }
  { intros rows. apply traces_ret. }
  exists (CIndexQuery v 5 id :: new). split; [|by intros v' [= <-]].
  cbn [fst snd]. rewrite Hnew.
  cbn [record calls]. rewrite Hw2, <- !app_assoc. done.
Qed.

Lemma chat_answers_without_search_cache_witness :
  let req := Examples.ask "m1" "What is a cell?" in
  let w := Examples.world "m1" READY in
  searchCache (POST Examples.env_ok req w).2 = searchCache w.
Proof.
  intros req w.
  refine (proj1 (proj2 (chat_answers_without_search_cache Examples.env_ok
            req w "m1" "What is a cell?" (Examples.uploaded READY)
            _ _ _ _ _ _ _ _ _ _))); try reflexivity; try done.
  vm_compute. lia.
Defined.

(** The search cache holds fresh results for the question, and the
    chat route queries the vector index all the same. *)
Lemma chat_queries_index_despite_fresh_cache_entry :
  let w := Examples.cached "What is a cell?" "m1" Examples.one_result 0
             (Examples.world "m1" READY) in
  (SearchCache.get 1000 "What is a cell?" "m1" (searchCache w)).1
  = Some Examples.one_result
  ∧ CIndexQuery [15%Z] 5 "m1"
    ∈ calls (POST Examples.env_ok (Examples.ask "m1" "What is a cell?") w).2.
Proof.
  split; [reflexivity|]. vm_compute. set_solver.
Qed.

End ChatCache.

Section PipelineFacts.
Import Io Pipeline.

(** *** Who writes the material records *)

Lemma db_keeps_materials {A} (J : gmap string Material → Prop) env op
    (effect : M A) :
  (∀ w, materials (effect w).2 = materials w) →
  preserves (λ w, J (materials w)) (Store.db env op effect).
Proof.
  intros Heff. apply preserves_db; [done|]. intros w HJ. by rewrite Heff.
Qed.

Lemma index_keeps_materials {A} (J : gmap string Material → Prop) env c
    (effect : M A) :
  (∀ w, materials (effect w).2 = materials w) →
  preserves (λ w, J (materials w)) (Store.index_request env c effect).
Proof.
  intros Heff. apply preserves_index_request; [done|].
  intros w HJ. by rewrite Heff.
Qed.

Lemma processDocument_keeps_materials J env filePath fileType :
  preserves (λ w, J (materials w))
    (FileProcessor.processDocument env filePath fileType).
Proof.
  unfold FileProcessor.processDocument.
  repeat match goal with |- context [if ?b then _ else _] => destruct b end.
  - apply preserves_try_catch; [|intros; apply preserves_throw].
    apply preserves_bind; [by apply preserves_call|]. intros buf.
    apply preserves_bind; [by apply preserves_call|]. intros data.
    apply preserves_ret.
  - apply preserves_try_catch; [|intros; apply preserves_throw].
    apply preserves_bind; [by apply preserves_call|]. intros txt.
    apply preserves_ret.
  - apply preserves_try_catch; [|intros; apply preserves_throw].
    apply preserves_bind; [by apply preserves_call|]. intros txt.
    apply preserves_ret.
  - apply preserves_throw.
  - apply preserves_throw.
Qed.

Lemma generateSummaries_keeps_materials J env i chapterText :
  preserves (λ w, J (materials w)) (generateSummaries env i chapterText).
Proof.
  apply preserves_try_assigning. intros stmt s Hstmt.
  repeat (apply elem_of_cons in Hstmt as [->|Hstmt]);
    [..|by apply elem_of_nil in Hstmt].
  - apply preserves_bind; [|intros; apply preserves_ret].
    destruct (0 <? i)%nat; [by apply preserves_sleep|apply preserves_ret].
  - apply preserves_bind; [by apply preserves_call|].
    intros; apply preserves_ret.
  - apply preserves_bind; [by apply preserves_sleep|].
    intros; apply preserves_ret.
  - apply preserves_bind; [by apply preserves_call|].
    intros; apply preserves_ret.
  - apply preserves_bind; [by apply preserves_sleep|].
    intros; apply preserves_ret.
  - apply preserves_bind; [by apply preserves_call|].
    intros; apply preserves_ret.
Qed.

Lemma generateQuestions_keeps_materials J env chapterText :
  preserves (λ w, J (materials w)) (generateQuestions env chapterText).
Proof.
  apply preserves_try_catch; [|intros; apply preserves_ret].
  apply preserves_bind; [by apply preserves_sleep|]. intros _.
  by apply preserves_call.
Qed.

Lemma storeConcepts_keeps_materials J env materialId chapter chapterText :
  preserves (λ w, J (materials w))
    (storeConcepts env materialId chapter chapterText).
Proof.
  apply preserves_try_catch; [|intros; apply preserves_ret].
  apply preserves_bind; [by apply preserves_sleep|]. intros _.
  apply preserves_bind; [by apply preserves_call|]. intros cs.
  apply preserves_for_of. intros c _. by apply db_keeps_materials.
Qed.

Lemma processChapter_keeps_materials J env materialId text i chapter :
  preserves (λ w, J (materials w))
    (processChapter env materialId text i chapter).
Proof.
  apply preserves_bind; [apply generateSummaries_keeps_materials|]. intros s.
  apply preserves_bind; [apply generateQuestions_keeps_materials|]. intros qs.
  apply preserves_bind; [by apply db_keeps_materials|]. intros _.
  apply storeConcepts_keeps_materials.
Qed.

Lemma upsertDocumentChunks_keeps_materials J env materialId chunks :
  preserves (λ w, J (materials w))
    (Pinecone.upsertDocumentChunks env materialId chunks).
Proof.
  unfold Pinecone.upsertDocumentChunks.
  destruct (negb _); [apply preserves_ret|].
  apply preserves_bind; [by apply db_keeps_materials|]. intros _.
  apply preserves_bind.
  { apply preserves_for_of. intros c _. apply db_keeps_materials.
    intros w. by destruct (bool_decide _). }
  intros _. apply preserves_bind; [by apply preserves_call|]. intros es.
  apply preserves_for_of. intros k _. by apply index_keeps_materials.
Qed.

Lemma createEmbeddings_keeps_materials J env materialId text :
  preserves (λ w, J (materials w)) (createEmbeddings env materialId text).
Proof.
  apply preserves_try_catch; [|intros; apply preserves_ret].
  apply preserves_bind.
  { intros w HJ. done. }
  intros chunks. apply upsertDocumentChunks_keeps_materials.
Qed.

Lemma generateWholeSummary_keeps_materials J env text :
  preserves (λ w, J (materials w)) (generateWholeSummary env text).
Proof.
  apply preserves_try_catch; [|intros; apply preserves_ret].
  apply preserves_bind; [by apply preserves_sleep|]. intros _.
  apply preserves_bind; [by apply preserves_call|]. intros v.
  apply preserves_ret.
Qed.

(** *** What cannot fail while the record store answers *)

Lemma returns_db {A} env op (effect : M A) :
  (∀ n, Env.db_fault env op n = None) → returns effect →
  returns (Store.db env op effect).
Proof.
  intros Hok Heff w. unfold Store.db. rewrite Hok. apply Heff.
Qed.

Lemma returns_generateQuestions env chapterText :
  returns (generateQuestions env chapterText).
Proof. apply returns_try_catch. intros e. apply returns_ret. Qed.

Lemma returns_storeConcepts env materialId chapter chapterText :
  returns (storeConcepts env materialId chapter chapterText).
Proof. apply returns_try_catch. intros e. apply returns_ret. Qed.

Lemma returns_createEmbeddings env materialId text :
  returns (createEmbeddings env materialId text).
Proof. apply returns_try_catch. intros e. apply returns_ret. Qed.

Lemma returns_generateWholeSummary env text :
  returns (generateWholeSummary env text).
Proof. apply returns_try_catch. intros e. apply returns_ret. Qed.

Lemma returns_processChapter env materialId text i chapter :
  (∀ n, Env.db_fault env
          (ChapterUpsert materialId (FileProcessor.number chapter)) n = None) →
  returns (processChapter env materialId text i chapter).
Proof.
  intros Hok. apply returns_bind; [apply returns_try_assigning|]. intros s.
  apply returns_bind; [apply returns_generateQuestions|]. intros qs.
  apply returns_bind; [|intros _; apply returns_storeConcepts].
  apply returns_db; [done|]. intros w. by exists tt.
Qed.

(** An update of a record that exists, on a store that answers. *)
Lemma material_update_ok env id data w mat :
  Env.db_fault env (MaterialUpdate id) (instant w) = None →
  materials w !! id = Some mat →
  Store.material_update env id data w
  = (Ok tt, set_materials (insert id (data mat))
              (record (CDb (MaterialUpdate id)) w)).
Proof.
  intros Hok Hmat. unfold Store.material_update, Store.db. rewrite Hok.
  cbn [record materials]. by rewrite Hmat.
Qed.

(** *** Which requests the stages make *)

Local Ltac quiet :=
  first [ apply traces_ret | apply traces_throw
        | by apply traces_call | by apply traces_sleep
        | apply traces_db; [done|try done] ].

Lemma quiet_processDocument env filePath fileType :
  traces guarded_or_other
    (FileProcessor.processDocument env filePath fileType).
Proof.
  unfold FileProcessor.processDocument.
  repeat match goal with |- context [if ?b then _ else _] => destruct b end;
    try quiet.
  - apply traces_try_catch; [|intros; quiet].
    apply traces_bind; [quiet|]. intros buf.
    apply traces_bind; [quiet|]. intros data. quiet.
  - apply traces_try_catch; [|intros; quiet].
    apply traces_bind; [quiet|]. intros txt. quiet.
  - apply traces_try_catch; [|intros; quiet].
    apply traces_bind; [quiet|]. intros txt. quiet.
Qed.

Lemma quiet_generateSummaries env i chapterText :
  traces guarded_or_other (generateSummaries env i chapterText).
Proof.
  apply traces_try_assigning. intros stmt s Hstmt.
  repeat (apply elem_of_cons in Hstmt as [->|Hstmt]);
    [..|by apply elem_of_nil in Hstmt].
  - apply traces_bind; [|intros; quiet]. destruct (0 <? i)%nat; quiet.
  - apply traces_bind; [quiet|]. intros; quiet.
  - apply traces_bind; [quiet|]. intros; quiet.
  - apply traces_bind; [quiet|]. intros; quiet.
  - apply traces_bind; [quiet|]. intros; quiet.
  - apply traces_bind; [quiet|]. intros; quiet.
Qed.

Lemma quiet_generateQuestions env chapterText :
  traces guarded_or_other (generateQuestions env chapterText).
Proof.
  apply traces_try_catch; [|intros; quiet].
  apply traces_bind; [quiet|]. intros _. quiet.
Qed.

Lemma quiet_storeConcepts env materialId chapter chapterText :
  traces guarded_or_other (storeConcepts env materialId chapter chapterText).
Proof.
  apply traces_try_catch; [|intros; quiet].
  apply traces_bind; [quiet|]. intros _.
  apply traces_bind; [quiet|]. intros cs.
  apply traces_for_of. intros c _. quiet.
Qed.

Lemma quiet_createEmbeddings env materialId text :
  traces guarded_or_other (createEmbeddings env materialId text).
Proof.
  apply traces_try_catch; [|intros; quiet].
  apply traces_bind; [by apply traces_silent|]. intros chunks.
  unfold Pinecone.upsertDocumentChunks.
  destruct (negb _); [quiet|].
  apply traces_bind; [quiet|]. intros _.
  apply traces_bind.
  { apply traces_for_of. intros c _. quiet.
    intros w. by destruct (bool_decide _). }
  intros _. apply traces_bind; [quiet|]. intros embeddings.
  apply traces_for_of. intros i _. by apply traces_index_upsert.
Qed.

Lemma quiet_generateWholeSummary env text :
  traces guarded_or_other (generateWholeSummary env text).
Proof.
  apply traces_try_catch; [|intros; quiet].
  apply traces_bind; [quiet|]. intros _.
  apply traces_bind; [quiet|]. intros v. quiet.
Qed.

(** *** When the body of the outer [try] throws *)

Lemma rejects_app env n l1 l2 :
  rejects env n (l1 ++ l2)
  = rejects env n l1 || rejects env (n + length l1) l2.
Proof.
  revert n. induction l1 as [|c l1 IH]; intros n; simpl.
  - by rewrite Nat.add_0_r.
  - rewrite IH, orb_assoc. do 2 f_equal. lia.
Qed.

Lemma rejects_quiet env n log :
  Forall guarded_or_other log → rejects env n log = false.
Proof.
  intros Hlog. revert n.
  induction Hlog as [|c log Hc _ IH]; intros n; [done|].
  simpl. rewrite IH, orb_false_r.
  destruct c; try done. simpl in Hc |- *. by rewrite Hc.
Qed.

Lemma throws_iff_rejected_bind {A B} env I (m : M A) (k : A → M B) :
  throws_iff_rejected env I m → (∀ a, throws_iff_rejected env I (k a)) →
  throws_iff_rejected env I (m ≫= k).
Proof.
  intros Hm Hk w HI. rewrite bind_unfold.
  destruct (Hm w HI) as (new & Hnew & HI1 & Hok).
  destruct (m w) as [[a|e] w1]; cbn [fst snd is_ok] in *.
  - destruct (Hk a w1 HI1) as (new' & Hnew' & HI2 & Hok').
    exists (new ++ new'). rewrite Hnew', Hnew, app_assoc.
    split; [done|]. split; [done|].
    rewrite Hok', rejects_app.
    assert (instant w1 = instant w + length new) as ->
      by (unfold instant; rewrite Hnew, length_app; lia).
    symmetry in Hok. apply negb_true_iff in Hok. by rewrite Hok.
  - exists new. split; [done|]. split; [done|]. done.
Qed.

Lemma throws_iff_rejected_for_of {A} env I (xs : list A) body :
  (∀ x, x ∈ xs → throws_iff_rejected env I (body x)) →
  throws_iff_rejected env I (for_of xs body).
Proof.
  induction xs as [|x xs IH]; intros Hbody; simpl.
  { intros w HI. exists []. by rewrite app_nil_r. }
  apply (throws_iff_rejected_bind env I (body x) (λ _, for_of xs body)).
  - apply Hbody. by left.
  - intros _. apply IH. intros y Hy. apply Hbody. by right.
Qed.

Lemma throws_iff_rejected_for_index {A} env I (xs : list A) body :
  (∀ i x, xs !! i = Some x → throws_iff_rejected env I (body i x)) →
  throws_iff_rejected env I (for_index xs body).
Proof.
  intros Hbody. apply throws_iff_rejected_for_of. intros [i x] Hix.
  apply elem_of_lookup_imap in Hix as (j & y & Heq & Hy).
  injection Heq as -> ->. by apply Hbody.
Qed.

(** A guarded block: it returns, and none of its requests counts. *)
Lemma throws_iff_rejected_guarded {A} env I (m : M A) :
  preserves I m → returns m → traces guarded_or_other m →
  throws_iff_rejected env I m.
Proof.
  intros Hkeep Hret Htr w HI.
  destruct (Htr w) as (new & Hnew & Hquiet). exists new.
  split; [done|]. split; [by apply Hkeep|].
  destruct (Hret w) as [a ->]. by rewrite rejects_quiet.
Qed.

(** A write between the guarded blocks. *)
Lemma throws_iff_rejected_write env (I : World → Prop) op
    (change : World → World) :
  unguarded_write op = true →
  (∀ w, I w → I (record (CDb op) w)) →
  (∀ w, I w → I (change w)) →
  (∀ w, calls (change w) = calls w) →
  throws_iff_rejected env I (Store.db env op (λ w, (Ok tt, change w))).
Proof.
  intros Hop Hrec Hchange Hcalls w HI. exists [CDb op].
  unfold Store.db. simpl. rewrite Hop, orb_false_r. simpl.
  destruct (Env.db_fault env op (instant w)); simpl.
  - split; [done|]. split; [by apply Hrec|done].
  - rewrite Hcalls. split; [done|]. split; [|done]. by apply Hchange, Hrec.
Qed.

Lemma throws_iff_rejected_processChapter env materialId text i chapter :
  throws_iff_rejected env (λ w, is_Some (materials w !! materialId))
    (processChapter env materialId text i chapter).
Proof.
  set (J := λ ms : gmap string Material, is_Some (ms !! materialId)).
  apply throws_iff_rejected_bind.
  { apply throws_iff_rejected_guarded.
    - apply (generateSummaries_keeps_materials J).
    - apply returns_try_assigning.
    - apply quiet_generateSummaries. }
  intros s. apply throws_iff_rejected_bind.
  { apply throws_iff_rejected_guarded.
    - apply (generateQuestions_keeps_materials J).
    - apply returns_generateQuestions.
    - apply quiet_generateQuestions. }
  intros qs. apply throws_iff_rejected_bind.
  { by apply throws_iff_rejected_write. }
  intros _. apply throws_iff_rejected_guarded.
  - apply (storeConcepts_keeps_materials J).
  - apply returns_storeConcepts.
  - apply quiet_storeConcepts.
Qed.

(** The stages after the first update, up to the whole-document
    summary: they throw exactly when the record store rejects one of
    the writes between the guarded blocks. *)
Lemma throws_iff_rejected_enrichment env materialId text :
  throws_iff_rejected env (λ w, is_Some (materials w !! materialId))
    (Store.chapter_deleteMany env materialId;;
     Store.concept_deleteMany env materialId;;
     for_index (FileProcessor.detectChapters text)
       (processChapter env materialId text);;
     createEmbeddings env materialId text;;
     generateWholeSummary env text).
Proof.
  set (J := λ ms : gmap string Material, is_Some (ms !! materialId)).
  apply throws_iff_rejected_bind; [by apply throws_iff_rejected_write|].
  intros _.
  apply throws_iff_rejected_bind; [by apply throws_iff_rejected_write|].
  intros _. apply throws_iff_rejected_bind.
  { apply throws_iff_rejected_for_index. intros i ch _.
    apply throws_iff_rejected_processChapter. }
  intros _. apply throws_iff_rejected_bind.
  { apply throws_iff_rejected_guarded.
    - apply (createEmbeddings_keeps_materials J).
    - apply returns_createEmbeddings.
    - apply quiet_createEmbeddings. }
  intros _. apply throws_iff_rejected_guarded.
  - apply (generateWholeSummary_keeps_materials J).
  - apply returns_generateWholeSummary.
  - apply quiet_generateWholeSummary.
Qed.

(** C1, as the code has it.  While the material exists and the record
    store accepts the updates of the material itself,
    [processDocumentAsync] returns, and the final status is READY
    exactly when the extraction of stage 1 succeeded and the record
    store rejected none of the writes that sit between the guarded
    blocks (the [deleteMany] of chapters and concepts, the [upsert] of a
    chapter); otherwise it is ERROR.  What the providers of the later
    stages do, and whether the writes inside the guarded blocks
    ([concept.create], the rows of the chunks, the index) are accepted,
    plays no part. *)
Theorem status_follows_extraction env materialId filePath fileType w mat :
  (∀ n, Env.db_fault env (MaterialUpdate materialId) n = None) →
  materials w !! materialId = Some mat →
  let extraction := FileProcessor.processDocument env filePath fileType w in
  let final := processDocumentAsync env materialId filePath fileType w in
  ∃ new,
    calls final.2 = calls w ++ new
    ∧ final.1 = Ok tt
    ∧ processingStatus <$> (materials final.2 !! materialId)
      = Some (if is_ok extraction.1 && negb (rejects env (instant w) new)
              then READY else ERROR).
Proof.
  intros Hok Hmat extraction final.
  pose proof (processDocument_keeps_materials
                (λ ms, ms !! materialId = Some mat) env filePath fileType
                w Hmat) as Hmat1.
  destruct (quiet_processDocument env filePath fileType w)
    as (new1 & Hnew1 & Hquiet1).
  unfold final, processDocumentAsync, try_catch. rewrite bind_unfold.
  fold extraction in Hmat1, Hnew1 |- *.
  destruct extraction as [[processed|e] w1]; cbn [fst snd is_ok] in *.
  - rewrite bind_unfold.
    rewrite (material_update_ok env materialId _ w1 mat) by done.
    set (w2 := set_materials _ _).
    assert (is_Some (materials w2 !! materialId)) as Hw2.
    { unfold w2. simpl. rewrite lookup_insert_eq. by eexists. }
    assert (calls w2 = calls w ++ new1 ++ [CDb (MaterialUpdate materialId)])
      as Hcalls2.
    { unfold w2. simpl. by rewrite Hnew1, <- app_assoc. }
    destruct (throws_iff_rejected_enrichment env materialId
                (FileProcessor.text processed) w2 Hw2)
      as (new2 & Hnew2 & [mat3 Hmat3] & Hthrows).
    assert (rejects env (instant w)
              ((new1 ++ [CDb (MaterialUpdate materialId)]) ++ new2)
            = rejects env (instant w2) new2) as Hrej.
    { rewrite rejects_app, rejects_quiet.
      - simpl. f_equal. unfold instant. rewrite Hcalls2, !length_app. lia.
      - apply Forall_app. split; [done|]. by repeat constructor. }
    rewrite bind_after_sequence. rewrite bind_unfold.
    match type of Hnew2 with
    | calls (?run).2 = _ => destruct run as [[ws|e] w3] eqn:Hrun
    end; cbn [fst snd is_ok] in *.
    + rewrite (material_update_ok env materialId _ w3 mat3) by done.
      exists (((new1 ++ [CDb (MaterialUpdate materialId)]) ++ new2)
              ++ [CDb (MaterialUpdate materialId)]).
      split; [simpl; by rewrite Hnew2, Hcalls2, <- !app_assoc|].
      split; [done|].
      rewrite rejects_app, Hrej, <- (negb_involutive (rejects _ _ new2)).
      rewrite <- Hthrows. simpl. by rewrite lookup_insert_eq.
    + rewrite (material_update_ok env materialId _ w3 mat3) by done.
      exists (((new1 ++ [CDb (MaterialUpdate materialId)]) ++ new2)
              ++ [CDb (MaterialUpdate materialId)]).
      split; [simpl; by rewrite Hnew2, Hcalls2, <- !app_assoc|].
      split; [done|].
      rewrite rejects_app, Hrej, <- (negb_involutive (rejects _ _ new2)).
      rewrite <- Hthrows. simpl. by rewrite lookup_insert_eq.
  - rewrite (material_update_ok env materialId _ w1 mat) by done.
    exists (new1 ++ [CDb (MaterialUpdate materialId)]).
    split; [simpl; by rewrite Hnew1, <- app_assoc|]. split; [done|].
    simpl. by rewrite lookup_insert_eq.
Qed.

Lemma status_follows_extraction_witness :
  let final :=
    processDocumentAsync Examples.env_summary_down "m1" "uploads/book.txt"
      "text/plain" (Examples.world "m1" PROCESSING) in
  ∃ new,
    calls final.2 = calls (Examples.world "m1" PROCESSING) ++ new
    ∧ final.1 = Ok tt
    ∧ processingStatus <$> (materials final.2 !! "m1")
      = Some (if is_ok (FileProcessor.processDocument
                          Examples.env_summary_down "uploads/book.txt"
                          "text/plain" (Examples.world "m1" PROCESSING)).1
                 && negb (rejects Examples.env_summary_down
                            (instant (Examples.world "m1" PROCESSING)) new)
              then READY else ERROR).
Proof.
  exact (status_follows_extraction Examples.env_summary_down "m1"
           "uploads/book.txt" "text/plain" (Examples.world "m1" PROCESSING)
           (Examples.uploaded PROCESSING) (λ _, eq_refl) eq_refl).
Defined.

(** The extraction succeeds and the record store rejects the chapter
    writes: the material ends in ERROR. *)
Lemma error_status_although_extraction_succeeded :
  let w := Examples.world "m1" PROCESSING in
  is_ok (FileProcessor.processDocument Examples.env_store_down
           "uploads/book.txt" "text/plain" w).1 = true
  ∧ processingStatus
      <$> (materials (processDocumentAsync Examples.env_store_down "m1"
                        "uploads/book.txt" "text/plain" w).2 !! "m1")
    = Some ERROR.
Proof. split; vm_compute; reflexivity. Qed.

End PipelineFacts.

Section ChapterFacts.
Import Io Pipeline.

Lemma instant_record c w : instant (record c w) = S (instant w).
Proof. unfold instant. simpl. rewrite length_app. simpl. lia. Qed.

(** The summary block, request by request. *)
Lemma generateSummaries_run env i chapterText w :
  let tb := instant w + (if (0 <? i)%nat then 1 else 0) in
  let rb := Env.generateSummary env chapterText "brief" tb in
  let rs := Env.generateSummary env chapterText "standard" (tb + 2) in
  let rd := Env.generateSummary env chapterText "detailed" (tb + 4) in
  ∃ w',
    generateSummaries env i chapterText w = (Ok (stored_summaries rb rs rd), w')
    ∧ instant w' = tb + summary_requests rb rs rd
    ∧ chapters w' = chapters w ∧ concepts w' = concepts w.
Proof.
  intros tb rb rs rd.
  set (w0 := if (0 <? i)%nat then record (CSleep 2000) w else w).
  assert (instant w0 = tb ∧ chapters w0 = chapters w
          ∧ concepts w0 = concepts w) as (Ht0 & Hc0 & Hk0).
  { unfold w0, tb. destruct (0 <? i)%nat; [|by rewrite Nat.add_0_r].
    rewrite instant_record. split; [lia|done]. }
  unfold generateSummaries, try_assigning.
  rewrite bind_unfold.
  assert ((if (0 <? i)%nat then sleep 2000 else ret tt) w = (Ok tt, w0)) as ->.
  { unfold w0. by destruct (0 <? i)%nat. }
  cbv beta iota. unfold ret at 1.
  rewrite bind_unfold. unfold generateSummary at 1, call at 1. rewrite Ht0.
  fold rb. destruct rb as [b|e] eqn:Hb.
  2:{ eexists. split; [done|]. rewrite instant_record, Ht0.
      split; [simpl; lia|done]. }
  cbv beta iota. unfold ret at 1. rewrite bind_unfold. unfold sleep at 1.
  cbv beta iota. unfold ret at 1.
  rewrite bind_unfold. unfold generateSummary at 1, call at 1.
  rewrite !instant_record, Ht0.
  replace (S (S tb)) with (tb + 2) by lia.
  fold rs. destruct rs as [s|e] eqn:Hs.
  2:{ eexists. split; [done|]. rewrite !instant_record, Ht0.
      split; [simpl; lia|done]. }
  cbv beta iota. unfold ret at 1. rewrite bind_unfold. unfold sleep at 1.
  cbv beta iota. unfold ret at 1.
  rewrite bind_unfold. unfold generateSummary at 1, call at 1.
  rewrite !instant_record, Ht0.
  replace (S (S (S (S tb)))) with (tb + 4) by lia.
  fold rd. destruct rd as [d|e] eqn:Hd.
  - eexists. split; [done|]. rewrite !instant_record, Ht0.
    split; [simpl; lia|done].
  - eexists. split; [done|]. rewrite !instant_record, Ht0.
    split; [simpl; lia|done].
Qed.

Lemma generateQuestions_run env chapterText w :
  ∃ w',
    generateQuestions env chapterText w
    = (Ok match Env.generatePracticeQuestions env chapterText 5
                  (instant w + 1) with
          | Ok qs => qs
          | Throw _ => []
          end, w')
    ∧ instant w' = instant w + 2
    ∧ chapters w' = chapters w ∧ concepts w' = concepts w.
Proof.
  unfold generateQuestions, try_catch. rewrite bind_unfold.
  unfold sleep at 1, call. rewrite instant_record.
  replace (S (instant w)) with (instant w + 1) by lia.
  destruct (Env.generatePracticeQuestions env chapterText 5 (instant w + 1));
    eexists; (split; [done|]); rewrite !instant_record; (split; [lia|done]).
Qed.

Lemma storeConcepts_extraction_fails env materialId chapter chapterText w e :
  Env.extractKeyConcepts env chapterText (instant w + 1) = Throw e →
  storeConcepts env materialId chapter chapterText w
  = (Ok tt, record (CExtractKeyConcepts chapterText) (record (CSleep 1000) w)).
Proof.
  intros He. unfold storeConcepts, try_catch. rewrite bind_unfold.
  unfold sleep at 1. rewrite bind_unfold. unfold call at 1.
  rewrite instant_record. replace (S (instant w)) with (instant w + 1) by lia.
  by rewrite He.
Qed.

Lemma storeConcepts_keeps_chapters J env materialId chapter chapterText :
  preserves (λ w, J (chapters w))
    (storeConcepts env materialId chapter chapterText).
Proof.
  apply preserves_try_catch; [|intros; apply preserves_ret].
  apply preserves_bind; [by apply preserves_sleep|]. intros _.
  apply preserves_bind; [by apply preserves_call|]. intros cs.
  apply preserves_for_of. intros c _.
  apply (preserves_db (λ w, J (chapters w))); [done|]. by intros w HJ.
Qed.


(** C4, as the code has it.  While the record store accepts the chapter
    writes, a chapter is always saved and the loop goes on to the next
    one.  The saved summaries are those generated before the first
    failure of the summariser and the placeholder from there on (all
    three are the placeholder when the first request fails); the saved
    questions are the empty list when their generation fails; and no
    concept is stored when the extraction fails. *)
Theorem chapter_saved_with_fallbacks env materialId text i chapter w :
  (∀ number n,
     Env.db_fault env (ChapterUpsert materialId number) n = None) →
  let chapterText :=
    Js.slice (FileProcessor.startIndex chapter)
      (FileProcessor.endIndex chapter) text in
  let tb := instant w + (if (0 <? i)%nat then 1 else 0) in
  let rb := Env.generateSummary env chapterText "brief" tb in
  let rs := Env.generateSummary env chapterText "standard" (tb + 2) in
  let rd := Env.generateSummary env chapterText "detailed" (tb + 4) in
  let ts := tb + summary_requests rb rs rd in
  let rq := Env.generatePracticeQuestions env chapterText 5 (ts + 1) in
  let rc := Env.extractKeyConcepts env chapterText (ts + 4) in
  let final := processChapter env materialId text i chapter w in
  final.1 = Ok tt
  ∧ chapters final.2
    = Store.upsert_row
        (chapterRow materialId chapter (stored_summaries rb rs rd)
           (match rq with Ok qs => qs | Throw _ => [] end))
        (chapters w)
  ∧ (is_ok rb = false →
     stored_summaries rb rs rd
     = {| brief := placeholder; standard := placeholder;
          detailed := placeholder |})
  ∧ (is_ok rc = false → concepts final.2 = concepts w)
  ∧ ∀ chapters w',
      (for_index chapters (processChapter env materialId text) w').1 = Ok tt.
Proof.
  intros Hok chapterText tb rb rs rd ts rq rc final.
  assert (final.1 = Ok tt) as Hret.
  { destruct (returns_processChapter env materialId text i chapter
                (Hok _) w) as [[] H]. done. }
  split; [done|].
  destruct (generateSummaries_run env i chapterText w)
    as (w1 & Hsum & Ht1 & Hc1 & Hk1).
  fold tb rb rs rd in Hsum, Ht1. fold ts in Ht1.
  destruct (generateQuestions_run env chapterText w1)
    as (w2 & Hqs & Ht2 & Hc2 & Hk2).
  rewrite Ht1 in Hqs, Ht2. fold rq in Hqs.
  set (row := chapterRow materialId chapter (stored_summaries rb rs rd)
                match rq with Ok qs => qs | Throw _ => [] end) in *.
  set (w3 := set_chapters (Store.upsert_row row)
               (record (CDb (ChapterUpsert materialId
                               (FileProcessor.number chapter))) w2)).
  assert (final = storeConcepts env materialId chapter chapterText w3)
    as Hfinal.
  { unfold final, processChapter. fold chapterText.
    rewrite bind_unfold, Hsum. rewrite bind_unfold, Hqs. fold row.
    rewrite bind_unfold. unfold Store.chapter_upsert, Store.db.
    change (ch_materialId row) with materialId.
    change (ch_number row) with (FileProcessor.number chapter).
    by rewrite Hok. }
  split.
  { rewrite Hfinal.
    rewrite (storeConcepts_keeps_chapters
               (λ cs, cs = Store.upsert_row row (chapters w))
               env materialId chapter chapterText w3); [done|].
    unfold w3. simpl. by rewrite Hc2, Hc1. }
  split.
  { unfold rb. by destruct (Env.generateSummary _ _ _ _). }
  split.
  { intros Hrc. rewrite Hfinal.
    assert (instant w3 + 1 = ts + 4) as Ht3.
    { unfold w3. change (instant (set_chapters _ ?x)) with (instant x).
      rewrite instant_record, Ht2. lia. }
    destruct rc as [cs|e] eqn:Hc; [done|].
    rewrite (storeConcepts_extraction_fails _ _ _ _ _ e)
      by (by rewrite Ht3).
    unfold w3. simpl. by rewrite Hk2, Hk1. }
  intros chapters w'.
  destruct (returns_for_index chapters (processChapter env materialId text))
    with (w := w') as [[] H]; [|done].
  intros j ch. apply returns_processChapter. intros n. apply Hok.
Qed.

Lemma chapter_saved_with_fallbacks_witness :
  let chapter := FileProcessor.fullDocument Examples.book in
  let final :=
    processChapter Examples.env_summary_down "m1" Examples.book 0 chapter
      (Examples.world "m1" PROCESSING) in
  final.1 = Ok tt
  ∧ (summaryBrief <$> chapters final.2) = [placeholder]
  ∧ (summaryDetailed <$> chapters final.2) = [placeholder].
Proof.
  intros chapter final.
  destruct (chapter_saved_with_fallbacks Examples.env_summary_down "m1"
              Examples.book 0 chapter (Examples.world "m1" PROCESSING)
              (λ _ _, eq_refl)) as (Hret & Hrow & Hph & _).
  split; [exact Hret|]. fold final in Hrow. rewrite Hrow.
  rewrite (Hph eq_refl). split; reflexivity.
Defined.

(** The summariser answers the first request and fails the second:
    summary generation failed, and the brief summary that was generated
    is stored, not the placeholder. *)
Lemma brief_summary_kept_when_generation_fails :
  let final :=
    processDocumentAsync Examples.env_brief_only "m1" "uploads/book.txt"
      "text/plain" (Examples.world "m1" PROCESSING) in
  (summaryBrief <$> chapters final.2)
  = ["A brief summary"; "A brief summary"]
  ∧ (summaryStandard <$> chapters final.2) = [placeholder; placeholder].
Proof. split; vm_compute; reflexivity. Qed.

End ChapterFacts.

(** ** Loops that advance by a fixed step *)

Section Slices.
Context {A : Type}.

Lemma slices_take (xs : list A) step k :
  concat ((λ i, Js.array_slice i (i + step) xs)
            <$> ((λ k, k * step) <$> seq 0 k))
  = take (k * step) xs.
Proof.
  induction k as [|k IH]; [done|].
  rewrite seq_S, !fmap_app, concat_app, IH. simpl. rewrite app_nil_r.
  unfold Js.array_slice.
  replace (k * step + step - k * step) with step by lia.
  rewrite take_take_drop. f_equal. lia.
Qed.

Lemma strides_count n step :
  0 < step →
  n ≤ (n + step - 1) / step * step
  ∧ ((n + step - 1) / step - 1) * step < n + (if decide (n = 0) then 1 else 0).
Proof.
  intros Hstep.
  pose proof (Nat.div_mod (n + step - 1) step ltac:(lia)) as Hdm.
  pose proof (Nat.mod_upper_bound (n + step - 1) step ltac:(lia)) as Hm.
  destruct (decide (n = 0)) as [->|Hn]; nia.
Qed.

(** The slices of a loop [for (i = 0; i < xs.length; i += step)] put
    together give the list back, and none is empty or longer than
    [step]. *)
Lemma slices_partition (xs : list A) step :
  0 < step →
  let slices := (λ i, Js.array_slice i (i + step) xs)
                  <$> Js.strides (length xs) step in
  concat slices = xs
  ∧ Forall (λ slice, 1 ≤ length slice ≤ step) slices.
Proof.
  intros Hstep slices. unfold slices, Js.strides.
  destruct (strides_count (length xs) step Hstep) as [Hge Hlt].
  split.
  - rewrite slices_take. by apply take_ge.
  - apply Forall_fmap, Forall_fmap, Forall_forall. intros k Hk.
    apply elem_of_seq in Hk. simpl. unfold Js.array_slice.
    rewrite length_take, length_drop.
    destruct (decide (length xs = 0)) as [Hz|Hz].
    + assert ((length xs + step - 1) / step = 0) as Hnb
        by (rewrite Hz; apply Nat.div_small; lia).
      rewrite Hnb in Hk. lia.
    + destruct (decide (length xs = 0)) as [?|_] in Hlt; [done|].
      assert (k * step ≤ ((length xs + step - 1) / step - 1) * step)
        by (apply Nat.mul_le_mono_r; lia).
      lia.
Qed.

End Slices.

Section VectorRecords.
Import Io Pipeline.

Lemma upserted_app l1 l2 : upserted (l1 ++ l2) = upserted l1 ++ upserted l2.
Proof. unfold upserted. by rewrite flat_map_app. Qed.

(** Requests other than upserts are of no concern. *)
Section Other.
Context (P : Call → Prop) (Hother : ∀ c, is_index_upsert c = false → P c).

Local Ltac other :=
  first [ apply traces_ret | apply traces_throw
        | apply traces_call; by apply Hother
        | apply traces_sleep; by apply Hother
        | apply traces_db; [by apply Hother|try done] ].

Lemma traces_processDocument env filePath fileType :
  traces P (FileProcessor.processDocument env filePath fileType).
Proof using Hother.
  unfold FileProcessor.processDocument.
  repeat match goal with |- context [if ?b then _ else _] => destruct b end;
    try other.
  - apply traces_try_catch; [|intros; other].
    apply traces_bind; [other|]. intros buf.
    apply traces_bind; [other|]. intros data. other.
  - apply traces_try_catch; [|intros; other].
    apply traces_bind; [other|]. intros txt. other.
  - apply traces_try_catch; [|intros; other].
    apply traces_bind; [other|]. intros txt. other.
Qed.

Lemma traces_generateSummaries env i chapterText :
  traces P (generateSummaries env i chapterText).
Proof using Hother.
  apply traces_try_assigning. intros stmt s Hstmt.
  repeat (apply elem_of_cons in Hstmt as [->|Hstmt]);
    [..|by apply elem_of_nil in Hstmt].
  - apply traces_bind; [|intros; other]. destruct (0 <? i)%nat; other.
  - apply traces_bind; [other|]. intros; other.
  - apply traces_bind; [other|]. intros; other.
  - apply traces_bind; [other|]. intros; other.
  - apply traces_bind; [other|]. intros; other.
  - apply traces_bind; [other|]. intros; other.
Qed.

Lemma traces_processChapter env materialId text i chapter :
  traces P (processChapter env materialId text i chapter).
Proof using Hother.
  apply traces_bind; [apply traces_generateSummaries|]. intros s.
  apply traces_bind.
  { apply traces_try_catch; [|intros; other].
    apply traces_bind; [other|]. intros _. other. }
  intros qs. apply traces_bind; [other|]. intros _.
  apply traces_try_catch; [|intros; other].
  apply traces_bind; [other|]. intros _.
  apply traces_bind; [other|]. intros cs.
  apply traces_for_of. intros c _. other.
Qed.

Lemma traces_generateWholeSummary env text :
  traces P (generateWholeSummary env text).
Proof using Hother.
  apply traces_try_catch; [|intros; other].
  apply traces_bind; [other|]. intros _.
  apply traces_bind; [other|]. intros v. other.
Qed.

Lemma traces_upsertDocumentChunks env materialId chunks :
  (∀ embeddings i,
     P (CIndexUpsert
          (Js.array_slice i (i + 100)
             (imap (Pinecone.vector_of materialId embeddings) chunks)))) →
  traces P (Pinecone.upsertDocumentChunks env materialId chunks).
Proof using Hother.
  intros Hbatch. unfold Pinecone.upsertDocumentChunks.
  destruct (negb _); [other|].
  apply traces_bind; [other|]. intros _.
  apply traces_bind.
  { apply traces_for_of. intros c _. other.
    intros w. by destruct (bool_decide _). }
  intros _. apply traces_bind; [other|]. intros embeddings.
  apply traces_for_of. intros i _. apply traces_index_upsert, Hbatch.
Qed.

End Other.

Lemma for_of_fmap {A B} (f : A → B) (xs : list A) (body : B → M unit) w :
  for_of (f <$> xs) body w = for_of xs (λ x, body (f x)) w.
Proof.
  revert w. induction xs as [|x xs IH]; intros w; [done|].
  cbn [fmap list_fmap for_of]. unfold bind.
  destruct (body (f x) w) as [[[]|e] w']; [apply IH|done].
Qed.

Lemma upserted_no_upsert log :
  Forall (λ c, is_index_upsert c = false) log → upserted log = [].
Proof.
  induction 1 as [|c log Hc _ IH]; [done|].
  change (upserted (c :: log))
    with (match c with CIndexUpsert batch => batch | _ => [] end
          ++ upserted log).
  rewrite IH. by destruct c.
Qed.

Lemma upserted_batches bs : upserted (CIndexUpsert <$> bs) = concat bs.
Proof.
  induction bs as [|b bs IH]; [done|].
  change (upserted (CIndexUpsert <$> b :: bs))
    with (b ++ upserted (CIndexUpsert <$> bs)).
  by rewrite IH.
Qed.

Lemma bind_after_four {B} (m1 m2 m3 m4 : M unit) (k : unit → M B) w :
  (m1;; m2;; m3;; m4 ≫= k) w = ((m1;; m2;; m3;; m4) ≫= k) w.
Proof.
  rewrite (bind_unfold (m1;; m2;; m3;; m4)). rewrite !(bind_unfold m1).
  destruct (m1 w) as [[[]|e] w1]; [|done]. rewrite !(bind_unfold m2).
  destruct (m2 w1) as [[[]|e] w2]; [|done]. rewrite !(bind_unfold m3).
  destruct (m3 w2) as [[[]|e] w3]; [|done]. by rewrite !(bind_unfold m4).
Qed.

(** *** The upload pipeline *)

(** The loop over the batches stops at the first batch that the index
    rejects. *)
Lemma send_batches_prefix env (bs : list (list VectorRecord)) w :
  ∃ j, calls (for_of bs (Store.index_upsert env) w).2
       = calls w ++ (CIndexUpsert <$> take j bs)
       ∧ (∀ i, S i < j → Env.index_fault env (instant w + i) = None)
       ∧ (length bs ≤ j
          ∨ ∃ e, 1 ≤ j ∧ Env.index_fault env (instant w + (j - 1)) = Some e).
Proof.
  revert w. induction bs as [|b bs IH]; intros w.
  { exists 0. rewrite app_nil_r. split; [done|].
    split; [intros; lia|left; simpl; lia]. }
  cbn [for_of]. unfold bind.
  unfold Store.index_upsert at 1, Store.index_request.
  destruct (Env.index_fault env (instant w)) as [e|] eqn:Hfault.
  { exists 1. split; [done|]. split; [intros; lia|].
    right. exists e. by rewrite Nat.add_0_r. }
  set (w1 := set_vectors _ _).
  assert (instant w1 = S (instant w)) as Hw1 by apply instant_record.
  destruct (IH w1) as (j & Hj & Hbefore & Hat).
  exists (S j). split; [|split].
  - rewrite Hj. unfold w1. cbn. by rewrite <- app_assoc.
  - intros [|i] Hi; [by rewrite Nat.add_0_r|].
    replace (instant w + S i) with (instant w1 + i) by lia.
    apply Hbefore. lia.
  - destruct Hat as [Hall|(e & Hpos & Hfault')]; [left; simpl; lia|].
    right. exists e. split; [lia|].
    by replace (instant w + (S j - 1)) with (instant w1 + (j - 1)) by lia.
Qed.

Lemma batches_prefix (vs : list VectorRecord) j :
  concat (take j (Pinecone.batches vs)) = take (j * 100) vs
  ∧ (length (Pinecone.batches vs) ≤ j → length vs ≤ j * 100).
Proof.
  unfold Pinecone.batches, Js.strides.
  rewrite <- !fmap_take, take_seq, slices_take, !length_fmap, length_seq.
  destruct (strides_count (length vs) 100 ltac:(lia)) as [Hge _].
  set (nb := (length vs + 100 - 1) / 100) in *.
  destruct (decide (j ≤ nb)) as [Hj|Hj].
  - rewrite Nat.min_l by done. split; [done|]. intros Hnb.
    by replace j with nb by lia.
  - rewrite Nat.min_r by lia. split; [|intros _; nia].
    rewrite !take_ge; [done|nia|done].
Qed.

(** What [upsertDocumentChunks] sends: nothing, or, after the request
    for the embeddings of the texts of the chunks, the records of the
    chunks in order, up to the batch that the index rejects. *)
Lemma upsertDocumentChunks_log env materialId chunks w :
  ∃ new,
    calls (Pinecone.upsertDocumentChunks env materialId chunks w).2
    = calls w ++ new
    ∧ (upserted new = []
       ∨ ∃ n embeddings k,
           new !! n = Some (CEmbedBatch (Pinecone.text <$> chunks))
           ∧ Env.generateLocalEmbeddingsBatch env (Pinecone.text <$> chunks)
               (instant w + n) = Ok embeddings
           ∧ upserted new
             = take (k * 100)
                 (imap (Pinecone.vector_of materialId embeddings) chunks)
           ∧ (∀ i, S i < k →
                Env.index_fault env (instant w + n + 1 + i) = None)
           ∧ (length chunks ≤ k * 100
              ∨ ∃ e, 1 ≤ k
                     ∧ Env.index_fault env (instant w + n + k) = Some e)).
Proof.
  unfold Pinecone.upsertDocumentChunks. destruct (negb _).
  { exists []. rewrite app_nil_r. split; [done|by left]. }
  match goal with
  | |- context [Store.textChunk_deleteMany env materialId;; ?rows;; ?rest] =>
      set (prelude := Store.textChunk_deleteMany env materialId;; rows);
      assert (traces (λ c, is_index_upsert c = false) prelude) as Hpre;
      [|change ((Store.textChunk_deleteMany env materialId;; rows;; rest) w)
          with ((Store.textChunk_deleteMany env materialId
                 ≫= (λ _, rows ≫= (λ _, rest))) w);
        rewrite (bind_assoc (Store.textChunk_deleteMany env materialId)
                   (λ _, rows) (λ _, rest) w);
        fold prelude]
  end.
  { apply traces_bind; [by apply traces_textChunk_deleteMany|]. intros _.
    apply traces_for_of. intros c _. by apply traces_textChunk_create. }
  rewrite bind_unfold. destruct (Hpre w) as (new1 & Hnew1 & Hquiet1).
  destruct (prelude w) as [[[]|e] w1]; cbn [fst snd] in *.
  2:{ exists new1. split; [done|]. left. by apply upserted_no_upsert. }
  rewrite bind_unfold. unfold call at 1.
  assert (instant w1 = instant w + length new1) as Hw1
    by (unfold instant; rewrite Hnew1, length_app; lia).
  destruct (Env.generateLocalEmbeddingsBatch env _ (instant w1))
    as [embeddings|e] eqn:Hemb.
  2:{ exists (new1 ++ [CEmbedBatch (Pinecone.text <$> chunks)]).
      split; [simpl; by rewrite Hnew1, <- app_assoc|]. left.
      rewrite upserted_app, (upserted_no_upsert new1) by done. done. }
  cbv zeta. set (vs := imap (Pinecone.vector_of materialId embeddings) chunks).
  rewrite <- (for_of_fmap (λ i, Js.array_slice i (i + 100) vs)
                (Js.strides (length vs) 100) (Store.index_upsert env)).
  fold (Pinecone.batches vs).
  destruct (send_batches_prefix env (Pinecone.batches vs)
              (record (CEmbedBatch (Pinecone.text <$> chunks)) w1))
    as (j & Hj & Hbefore & Hat).
  rewrite instant_record in Hbefore, Hat.
  destruct (batches_prefix vs j) as [Hk Hall].
  exists (new1 ++ CEmbedBatch (Pinecone.text <$> chunks)
               :: (CIndexUpsert <$> take j (Pinecone.batches vs))).
  split.
  { rewrite Hj. simpl. rewrite Hnew1, <- !app_assoc. done. }
  right. exists (length new1), embeddings, j. split_and!.
  - by rewrite lookup_app_r, Nat.sub_diag by lia.
  - by rewrite <- Hw1.
  - rewrite upserted_app, (upserted_no_upsert new1) by done.
    change (upserted (?c :: ?l)) with
      (match c with CIndexUpsert batch => batch | _ => [] end ++ upserted l).
    by rewrite upserted_batches, Hk.
  - intros i Hi. rewrite <- Hw1.
    replace (instant w1 + 1 + i) with (S (instant w1) + i) by lia.
    by apply Hbefore.
  - destruct Hat as [Hlen|(e & Hpos & Hfault)].
    + left. specialize (Hall Hlen). unfold vs in Hall.
      by rewrite length_imap in Hall.
    + right. exists e. split; [done|]. rewrite <- Hw1.
      by replace (instant w1 + j) with (S (instant w1) + (j - 1)) by lia.
Qed.

Lemma chunkData_texts materialId chunks :
  Pinecone.text <$> imap (chunkData_of materialId) chunks = chunks.
Proof.
  rewrite fmap_imap. apply list_eq. intros i.
  rewrite list_lookup_imap. by destruct (chunks !! i).
Qed.

Lemma chunkData_vectors materialId embeddings chunks :
  imap (Pinecone.vector_of materialId embeddings)
    (imap (chunkData_of materialId) chunks)
  = imap (λ index _,
            {| v_id := materialId ++ "-chunk-" ++ pretty index;
               values := embeddings !! index;
               metadata :=
                 [("materialId", MStr materialId);
                  ("pageNumber", MNum (Z.of_nat (index / 2)));
                  ("chapterNumber", MNum 1)] |}) chunks.
Proof.
  apply list_eq. intros i. rewrite !list_lookup_imap.
  by destruct (chunks !! i).
Qed.

(** Step 4 of the pipeline. *)
Lemma createEmbeddings_log env materialId text w :
  ∃ new,
    calls (createEmbeddings env materialId text w).2 = calls w ++ new
    ∧ (upserted new = []
       ∨ ∃ chunks n embeddings k,
           Env.splitTextRecursive env text 1000 300 = Ok chunks
           ∧ new !! n = Some (CEmbedBatch chunks)
           ∧ Env.generateLocalEmbeddingsBatch env chunks (instant w + n)
             = Ok embeddings
           ∧ upserted new
             = take (k * 100)
                 (imap (λ index _,
                    {| v_id := materialId ++ "-chunk-" ++ pretty index;
                       values := embeddings !! index;
                       metadata :=
                         [("materialId", MStr materialId);
                          ("pageNumber", MNum (Z.of_nat (index / 2)));
                          ("chapterNumber", MNum 1)] |}) chunks)
           ∧ (∀ i, S i < k →
                Env.index_fault env (instant w + n + 1 + i) = None)
           ∧ (length chunks ≤ k * 100
              ∨ ∃ e, 1 ≤ k
                     ∧ Env.index_fault env (instant w + n + k) = Some e)).
Proof.
  unfold createEmbeddings, try_catch. rewrite bind_unfold.
  unfold Pinecone.chunkText at 1.
  destruct (Env.splitTextRecursive env text 1000 300) as [chunks|e] eqn:Hsplit.
  2:{ exists []. rewrite app_nil_r. split; [done|by left]. }
  cbv zeta.
  destruct (upsertDocumentChunks_log env materialId
              (imap (chunkData_of materialId) chunks) w)
    as (new & Hnew & Hup).
  exists new. split.
  { rewrite <- Hnew. by destruct (Pinecone.upsertDocumentChunks _ _ _ _)
      as [[[]|e] w']. }
  destruct Hup as [Hup|(n & embeddings & k & Hn & Hemb & Hup & Hbefore & Hat)];
    [by left|].
  right. exists chunks, n, embeddings, k.
  rewrite chunkData_texts in Hn, Hemb. rewrite chunkData_vectors in Hup.
  rewrite length_imap in Hat. done.
Qed.

(** *** The vectorisation script *)

(** One turn of the loop of the script. *)
Lemma script_turn env i chunk w :
  ∃ turn w',
    try_catch
      (embedding ← call (CEmbed chunk) (Env.generateEmbedding env chunk);
       Store.index_upsert env
         [Scripts.vector_of Scripts.materialId chunk i embedding];;
       sleep 200)
      (λ _, ret tt) w = (Ok tt, w')
    ∧ calls w' = calls w ++ turn
    ∧ ∀ n batch, turn !! n = Some (CIndexUpsert batch) →
        ∃ embedding,
          n = 1 ∧ turn !! 0 = Some (CEmbed chunk)
          ∧ Env.generateEmbedding env chunk (instant w) = Ok embedding
          ∧ batch = [Scripts.vector_of Scripts.materialId chunk i embedding].
Proof.
  unfold try_catch. rewrite bind_unfold. unfold call at 1.
  destruct (Env.generateEmbedding env chunk (instant w))
    as [embedding|e] eqn:Hemb.
  2:{ exists [CEmbed chunk], (record (CEmbed chunk) w).
      split; [done|]. split; [done|]. by intros [|[|n]] batch Hn. }
  rewrite bind_unfold. unfold Store.index_upsert at 1, Store.index_request.
  destruct (Env.index_fault env _).
  - eexists [CEmbed chunk; CIndexUpsert _], _. split; [done|].
    split; [simpl; by rewrite <- app_assoc|].
    intros [|[|[|n]]] batch Hn; try done. injection Hn as <-.
    by exists embedding.
  - eexists [CEmbed chunk; CIndexUpsert _; CSleep 200], _. split; [done|].
    split; [simpl; by rewrite <- !app_assoc|].
    intros [|[|[|[|n]]]] batch Hn; try done. injection Hn as <-.
    by exists embedding.
Qed.

Lemma script_loop env (ixs : list (nat * string)) w :
  ∃ new,
    calls (for_of ixs (λ ix,
             try_catch
               (embedding ← call (CEmbed ix.2)
                              (Env.generateEmbedding env ix.2);
                Store.index_upsert env
                  [Scripts.vector_of Scripts.materialId ix.2 ix.1 embedding];;
                sleep 200)
               (λ _, ret tt)) w).2 = calls w ++ new
    ∧ ∀ n batch, new !! n = Some (CIndexUpsert batch) →
        ∃ i chunk embedding m,
          (i, chunk) ∈ ixs
          ∧ n = S m
          ∧ new !! m = Some (CEmbed chunk)
          ∧ Env.generateEmbedding env chunk (instant w + m) = Ok embedding
          ∧ batch = [Scripts.vector_of Scripts.materialId chunk i embedding].
Proof.
  revert w. induction ixs as [|[i chunk] ixs IH]; intros w.
  { exists []. rewrite app_nil_r. split; [done|]. by intros n batch Hn. }
  cbn [for_of]. unfold bind. cbn [fst snd].
  destruct (script_turn env i chunk w) as (turn & w' & -> & Hturn & Hup).
  destruct (IH w') as (new & Hnew & Hrest).
  exists (turn ++ new). split; [by rewrite Hnew, Hturn, app_assoc|].
  intros n batch Hn. apply lookup_app_Some in Hn as [Hn|[Hlen Hn]].
  - destruct (Hup n batch Hn) as (embedding & -> & H0 & Hemb & ->).
    exists i, chunk, embedding, 0. split; [by left|]. split; [done|].
    split; [by apply lookup_app_l_Some|]. by rewrite Nat.add_0_r.
  - destruct (Hrest _ batch Hn)
      as (i' & chunk' & embedding & m & Hin & Hm & Hcall & Hemb & ->).
    exists i', chunk', embedding, (length turn + m).
    split; [by right|]. split; [lia|]. split.
    + by rewrite lookup_app_r, Nat.add_comm, Nat.add_sub by lia.
    + replace (instant w + (length turn + m)) with (instant w' + m); [done|].
      unfold instant. rewrite Hturn, length_app. lia.
Qed.

(** The script up to the disconnection. *)
Lemma script_log env w :
  ∃ new,
    calls (Scripts.main env w).2 = calls w ++ new
    ∧ (upserted new = []
       ∨ ∃ material buf data,
           materials w !! Scripts.materialId = Some material
           ∧ Env.readFile env (fileUrl material) (instant w + 1) = Ok buf
           ∧ Env.pdfParse env buf (instant w + 2) = Ok data
           ∧ ∀ n batch, new !! n = Some (CIndexUpsert batch) →
               ∃ i chunk embedding m,
                 i < 30
                 ∧ Scripts.simpleChunk (Env.pdf_text data) 300 !! i
                   = Some chunk
                 ∧ n = S m
                 ∧ new !! m = Some (CEmbed chunk)
                 ∧ Env.generateEmbedding env chunk (instant w + m)
                   = Ok embedding
                 ∧ batch
                   = [Scripts.vector_of Scripts.materialId chunk i
                        embedding]).
Proof.
  assert (∀ (r : Res unit) w1 pre,
            calls w1 = calls w ++ pre →
            ∃ new,
              calls (match Store.disconnect env w1 with
                     | (Ok _, w2) => (r, w2)
                     | (Throw e, w2) => (Throw e, w2)
                     end).2 = calls w ++ new
              ∧ new = pre ++ [CDb Disconnect]) as Hfinally.
  { intros r w1 pre Hpre. exists (pre ++ [CDb Disconnect]). split; [|done].
    unfold Store.disconnect, Store.db.
    destruct (Env.db_fault env Disconnect (instant w1)); simpl;
      by rewrite Hpre, <- app_assoc. }
  assert (∀ pre, Forall (λ c, is_index_upsert c = false) pre →
                 upserted (pre ++ [CDb Disconnect]) = []) as Hquiet.
  { intros pre Hpre. apply upserted_no_upsert, Forall_app.
    split; [done|by repeat constructor]. }
  unfold Scripts.main, try_finally, try_catch. rewrite bind_unfold.
  unfold Store.material_findUnique at 1, Store.db at 1.
  set (c0 := CDb (MaterialFindUnique Scripts.materialId)).
  destruct (Env.db_fault env _ (instant w)).
  { destruct (Hfinally (Ok tt) (record c0 w) [c0] eq_refl) as (new & Hnew & ->).
    eexists. split; [exact Hnew|]. left. apply Hquiet. by repeat constructor. }
  cbn [record materials].
  destruct (materials w !! Scripts.materialId) as [material|] eqn:Hmat.
  2:{ destruct (Hfinally (Ok tt) (record c0 w) [c0] eq_refl)
        as (new & Hnew & ->).
      eexists. split; [exact Hnew|]. left. apply Hquiet.
      by repeat constructor. }
  rewrite bind_unfold. unfold call at 1. rewrite instant_record.
  set (c1 := CReadFile (fileUrl material)).
  replace (S (instant w)) with (instant w + 1) by lia.
  destruct (Env.readFile env (fileUrl material) (instant w + 1))
    as [buf|e] eqn:Hread.
  2:{ destruct (Hfinally (Ok tt) (record c1 (record c0 w)) [c0; c1])
        as (new & Hnew & ->); [simpl; by rewrite <- app_assoc|].
      eexists. split; [exact Hnew|]. left. apply Hquiet.
      by repeat constructor. }
  rewrite bind_unfold. unfold call at 1. rewrite !instant_record.
  replace (S (S (instant w))) with (instant w + 2) by lia.
  destruct (Env.pdfParse env buf (instant w + 2)) as [data|e] eqn:Hparse.
  2:{ destruct (Hfinally (Ok tt) (record CPdfParse (record c1 (record c0 w)))
                  [c0; c1; CPdfParse])
        as (new & Hnew & ->); [simpl; by rewrite <- !app_assoc|].
      eexists. split; [exact Hnew|]. left. apply Hquiet.
      by repeat constructor. }
  rewrite bind_unfold.
  set (c3 := CDb (MaterialUpdate Scripts.materialId)).
  set (w3 := record CPdfParse (record c1 (record c0 w))).
  assert (calls w3 = calls w ++ [c0; c1; CPdfParse]) as Hw3
    by (unfold w3; simpl; by rewrite <- !app_assoc).
  destruct (traces_material_update (λ c, is_index_upsert c = false) env
              Scripts.materialId
              (Scripts.with_ready (Env.numpages data)) eq_refl w3)
    as (new3 & Hnew3 & Hquiet3).
  destruct (Store.material_update env Scripts.materialId _ w3)
    as [[[]|e] w4] eqn:Hupdate; cbn [fst snd] in *.
  2:{ destruct (Hfinally (Ok tt) w4 ([c0; c1; CPdfParse] ++ new3))
        as (new & Hnew & ->); [by rewrite Hnew3, Hw3, <- app_assoc|].
      eexists. split; [exact Hnew|]. left. apply Hquiet.
      apply Forall_app. split; [by repeat constructor|done]. }
  assert (new3 = [c3]) as ->.
  { revert Hupdate Hnew3. unfold Store.material_update, Store.db.
    destruct (Env.db_fault env _ _); [done|].
    destruct (materials _ !! _); [|done].
    intros [= <-]. simpl. intros Heq. by apply app_inv_head in Heq. }
  cbv zeta. destruct (negb (Env.index_configured env)).
  { destruct (Hfinally (Ok tt) w4 ([c0; c1; CPdfParse] ++ [c3]))
      as (new & Hnew & ->); [by rewrite Hnew3, Hw3, <- app_assoc|].
    eexists. split; [exact Hnew|]. left. apply Hquiet.
    by repeat constructor. }
  unfold for_index.
  set (chunks := Scripts.simpleChunk (Env.pdf_text data) 300).
  destruct (script_loop env
              (imap (λ i x, (i, x)) (take (length chunks `min` 30) chunks)) w4)
    as (loop & Hloop & Hup).
  match goal with
  | |- context [for_of ?ixs ?body w4] =>
      change (for_of ixs body w4)
        with (for_of ixs (λ ix : nat * string,
                try_catch
                  (embedding ← call (CEmbed ix.2)
                                 (Env.generateEmbedding env ix.2);
                   Store.index_upsert env
                     [Scripts.vector_of Scripts.materialId ix.2 ix.1
                        embedding];;
                   sleep 200)
                  (λ _, ret tt)) w4)
  end.
  destruct (for_of _ _ w4) as [r w5]. cbn [fst snd] in Hloop.
  assert (calls w5 = calls w ++ ([c0; c1; CPdfParse; c3] ++ loop)) as Hw5.
  { rewrite Hloop, Hnew3, Hw3, <- !app_assoc. done. }
  assert (∃ r', (let (r0, w') := match r with
                                 | Ok a => (Ok a, w5)
                                 | Throw _ => ret tt w5
                                 end in
                 match Store.disconnect env w' with
                 | (Ok _, w'') => (r0, w'')
                 | (Throw e, w'') => (Throw e, w'')
                 end)
                = match Store.disconnect env w5 with
                  | (Ok _, w2) => (r', w2)
                  | (Throw e, w2) => (Throw e, w2)
                  end) as [r' ->].
  { destruct r as [[]|e]; by eexists. }
  destruct (Hfinally r' w5 _ Hw5) as (new & Hnew & ->).
  eexists. split; [exact Hnew|]. right. exists material, buf, data.
  split; [done|]. split; [done|]. split; [done|].
  intros n batch Hn.
  apply lookup_app_Some in Hn as [Hn|[_ Hn]].
  2:{ by apply list_lookup_singleton_Some in Hn as [_ ?]. }
  change ([c0; c1; CPdfParse; c3] ++ loop)
    with ([c0; c1; CPdfParse; c3] ++ loop) in Hn.
  apply lookup_app_Some in Hn as [Hn|[Hlen Hn]].
  { by destruct n as [|[|[|[|n]]]]. }
  simpl in Hlen.
  destruct (Hup _ batch Hn)
    as (i & chunk & embedding & m & Hin & Hm & Hcall & Hemb & ->).
  apply elem_of_lookup_imap in Hin as (j & y & Heq & Hy).
  injection Heq as -> ->.
  apply lookup_take_Some in Hy as [Hy Hj].
  exists j, y, embedding, (4 + m). split; [lia|]. split; [done|].
  split; [simpl in *; lia|]. split.
  - rewrite lookup_app_l.
    + rewrite (lookup_app_r [c0; c1; CPdfParse; c3]) by (simpl; lia).
      simpl. by rewrite Nat.sub_0_r.
    + apply lookup_lt_Some in Hcall. rewrite length_app. simpl. lia.
  - replace (instant w + (4 + m)) with (instant w4 + m); [done|].
    unfold instant. rewrite Hnew3, Hw3, !length_app. simpl. lia.
Qed.

(** C3, as the code has it.

    The upload pipeline ([processDocumentAsync] through
    [upsertDocumentChunks]) either sends no record, or it asks for the
    embeddings of the chunks of the split of the extracted text, in the
    order of the split, and then sends records in the same order, in
    batches of 100, up to the first batch that the index rejects or,
    when it rejects none, all of them: the record at position [index]
    has the identifier of the document, [-chunk-]
    and [index], the embedding returned at position [index], and as
    metadata the three fields [materialId], [pageNumber] (the position
    halved) and [chapterNumber] (always 1), without the text of the
    chunk.

    Each upsert request of the vectorisation script carries one record,
    for one of the first 30 chunks of the text, right after the request
    for the embedding of that chunk: the identifier has the same form,
    and the metadata have a fourth field, [text], with the first 500
    characters of the chunk. *)
Theorem upserted_records_follow_the_chunks env materialId filePath fileType w :
  (∃ new,
     calls (processDocumentAsync env materialId filePath fileType w).2
     = calls w ++ new
     ∧ (upserted new = []
        ∨ ∃ processed chunks n embeddings k,
            (FileProcessor.processDocument env filePath fileType w).1
            = Ok processed
            ∧ Env.splitTextRecursive env (FileProcessor.text processed)
                1000 300 = Ok chunks
            ∧ new !! n = Some (CEmbedBatch chunks)
            ∧ Env.generateLocalEmbeddingsBatch env chunks (instant w + n)
              = Ok embeddings
            ∧ upserted new
              = take (k * 100)
                  (imap (λ index _,
                     {| v_id := materialId ++ "-chunk-" ++ pretty index;
                        values := embeddings !! index;
                        metadata :=
                          [("materialId", MStr materialId);
                           ("pageNumber", MNum (Z.of_nat (index / 2)));
                           ("chapterNumber", MNum 1)] |}) chunks)
            ∧ (∀ i, S i < k →
                 Env.index_fault env (instant w + n + 1 + i) = None)
            ∧ (length chunks ≤ k * 100
               ∨ ∃ e, 1 ≤ k
                      ∧ Env.index_fault env (instant w + n + k) = Some e)))
  ∧ (∃ new,
       calls (Scripts.main env w).2 = calls w ++ new
       ∧ (upserted new = []
          ∨ ∃ material buf data,
              materials w !! Scripts.materialId = Some material
              ∧ Env.readFile env (fileUrl material) (instant w + 1) = Ok buf
              ∧ Env.pdfParse env buf (instant w + 2) = Ok data
              ∧ ∀ n batch, new !! n = Some (CIndexUpsert batch) →
                  ∃ i chunk embedding m,
                    i < 30
                    ∧ Scripts.simpleChunk (Env.pdf_text data) 300 !! i
                      = Some chunk
                    ∧ n = S m
                    ∧ new !! m = Some (CEmbed chunk)
                    ∧ Env.generateEmbedding env chunk (instant w + m)
                      = Ok embedding
                    ∧ batch
                      = [{| v_id := Scripts.materialId ++ "-chunk-"
                                    ++ pretty i;
                            values := Some embedding;
                            metadata :=
                              [("materialId", MStr Scripts.materialId);
                               ("text", MStr (Js.substring0 500 chunk));
                               ("pageNumber", MNum (Z.of_nat (i / 3) + 1));
                               ("chapterNumber", MNum 0)] |}])).
Proof.
  split; [|exact (script_log env w)].
  set (NU := λ c, is_index_upsert c = false).
  assert (∀ c, is_index_upsert c = false → NU c) as Hother by done.
  pose proof (traces_processDocument NU Hother env filePath fileType w)
    as (new1 & Hnew1 & Hquiet1).
  unfold processDocumentAsync.
  set (handler := λ error : Thrown,
         Store.material_update env materialId (with_status ERROR)).
  assert (∀ e, traces NU (handler e)) as Hhandler
    by (intros e; by apply traces_material_update).
  unfold try_catch at 1. rewrite bind_unfold.
  destruct (FileProcessor.processDocument env filePath fileType w)
    as [[processed|e] w1]; cbn [fst snd] in *.
  2:{ destruct (Hhandler e w1) as (newh & Hnewh & Hquieth).
      exists (new1 ++ newh). split; [by rewrite Hnewh, Hnew1, app_assoc|].
      left. apply upserted_no_upsert, Forall_app. done. }
  set (text := FileProcessor.text processed).
  rewrite bind_after_four. rewrite bind_unfold.
  match goal with
  | |- context [(?m1;; ?m2;; ?m3;; ?m4) w1] =>
      assert (traces NU (m1;; m2;; m3;; m4)) as Hbefore;
      [|destruct (Hbefore w1) as (new2 & Hnew2 & Hquiet2);
        destruct ((m1;; m2;; m3;; m4) w1) as [[[]|e] w2]]
  end; cbn [fst snd] in *.
  { apply traces_bind; [by apply traces_material_update|]. intros _.
    apply traces_bind; [by apply traces_chapter_deleteMany|]. intros _.
    apply traces_bind; [by apply traces_concept_deleteMany|]. intros _.
    apply traces_for_index. intros i ch _. by apply traces_processChapter. }
  2:{ destruct (Hhandler e w2) as (newh & Hnewh & Hquieth).
      exists (new1 ++ new2 ++ newh).
      split; [by rewrite Hnewh, Hnew2, Hnew1, <- !app_assoc|].
      left. apply upserted_no_upsert. by repeat (apply Forall_app; split). }
  rewrite bind_unfold.
  destruct (createEmbeddings_log env materialId text w2)
    as (new3 & Hnew3 & Hup).
  destruct (returns_createEmbeddings env materialId text w2) as [[] Hret].
  destruct (createEmbeddings env materialId text w2) as [r w3].
  cbn [fst snd] in *. subst r.
  match goal with
  | |- context [match ?after w3 with _ => _ end] =>
      assert (traces NU (try_catch after handler)) as Hafter;
      [|destruct (Hafter w3) as (new4 & Hnew4 & Hquiet4);
        change (match after w3 with
                | (Ok a, w') => (Ok a, w')
                | (Throw e, w') => handler e w'
                end) with (try_catch after handler w3)]
  end.
  { apply traces_try_catch; [|done].
    apply traces_bind; [by apply traces_generateWholeSummary|]. intros ws.
    by apply traces_material_update. }
  exists ((new1 ++ new2) ++ new3 ++ new4).
  split; [by rewrite Hnew4, Hnew3, Hnew2, Hnew1, <- !app_assoc|].
  assert (upserted ((new1 ++ new2) ++ new3 ++ new4) = upserted new3) as Hsame.
  { rewrite !upserted_app, (upserted_no_upsert new1),
      (upserted_no_upsert new2), (upserted_no_upsert new4) by done.
    simpl. by rewrite app_nil_r. }
  rewrite Hsame.
  destruct Hup as [Hup|(chunks & n & embeddings & k & Hsplit & Hn & Hemb & Hup
                        & Haccepted & Hat)];
    [by left|].
  assert (instant w + (length (new1 ++ new2) + n) = instant w2 + n) as Hshift.
  { unfold instant. rewrite Hnew2, Hnew1, !length_app. lia. }
  right. exists processed, chunks, (length (new1 ++ new2) + n), embeddings, k.
  rewrite Hshift. split_and!; try done.
  rewrite lookup_app_r, Nat.add_comm, Nat.add_sub by lia.
  by apply lookup_app_l_Some.
Qed.

(** The vectorisation script upserts records whose metadata carry the
    first 500 characters of the chunk in a fourth field, [text]. *)
Lemma script_records_carry_chunk_text :
  ((λ v, (metadata v).*1) <$> upserted
     (calls (Scripts.main Examples.env_ok
               (Examples.world Scripts.materialId READY)).2))
  = [["materialId"; "text"; "pageNumber"; "chapterNumber"]]
  ∧ (v_id <$> upserted
       (calls (Scripts.main Examples.env_ok
                 (Examples.world Scripts.materialId READY)).2))
    = ["cmhpytgw60001scknysxye92f-chunk-0"].
Proof. split; vm_compute; reflexivity. Qed.

End VectorRecords.

Section RetryFacts.
Import Io Retry.
Context {T : Type}.

Lemma last_error_snoc lastError errs e :
  last_error lastError (errs ++ [e])
  = if instanceofError e then Some e else last_error lastError errs.
Proof. unfold last_error. by rewrite fold_left_app. Qed.

Lemma last_error_filter errs :
  last_error None errs = last (List.filter instanceofError errs).
Proof.
  induction errs as [|e errs IH] using rev_ind; [done|].
  rewrite last_error_snoc, List.filter_app. simpl.
  destruct (instanceofError e).
  - by rewrite last_snoc.
  - by rewrite app_nil_r.
Qed.

Lemma failed_attempts_S from k :
  failed_attempts from (S k)
  = COperation :: CSleep (delay (Z.of_nat from)) :: failed_attempts (S from) k.
Proof. done. Qed.

Lemma retry_loop_step (outcome : nat → Res T) maxRetries attempt todo
    lastError w :
  retry_loop (call COperation outcome) maxRetries (attempt :: todo) lastError w
  = match outcome (instant w) with
    | Ok r => (Ok r, record COperation w)
    | Throw e =>
        let lastError := if instanceofError e then Some e else lastError in
        if negb (retryable e) || (attempt =? maxRetries)%Z
        then (Throw (default (Error "Unknown database error") lastError),
              record COperation w)
        else retry_loop (call COperation outcome) maxRetries todo lastError
               (record (CSleep (delay attempt)) (record COperation w))
    end.
Proof.
  cbn [retry_loop]. unfold try_catch, call at 1.
  destruct (outcome (instant w)) as [r|e]; [done|]. cbv zeta.
  by destruct (negb (retryable e) || (attempt =? maxRetries)%Z).
Qed.

Lemma retry_loop_spec (outcome : nat → Res T) (maxRetries : Z) n :
  ∀ from lastError w,
    Z.of_nat (from + n) = (maxRetries + 1)%Z → 1 ≤ n →
    let final :=
      retry_loop (call COperation outcome) maxRetries
        (Z.of_nat <$> seq from n) lastError w in
    ∃ errs : list Thrown,
      length errs < n
      ∧ calls final.2
        = calls w ++ failed_attempts from (length errs) ++ [COperation]
      ∧ (∀ j e, errs !! j = Some e →
           outcome (instant w + 2 * j) = Throw e ∧ retryable e = true)
      ∧ match outcome (instant w + 2 * length errs) with
        | Ok r => final.1 = Ok r
        | Throw e =>
            (retryable e = false ∨ Z.of_nat (from + length errs) = maxRetries)
            ∧ final.1
              = Throw (default (Error "Unknown database error")
                         (last_error lastError (errs ++ [e])))
        end.
Proof.
  induction n as [|n IH]; intros from lastError w Hn Hpos; [lia|].
  cbn [seq fmap list_fmap]. rewrite retry_loop_step. cbv zeta.
  destruct (outcome (instant w)) as [r|e] eqn:Hout.
  { exists []. cbn [length]. rewrite Nat.mul_0_r, Nat.add_0_r, Hout.
    split; [lia|]. split; [done|]. split; [|done]. by intros j e' Hj. }
  destruct (negb (retryable e) || (Z.of_nat from =? maxRetries)%Z) eqn:Hstop.
  { exists []. cbn [length]. rewrite Nat.mul_0_r, Nat.add_0_r, Hout.
    split; [lia|]. split; [done|]. split; [by intros j e' Hj|].
    split; [|done].
    apply orb_true_iff in Hstop as [Hr|Ha].
    - left. by apply negb_true_iff.
    - right. apply Z.eqb_eq in Ha. lia. }
  apply orb_false_iff in Hstop as [Hr Ha].
  apply negb_false_iff in Hr. apply Z.eqb_neq in Ha.
  set (lastError' := if instanceofError e then Some e else lastError).
  set (w' := record (CSleep (delay (Z.of_nat from))) (record COperation w)).
  assert (instant w' = instant w + 2) as Hw'.
  { unfold w'. rewrite !instant_record. lia. }
  destruct (IH (S from) lastError' w') as (errs & Hlen & Hcalls & Herrs & Hend);
    [lia|lia|].
  exists (e :: errs). cbn [length]. split; [lia|]. split.
  { rewrite Hcalls, failed_attempts_S. unfold w'. simpl.
    by rewrite <- !app_assoc. }
  split.
  { intros [|j] e' Hj.
    - injection Hj as <-. by rewrite Nat.mul_0_r, Nat.add_0_r.
    - replace (instant w + 2 * S j) with (instant w' + 2 * j) by lia.
      by apply Herrs. }
  replace (instant w + 2 * S (length errs))
    with (instant w' + 2 * length errs) by lia.
  destruct (outcome (instant w' + 2 * length errs)) as [r|e']; [done|].
  destruct Hend as [Hwhy Hres]. split.
  - destruct Hwhy as [?|?]; [by left|right; lia].
  - rewrite Hres. done.
Qed.


(** C9, as the code has it.  The operation is invoked one attempt after
    the other, at most [maxRetries + 1] times; every attempt but the
    last threw a retryable value and is followed by a pause of
    [min(1000 * 2^attempt, 5000)] milliseconds; the last attempt either
    returns, and its result is the result, or throws a value that is
    not retryable or is the attempt [maxRetries].  What is thrown then
    is the last caught value that is an [Error], so the value of the
    last attempt itself when it is an [Error], and a new
    [Error('Unknown database error')] when no [Error] was caught. *)
Theorem retry_policy (outcome : nat → Res T) (maxRetries : Z) w :
  (0 ≤ maxRetries)%Z →
  let final := executeWithRetry (call COperation outcome) maxRetries w in
  ∃ errs : list Thrown,
    (Z.of_nat (length errs) ≤ maxRetries)%Z
    ∧ calls final.2
      = calls w ++ failed_attempts 0 (length errs) ++ [COperation]
    ∧ (∀ j e, errs !! j = Some e →
         outcome (instant w + 2 * j) = Throw e ∧ retryable e = true)
    ∧ match outcome (instant w + 2 * length errs) with
      | Ok r => final.1 = Ok r
      | Throw e =>
          (retryable e = false ∨ Z.of_nat (length errs) = maxRetries)
          ∧ final.1
            = Throw (default (Error "Unknown database error")
                       (last (List.filter instanceofError (errs ++ [e]))))
          ∧ (instanceofError e = true → final.1 = Throw e)
      end.
Proof.
  intros Hmax final. unfold final, executeWithRetry, attempts.
  destruct (retry_loop_spec outcome maxRetries (Z.to_nat (maxRetries + 1))
              0 None w) as (errs & Hlen & Hcalls & Herrs & Hend); [lia..|].
  exists errs. split; [lia|]. split; [done|]. split; [done|].
  destruct (outcome (instant w + 2 * length errs)) as [r|e]; [done|].
  destruct Hend as [Hwhy Hres]. rewrite last_error_filter in Hres.
  split; [done|]. split; [done|]. intros He. rewrite Hres.
  by rewrite List.filter_app; simpl; rewrite He, last_snoc.
Qed.

End RetryFacts.

Lemma retry_policy_witness :
  let outcome (n : nat) : Io.Res nat :=
    if (n <? 4)%nat then Io.Throw Examples.unreachable else Io.Ok n in
  let final :=
    Retry.executeWithRetry (Io.call Io.COperation outcome) 2
      (Examples.world "m1" Io.READY) in
  final.1 = Io.Ok 4
  ∧ Io.calls final.2
    = [Io.COperation; Io.CSleep 1000; Io.COperation; Io.CSleep 2000;
       Io.COperation].
Proof.
  intros outcome final.
  destruct (retry_policy outcome 2 (Examples.world "m1" Io.READY))
    as (errs & Hlen & Hcalls & Herrs & Hend); [lia|].
  fold final in Hcalls, Hend.
  assert (length errs = 2) as Hk.
  { destruct errs as [|e0 [|e1 [|e2 errs]]]; simpl in *; [| |done|lia].
    - by destruct Hend as [[[=]|[=]] _].
    - by destruct Hend as [[[=]|[=]] _]. }
  rewrite Hk in Hcalls, Hend. split; [exact Hend|exact Hcalls].
Defined.

(** The operation keeps throwing a value that is not an [Error]: when
    the retries are exhausted, what is thrown is a new [Error], not the
    last value observed; and after an [Error] followed by such a value,
    what is thrown is the [Error] of the first attempt. *)
Lemma retry_loses_the_last_thrown_value :
  let w := Examples.world "m1" Io.READY in
  (Retry.executeWithRetry
     (Io.call Io.COperation (λ _, Io.Throw (A:=nat) Examples.refused)) 1 w).1
  = Io.Throw (Io.Error "Unknown database error")
  ∧ (Retry.executeWithRetry
       (Io.call Io.COperation
          (λ n, Io.Throw (A:=nat)
                  (if (n =? 0)%nat then Examples.unreachable
                   else Examples.refused))) 1 w).1
    = Io.Throw Examples.unreachable.
Proof. split; vm_compute; reflexivity. Qed.

Section ChapterDetection.
Import FileProcessor.

Lemma forEach_body_unfold text matches seen chs i m :
  forEach_body text matches (seen, chs) (i, m)
  = if bool_decide (parseInt (group1 m) ∈ seen) then (seen, chs)
    else ({[parseInt (group1 m)]} ∪ seen,
          chs ++ [chapter_of_match text matches i m]).
Proof. done. Qed.

(** The state of the loop after the first [n] matches. *)
Lemma forEach_prefix text matches n :
  n ≤ length matches →
  let st := fold_left (forEach_body text matches)
              (take n (imap (λ i m, (i, m)) matches)) (∅, []) in
  (∀ z, z ∈ st.1 ↔
        ∃ j m, j < n ∧ matches !! j = Some m ∧ parseInt (group1 m) = z)
  ∧ (∀ z, z ∈ st.1 ↔ z ∈ number <$> st.2)
  ∧ NoDup (number <$> st.2)
  ∧ ∀ c, c ∈ st.2 →
      ∃ i m, i < n ∧ matches !! i = Some m
             ∧ c = chapter_of_match text matches i m
             ∧ ∀ j m', j < i → matches !! j = Some m' →
                       parseInt (group1 m') ≠ number c.
Proof.
  induction n as [|n IH]; intros Hn st.
  { unfold st. simpl. split_and!.
    - intros z. split; [set_solver|]. intros (j & m & Hj & _). lia.
    - intros z. set_solver.
    - constructor.
    - intros c Hc. by apply elem_of_nil in Hc. }
  destruct (lookup_lt_is_Some_2 matches n) as [m Hm]; [lia|].
  assert (imap (λ i m, (i, m)) matches !! n = Some (n, m)) as Him.
  { by rewrite list_lookup_imap, Hm. }
  unfold st. rewrite (take_S_r _ _ _ Him), fold_left_app. cbn [fold_left].
  pose proof (IH ltac:(lia)) as IH'. cbv zeta in IH'.
  destruct (fold_left _ (take n _) _) as [seen chs].
  destruct IH' as (Hseen & Hnum & Hnd & Hchs). cbn [fst snd] in *.
  rewrite forEach_body_unfold.
  destruct (decide (parseInt (group1 m) ∈ seen)) as [Hin|Hnin].
  - rewrite bool_decide_eq_true_2 by done. simpl. split_and!; try done.
    + intros z. rewrite Hseen. split.
      * intros (j & m' & Hj & Hm' & Hz). exists j, m'. split; [lia|done].
      * intros (j & m' & Hj & Hm' & Hz).
        destruct (decide (j = n)) as [->|Hne].
        -- rewrite Hm in Hm'. injection Hm' as <-. subst z.
           by apply Hseen.
        -- exists j, m'. split; [lia|done].
    + intros c Hc. destruct (Hchs c Hc) as (i & m' & Hi & Hrest).
      exists i, m'. split; [lia|done].
  - rewrite bool_decide_eq_false_2 by done. simpl. split_and!.
    + intros z. rewrite elem_of_union, elem_of_singleton, Hseen. split.
      * intros [->|(j & m' & Hj & Hm' & Hz)].
        -- exists n, m. split; [lia|done].
        -- exists j, m'. split; [lia|done].
      * intros (j & m' & Hj & Hm' & Hz).
        destruct (decide (j = n)) as [->|Hne].
        -- rewrite Hm in Hm'. injection Hm' as <-. by left.
        -- right. exists j, m'. split; [lia|done].
    + intros z. rewrite fmap_app, elem_of_app, elem_of_union,
        elem_of_singleton, Hnum. simpl. rewrite list_elem_of_singleton. tauto.
    + rewrite fmap_app. apply NoDup_app. split; [done|]. split.
      * intros z Hz. simpl. rewrite list_elem_of_singleton. intros ->.
        apply Hnin. by apply Hnum.
      * simpl. apply NoDup_singleton.
    + intros c Hc. apply elem_of_app in Hc as [Hc|Hc].
      * destruct (Hchs c Hc) as (i & m' & Hi & Hrest).
        exists i, m'. split; [lia|done].
      * apply list_elem_of_singleton in Hc as ->.
        exists n, m. split; [lia|]. split; [done|]. split; [done|].
        intros j m' Hj Hm' Heq. apply Hnin. apply Hseen.
        exists j, m'. done.
Qed.

Lemma pattern_loop_first_matches patterns text st :
  pattern_loop patterns text st
  = if (0 <? length (first_matches patterns text))%nat
    then forEach_matches text (first_matches patterns text) st
    else st.
Proof.
  induction patterns as [|p ps IH]; [done|]. simpl.
  destruct (0 <? length (matchAll p text))%nat eqn:Hp; [by rewrite Hp|done].
Qed.

Lemma first_matches_nil patterns text :
  (∀ pattern, pattern ∈ patterns → matchAll pattern text = []) →
  first_matches patterns text = [].
Proof.
  induction patterns as [|p ps IH]; intros Hall; [done|]. simpl.
  rewrite (Hall p) by (by left). simpl. apply IH.
  intros q Hq. apply Hall. by right.
Qed.


(** The chapters collected from a non-empty list of matches. *)
Lemma forEach_matches_spec text matches :
  matches ≠ [] →
  let chs := (forEach_matches text matches (∅, [])).2 in
  chs ≠ []
  ∧ NoDup (number <$> chs)
  ∧ (∀ c, c ∈ chs →
       ∃ i m, matches !! i = Some m
              ∧ c = chapter_of_match text matches i m
              ∧ ∀ j m', j < i → matches !! j = Some m' →
                        parseInt (group1 m') ≠ number c)
  ∧ (∀ m, m ∈ matches → parseInt (group1 m) ∈ number <$> chs).
Proof.
  intros Hne chs.
  pose proof (forEach_prefix text matches (length matches) ltac:(lia)) as H.
  cbv zeta in H. rewrite take_ge in H by (by rewrite length_imap).
  fold (forEach_matches text matches (∅, [])) in H.
  destruct H as (Hseen & Hnum & Hnd & Hchs). fold chs in Hnum, Hnd, Hchs.
  assert (∀ m, m ∈ matches → parseInt (group1 m) ∈ number <$> chs) as Hall.
  { intros m Hm. apply Hnum, Hseen.
    apply list_elem_of_lookup in Hm as [j Hj]. exists j, m.
    split; [by eapply lookup_lt_Some|done]. }
  split_and!; [|done| |done].
  - destruct matches as [|m ms]; [done|].
    specialize (Hall m ltac:(by left)). intros Hnil. rewrite Hnil in Hall.
    by apply elem_of_nil in Hall.
  - intros c Hc. destruct (Hchs c Hc) as (i & m & _ & Hrest). by exists i, m.
Qed.

(** C8.  When none of the chapter patterns matches, the result is the
    single chapter number 1, titled Full Document, from index 0 to the
    length of the text.  Otherwise the result is made from the matches
    of the first pattern that has some: the numbers of the result are
    pairwise distinct, every chapter of the result comes from a match
    before which no match has the same number (its first occurrence),
    and the number of every match is the number of a chapter of the
    result. *)
Theorem detectChapters_fallback_and_first_occurrence text :
  let matches := first_matches chapterPatterns text in
  let result := detectChapters text in
  ((∀ pattern, pattern ∈ chapterPatterns → matchAll pattern text = []) →
   result = [{| number := 1; title := "Full Document"; startIndex := 0;
                endIndex := String.length text |}])
  ∧ (matches ≠ [] →
     NoDup (number <$> result)
     ∧ (∀ c, c ∈ result →
          ∃ i m, matches !! i = Some m
                 ∧ number c = parseInt (group1 m)
                 ∧ title c = Js.trim (group2 m)
                 ∧ startIndex c = index m
                 ∧ ∀ j m', j < i → matches !! j = Some m' →
                           parseInt (group1 m') ≠ number c)
     ∧ (∀ m, m ∈ matches → parseInt (group1 m) ∈ number <$> result)).
Proof.
  intros matches result. unfold result, detectChapters.
  rewrite pattern_loop_first_matches. fold matches. split.
  - intros Hall. unfold matches. by rewrite first_matches_nil.
  - intros Hne. destruct matches as [|m0 ms] eqn:Hms; [done|].
    cbn [length Nat.ltb Nat.leb]. 
    destruct (forEach_matches_spec text (m0 :: ms) Hne)
      as (Hnil & Hnd & Hchs & Hall).
    destruct ((forEach_matches text (m0 :: ms) (∅, [])).2) as [|c0 chs] eqn:Hc;
      [done|].
    cbn [length Nat.eqb]. split_and!; [done| |done].
    intros c Hc'. destruct (Hchs c Hc') as (i & m & Hm & -> & Hfirst).
    by exists i, m.
Qed.

Lemma detectChapters_fallback_and_first_occurrence_witness :
  (number <$> detectChapters Examples.book) = [1%Z; 2%Z]
  ∧ NoDup (number <$> detectChapters Examples.book)
  ∧ detectChapters "No headings here."
    = [{| number := 1; title := "Full Document"; startIndex := 0;
          endIndex := 17 |}].
Proof.
  destruct (detectChapters_fallback_and_first_occurrence Examples.book)
    as [_ Hdup].
  destruct (detectChapters_fallback_and_first_occurrence "No headings here.")
    as [Hnone _].
  split; [reflexivity|]. split.
  - apply Hdup. vm_compute. discriminate.
  - apply Hnone. intros pattern Hp.
    repeat (apply elem_of_cons in Hp as [->|Hp]); try reflexivity.
    by apply elem_of_nil in Hp.
Defined.

End ChapterDetection.

(** ** More on the search cache *)

Section JsStrings.







End JsStrings.

Section CacheKeys.
Context {R : Type}.
Import SearchCache.
Implicit Types (c : t R).

Lemma get_after_set_same_key c now now' q q' m m' rs :
  getCacheKey q' m' = getCacheKey q m →
  (now' - now ≤ ttl c)%Z →
  (get now' q' m' (set now q m rs c)).1 = Some rs.
Proof.
  intros Hkey Hfresh. unfold get. rewrite Hkey. unfold set at 1.
  cbn [cache with_cache]. rewrite JsMap_get_set_eq. cbn [timestamp results].
  cbn [ttl set with_cache].
  destruct (Z.gtb_spec (now' - now) (ttl c)) as [?|?]; [lia|done].
Qed.


End CacheKeys.


Section CacheOverwrite.
Context {R : Type}.
Import SearchCache.
Implicit Types (c : t R).

Lemma JsMap_size_set_present {V} k (v : V) (m : JsMap.t V) :
  k ∈ JsMap.keys m → length (JsMap.set k v m) = length m.
Proof.
  intros Hk. pose proof (JsMap_keys_set_present k v m Hk) as H.
  apply (f_equal length) in H. unfold JsMap.keys in H.
  by rewrite !length_fmap in H.
Qed.

Lemma JsMap_size_set_fresh {V} k (v : V) (m : JsMap.t V) :
  k ∉ JsMap.keys m → length (JsMap.set k v m) = S (length m).
Proof.
  intros Hk. pose proof (JsMap_keys_set_fresh k v m Hk) as H.
  apply (f_equal length) in H. unfold JsMap.keys in H.
  rewrite length_app, !length_fmap in H. simpl in H. lia.
Qed.

(** A [set] for a key that the cache holds, on a cache that is full:
    the oldest entry is removed all the same.  When the key is another
    one, the cache is left with one entry less than its capacity; when
    the key is the oldest one itself, its entry moves to the newest
    place. *)
Theorem set_of_present_key_evicts_when_full c now q m rs oldest e rest :
  cache_wf c →
  JsMap.size (cache c) = maxSize c →
  cache c = (oldest, e) :: rest →
  let c' := set now q m rs c in
  (getCacheKey q m ∈ JsMap.keys rest →
     keys c' = JsMap.keys rest
     ∧ JsMap.size (cache c') = (maxSize c - 1)%Z
     ∧ JsMap.get oldest (cache c') = None)
  ∧ (getCacheKey q m = oldest →
     keys c' = JsMap.keys rest ++ [oldest]
     ∧ JsMap.size (cache c') = maxSize c).
Proof.
  intros [Hnd Hsz] Hfull Hc c'.
  assert (cache c' = JsMap.set (getCacheKey q m)
                       {| results := rs; timestamp := now |} rest) as Hc'.
  { unfold c'. rewrite set_unfold by done. unfold after_eviction.
    rewrite Hfull, Hc. by rewrite (proj2 (Z.geb_le _ _)) by lia. }
  unfold keys in *. rewrite Hc in Hnd. cbn in Hnd.
  apply NoDup_cons in Hnd as [Hold Hnd'].
  assert (Z.of_nat (length rest) = (maxSize c - 1)%Z) as Hrest.
  { unfold JsMap.size in Hfull. rewrite Hc in Hfull. simpl in Hfull. lia. }
  split.
  - intros Hin. rewrite Hc'. split_and!.
    + by apply JsMap_keys_set_present.
    + unfold JsMap.size. by rewrite JsMap_size_set_present.
    + apply JsMap_get_None. by rewrite JsMap_keys_set_present.
  - intros Hkey. rewrite Hc', Hkey. split.
    + by apply JsMap_keys_set_fresh.
    + unfold JsMap.size. rewrite JsMap_size_set_fresh by done. lia.
Qed.

(** A [set] for a key that the cache holds, on a cache that is not
    full, replaces the entry where it is: the order of the keys and the
    size stay, and the new results are returned for [ttl] milliseconds
    from the new time on. *)
Theorem set_of_present_key_replaces_in_place c now now' q m rs :
  cache_wf c →
  (JsMap.size (cache c) < maxSize c)%Z →
  getCacheKey q m ∈ keys c →
  (now' - now ≤ ttl c)%Z →
  let c' := set now q m rs c in
  keys c' = keys c
  ∧ JsMap.size (cache c') = JsMap.size (cache c)
  ∧ (get now' q m c').1 = Some rs.
Proof.
  intros [Hnd Hsz] Hroom Hin Hfresh c'.
  assert (cache c' = JsMap.set (getCacheKey q m)
                       {| results := rs; timestamp := now |} (cache c)) as Hc'.
  { unfold c'. rewrite set_unfold by done. unfold after_eviction.
    by rewrite Z.geb_leb, (proj2 (Z.leb_gt _ _)) by lia. }
  split_and!.
  - unfold keys. rewrite Hc'. by apply JsMap_keys_set_present.
  - unfold JsMap.size. rewrite Hc'. by rewrite JsMap_size_set_present.
  - by apply get_after_set_same_key.
Qed.

(** A [get] that hits changes nothing: neither the time at which the
    entry expires nor its place in the order of eviction.  So an entry
    that was just read still expires [ttl] milliseconds after it was
    stored, and when it is the oldest of a full cache the next [set] of
    another key removes it. *)
Theorem reads_do_not_refresh c now1 q m e :
  cache_wf c →
  JsMap.get (getCacheKey q m) (cache c) = Some e →
  (now1 - timestamp e ≤ ttl c)%Z →
  get now1 q m c = (Some (results e), c)
  ∧ (∀ now2, (now2 - timestamp e > ttl c)%Z →
       (get now2 q m (get now1 q m c).2).1 = None)
  ∧ (∀ rest now2 q2 m2 rs2,
       cache c = (getCacheKey q m, e) :: rest →
       (JsMap.size (cache c) >= maxSize c)%Z →
       getCacheKey q2 m2 ≠ getCacheKey q m →
       JsMap.get (getCacheKey q m)
         (cache (set now2 q2 m2 rs2 (get now1 q m c).2)) = None).
Proof.
  intros [Hnd Hsz] He Hfresh.
  assert (get now1 q m c = (Some (results e), c)) as Hhit.
  { unfold get. rewrite He.
    by destruct (Z.gtb_spec (now1 - timestamp e) (ttl c)) as [?|?]; [lia|]. }
  rewrite Hhit. cbn [snd]. split; [done|]. split.
  - intros now2 Hlate. unfold get. rewrite He.
    by destruct (Z.gtb_spec (now2 - timestamp e) (ttl c)) as [?|?]; [|lia].
  - intros rest now2 q2 m2 rs2 Hc Hfull Hne.
    rewrite set_unfold by done. unfold after_eviction.
    rewrite (proj2 (Z.geb_le _ _)) by lia. rewrite Hc. cbn [tail].
    unfold keys in Hnd. rewrite Hc in Hnd. cbn in Hnd.
    apply NoDup_cons in Hnd as [Hold _].
    apply JsMap_get_None.
    destruct (decide (getCacheKey q2 m2 ∈ JsMap.keys rest)) as [Hin|Hnin].
    + by rewrite JsMap_keys_set_present.
    + rewrite JsMap_keys_set_fresh by done. rewrite elem_of_app.
      intros [?|Heq%list_elem_of_singleton]; [done|]. by apply Hne.
Qed.

End CacheOverwrite.

Lemma set_of_present_key_evicts_when_full_witness :
  let c :=
    SearchCache.run
      [SearchCache.OpSet 10 "What is DNA?" "m1" [1%nat];
       SearchCache.OpSet 20 "What is RNA?" "m1" [2%nat]]
      (SearchCache.constructor 2 5) in
  SearchCache.keys (SearchCache.set 30 "what is rna?" "m1" [3%nat] c)
  = ["m1:what is rna?"].
Proof.
  intros c.
  refine (proj1 (proj1 (set_of_present_key_evicts_when_full (R:=nat)
            c 30 "what is rna?" "m1" [3%nat] "m1:what is dna?"
            {| SearchCache.results := [1%nat]; SearchCache.timestamp := 10 |}
            [("m1:what is rna?",
              {| SearchCache.results := [2%nat];
                 SearchCache.timestamp := 20 |})] _ _ _) _)).
  - split; [apply (bool_decide_unpack _); by vm_compute|vm_compute; discriminate].
  - reflexivity.
  - reflexivity.
  - apply (bool_decide_unpack _). by vm_compute.
Defined.

Lemma set_of_present_key_replaces_in_place_witness :
  let c :=
    SearchCache.run
      [SearchCache.OpSet 10 "What is DNA?" "m1" [1%nat];
       SearchCache.OpSet 20 "What is RNA?" "m1" [2%nat]]
      SearchCache.searchCache in
  SearchCache.keys (SearchCache.set 500000 "what is dna?" "m1" [3%nat] c)
  = ["m1:what is dna?"; "m1:what is rna?"]
  ∧ (SearchCache.get 800000 "what is dna?" "m1"
       (SearchCache.set 500000 "what is dna?" "m1" [3%nat] c)).1
    = Some [3%nat].
Proof.
  intros c.
  destruct (set_of_present_key_replaces_in_place (R:=nat) c 500000 800000
              "what is dna?" "m1" [3%nat]) as (Hkeys & _ & Hget).
  - split; [apply (bool_decide_unpack _); by vm_compute|vm_compute; discriminate].
  - reflexivity.
  - apply (bool_decide_unpack _). by vm_compute.
  - vm_compute. discriminate.
  - split; [exact Hkeys|exact Hget].
Defined.

Lemma reads_do_not_refresh_witness :
  let c :=
    SearchCache.set 0 "What is DNA?" "m1" [1%nat] (SearchCache.constructor 1 5) in
  SearchCache.get 1000 "What is DNA?" "m1" c = (Some [1%nat], c)
  ∧ (SearchCache.get 300001 "What is DNA?" "m1"
       (SearchCache.get 300000 "What is DNA?" "m1" c).2).1 = None.
Proof.
  intros c.
  destruct (reads_do_not_refresh (R:=nat) c 1000 "What is DNA?" "m1"
              {| SearchCache.results := [1%nat]; SearchCache.timestamp := 0 |})
    as (Hhit & _ & _).
  - split; [apply (bool_decide_unpack _); by vm_compute|vm_compute; discriminate].
  - reflexivity.
  - vm_compute. discriminate.
  - destruct (reads_do_not_refresh (R:=nat) c 300000 "What is DNA?" "m1"
                {| SearchCache.results := [1%nat]; SearchCache.timestamp := 0 |})
      as (_ & Hlate & _).
    + split; [apply (bool_decide_unpack _); by vm_compute|vm_compute; discriminate].
    + reflexivity.
    + vm_compute. discriminate.
    + split; [exact Hhit|]. apply Hlate. reflexivity.
Defined.

(** ** More on the retry policy *)

Section Backoff.
Import Io Retry.

Lemma delay_bounds attempt :
  (0 ≤ attempt)%Z → (1000 ≤ delay attempt ≤ 5000)%Z.
Proof.
  intros Hpos. unfold delay.
  assert (1 ≤ 2 ^ attempt)%Z by (apply (Z.pow_le_mono_r 2 0 attempt); lia).
  lia.
Qed.

Lemma delay_saturates attempt : (3 ≤ attempt)%Z → delay attempt = 5000%Z.
Proof.
  intros H3. unfold delay.
  assert (2 ^ 3 ≤ 2 ^ attempt)%Z by (apply Z.pow_le_mono_r; lia).
  change (2 ^ 3)%Z with 8%Z in *. lia.
Qed.

Lemma delay_mono a b : (0 ≤ a ≤ b)%Z → (delay a ≤ delay b)%Z.
Proof.
  intros Hab. unfold delay.
  assert (2 ^ a ≤ 2 ^ b)%Z by (apply Z.pow_le_mono_r; lia). lia.
Qed.

Lemma slept_app l1 l2 : slept (l1 ++ l2) = (slept l1 + slept l2)%Z.
Proof.
  unfold slept. induction l1 as [|c l1 IH]; [done|]. simpl.
  rewrite IH. destruct c; lia.
Qed.

Lemma slept_failed_attempts from k :
  (0 ≤ slept (failed_attempts from k) ≤ 5000 * Z.of_nat k)%Z
  ∧ Forall (λ c, ∀ ms, c = CSleep ms → (1000 ≤ ms ≤ 5000)%Z)
      (failed_attempts from k).
Proof.
  revert from. induction k as [|k IH]; intros from.
  { split; [done|constructor]. }
  rewrite failed_attempts_S. destruct (IH (S from)) as [Hs Hall].
  pose proof (delay_bounds (Z.of_nat from) ltac:(lia)) as Hd. split.
  - change (slept (COperation :: CSleep ?d :: ?l)) with (d + slept l)%Z. lia.
  - constructor; [by intros ms [=]|]. constructor; [|done].
    by intros ms [= <-].
Qed.

Lemma pauses_app l1 l2 : pauses (l1 ++ l2) = pauses l1 ++ pauses l2.
Proof. unfold pauses. apply omap_app. Qed.

Lemma pauses_failed_attempts from k :
  pauses (failed_attempts from k) = (λ j, delay (Z.of_nat j)) <$> seq from k.
Proof.
  revert from. induction k as [|k IH]; intros from; [done|].
  rewrite failed_attempts_S. cbn [seq fmap list_fmap]. by rewrite <- IH.
Qed.

(** The pauses of one run: there are at most [maxRetries] of them, the
    pause after the failed attempt [j] lasts [min(1000 * 2^j, 5000)]
    milliseconds, which is between one and five seconds and never less
    than the pause before, and together they last at most five seconds
    per retry.  The run makes at most [2 * maxRetries + 1] requests. *)
Theorem backoff_is_bounded {T} (outcome : nat → Res T) (maxRetries : Z) w :
  (0 ≤ maxRetries)%Z →
  ∃ new,
    calls (executeWithRetry (call COperation outcome) maxRetries w).2
    = calls w ++ new
    ∧ (Z.of_nat (length (pauses new)) ≤ maxRetries)%Z
    ∧ (∀ j ms, pauses new !! j = Some ms →
         ms = Z.min (1000 * 2 ^ Z.of_nat j) 5000
         ∧ (1000 ≤ ms ≤ 5000)%Z
         ∧ ∀ i ms', i ≤ j → pauses new !! i = Some ms' → (ms' ≤ ms)%Z)
    ∧ Forall (λ c, ∀ ms, c = CSleep ms → (1000 ≤ ms ≤ 5000)%Z) new
    ∧ (0 ≤ slept new ≤ 5000 * maxRetries)%Z
    ∧ (Z.of_nat (length new) ≤ 2 * maxRetries + 1)%Z.
Proof.
  intros Hmax. unfold executeWithRetry, attempts.
  destruct (retry_loop_spec outcome maxRetries (Z.to_nat (maxRetries + 1))
              0 None w) as (errs & Hlen & Hcalls & _); [lia..|].
  exists (failed_attempts 0 (length errs) ++ [COperation]).
  split; [done|]. destruct (slept_failed_attempts 0 (length errs)) as [Hs Hall].
  assert (pauses (failed_attempts 0 (length errs) ++ [COperation])
          = (λ j, delay (Z.of_nat j)) <$> seq 0 (length errs)) as Hpauses.
  { rewrite pauses_app, pauses_failed_attempts. apply app_nil_r. }
  rewrite Hpauses.
  assert (∀ j ms,
            ((λ j, delay (Z.of_nat j)) <$> seq 0 (length errs)) !! j = Some ms →
            ms = delay (Z.of_nat j)) as Hat.
  { intros j ms Hj. rewrite list_lookup_fmap in Hj.
    destruct (seq 0 (length errs) !! j) as [j'|] eqn:Hseq; [|done].
    apply lookup_seq in Hseq as [-> _]. by injection Hj as <-. }
  split_and!.
  - rewrite length_fmap, length_seq. lia.
  - intros j ms Hj. apply Hat in Hj as ->. split; [done|].
    split; [apply delay_bounds; lia|].
    intros i ms' Hij Hi. apply Hat in Hi as ->. apply delay_mono. lia.
  - apply Forall_app. split; [done|]. constructor; [by intros ms [=]|constructor].
  - rewrite slept_app. change (slept [COperation]) with 0%Z. lia.
  - rewrite slept_app. change (slept [COperation]) with 0%Z. lia.
  - rewrite length_app. unfold failed_attempts.
    rewrite (flat_map_constant_length (c:=2)) by done.
    rewrite length_seq. simpl. lia.
Qed.

(** With a negative number of retries the operation is not invoked at
    all, and the caller gets an [Error('Unknown database error')]. *)
Theorem negative_retries_never_invoke {T} (operation : M T) (maxRetries : Z) w :
  (maxRetries < 0)%Z →
  executeWithRetry operation maxRetries w
  = (Throw (Error "Unknown database error"), w).
Proof.
  intros Hneg. unfold executeWithRetry, attempts.
  by replace (Z.to_nat (maxRetries + 1)) with 0 by lia.
Qed.

(** What the wrapper adds to an operation that returns, or that throws
    an [Error] that is not retryable, at its first attempt: nothing. *)
Theorem first_attempt_is_transparent {T} (operation : M T) (maxRetries : Z) w :
  (0 ≤ maxRetries)%Z →
  match operation w with
  | (Ok a, w') => executeWithRetry operation maxRetries w = (Ok a, w')
  | (Throw e, w') =>
      instanceofError e = true →
      retryable e = false ∨ maxRetries = 0%Z →
      executeWithRetry operation maxRetries w = (Throw e, w')
  end.
Proof.
  intros Hmax. unfold executeWithRetry, attempts.
  replace (Z.to_nat (maxRetries + 1)) with (S (Z.to_nat maxRetries)) by lia.
  cbn [seq fmap list_fmap retry_loop]. unfold try_catch.
  destruct (operation w) as [[a|e] w']; [done|].
  intros He Hwhy. rewrite He.
  assert (negb (retryable e) || (Z.of_nat 0 =? maxRetries)%Z = true) as ->.
  { destruct Hwhy as [->| ->]; [done|]. by rewrite orb_true_r. }
  done.
Qed.

End Backoff.

Lemma backoff_is_bounded_witness :
  ∃ new,
    Io.calls
      (Retry.executeWithRetry
         (Io.call Io.COperation (λ _, Io.Throw (A:=nat) Examples.unreachable))
         2 (Examples.world "m1" Io.READY)).2
    = new
    ∧ (Retry.slept new ≤ 10000)%Z.
Proof.
  destruct (backoff_is_bounded
              (λ _, Io.Throw (A:=nat) Examples.unreachable) 2
              (Examples.world "m1" Io.READY))
    as (new & Hnew & _ & _ & _ & Hslept & _); [lia|].
  exists new. split; [exact Hnew|lia].
Defined.

Lemma negative_retries_never_invoke_witness :
  Io.calls
    (Retry.executeWithRetry (Io.call Io.COperation (λ n, Io.Ok n)) (-1)
       (Examples.world "m1" Io.READY)).2 = [].
Proof.
  rewrite (negative_retries_never_invoke
             (Io.call Io.COperation (λ n, Io.Ok n)) (-1)
             (Examples.world "m1" Io.READY)); [reflexivity|lia].
Defined.

Lemma first_attempt_is_transparent_witness :
  Retry.executeWithRetry (Io.throw (A:=nat) Store.P2025) 2
    (Examples.world "m1" Io.READY)
  = (Io.Throw Store.P2025, Examples.world "m1" Io.READY).
Proof.
  apply (first_attempt_is_transparent (Io.throw (A:=nat) Store.P2025) 2
           (Examples.world "m1" Io.READY)); [lia|reflexivity|by left].
Defined.

(** ** More on the file processor *)

Section Matches.
Import FileProcessor.

Lemma scan_bounds try_at s :
  ∀ pos skip m,
    m ∈ scan try_at pos skip s →
    pos + skip ≤ index m < pos + String.length s.
Proof.
  induction s as [|c s IH]; intros pos skip m Hm; simpl in Hm.
  { by apply elem_of_nil in Hm. }
  destruct skip as [|k].
  - destruct (try_at (String c s)) as [[[len g1] g2]|].
    + apply elem_of_cons in Hm as [->|Hm]; [simpl; lia|].
      apply IH in Hm. simpl. lia.
    + apply IH in Hm. simpl. lia.
  - apply IH in Hm. simpl. lia.
Qed.

Lemma scan_increasing try_at s :
  ∀ pos skip i j a b,
    i < j →
    scan try_at pos skip s !! i = Some a →
    scan try_at pos skip s !! j = Some b →
    index a < index b.
Proof.
  induction s as [|c s IH]; intros pos skip i j a b Hij Ha Hb; simpl in *.
  { done. }
  destruct skip as [|k]; [|by eapply IH].
  destruct (try_at (String c s)) as [[[len g1] g2]|]; [|by eapply IH].
  destruct j as [|j]; [lia|]. simpl in Hb. destruct i as [|i].
  - injection Ha as <-. simpl.
    apply list_elem_of_lookup_2, scan_bounds in Hb. lia.
  - simpl in Ha. eapply (IH _ _ i j); [lia|done..].
Qed.

(** Every match is found where the pattern applies, inside the text,
    and the matches come in the order of the text. *)
Lemma matchAll_increasing try_at text i j a b :
  i < j →
  matchAll try_at text !! i = Some a → matchAll try_at text !! j = Some b →
  index a < index b ∧ index b < String.length text.
Proof.
  intros Hij Ha Hb. split; [by eapply scan_increasing|].
  apply list_elem_of_lookup_2, scan_bounds in Hb. lia.
Qed.

Lemma first_matches_is_matchAll patterns text :
  first_matches patterns text = []
  ∨ ∃ pattern, pattern ∈ patterns
               ∧ first_matches patterns text = matchAll pattern text.
Proof.
  induction patterns as [|p ps IH]; [by left|]. simpl.
  destruct (0 <? length (matchAll p text))%nat.
  - right. exists p. split; [by left|done].
  - destruct IH as [?|(q & Hq & ?)]; [by left|].
    right. exists q. split; [by right|done].
Qed.

End Matches.

Section ChapterRanges.
Import FileProcessor.

(** The bound of the chapters collected from the first [n] matches:
    where the next match starts, or the end of the text. *)
Lemma forEach_ranges text matches n :
  (∀ i j a b, i < j → matches !! i = Some a → matches !! j = Some b →
              index a < index b) →
  (∀ m, m ∈ matches → index m < String.length text) →
  n ≤ length matches →
  let st := fold_left (forEach_body text matches)
              (take n (imap (λ i m, (i, m)) matches)) (∅, []) in
  let bound := match matches !! n with
               | Some m => index m
               | None => String.length text
               end in
  (∀ c, c ∈ st.2 → startIndex c < endIndex c ∧ endIndex c ≤ bound)
  ∧ (∀ i j c c', i < j → st.2 !! i = Some c → st.2 !! j = Some c' →
                 endIndex c ≤ startIndex c').
Proof.
  intros Hinc Hin. induction n as [|n IH]; intros Hn st bound.
  { unfold st. simpl. split; [by intros c Hc%elem_of_nil|done]. }
  destruct (lookup_lt_is_Some_2 matches n) as [m Hm]; [lia|].
  assert (imap (λ i m, (i, m)) matches !! n = Some (n, m)) as Him.
  { by rewrite list_lookup_imap, Hm. }
  unfold st. rewrite (take_S_r _ _ _ Him), fold_left_app. cbn [fold_left].
  pose proof (IH ltac:(lia)) as IH'. cbv zeta in IH'. rewrite Hm in IH'.
  destruct (fold_left _ (take n _) _) as [seen chs].
  destruct IH' as (Hchs & Hord). cbn [fst snd] in *.
  assert (index m < bound) as Hnext.
  { unfold bound. destruct (matches !! S n) as [m'|] eqn:Hm'.
    - apply (Hinc n (S n) m m'); [lia|done|done].
    - apply Hin. by eapply list_elem_of_lookup_2. }
  rewrite forEach_body_unfold.
  destruct (bool_decide (parseInt (group1 m) ∈ seen)); cbn [snd].
  - split; [|done]. intros c Hc. destruct (Hchs c Hc). lia.
  - split.
    + intros c Hc. apply elem_of_app in Hc as [Hc|Hc].
      * destruct (Hchs c Hc). lia.
      * apply list_elem_of_singleton in Hc as ->. simpl. fold bound. lia.
    + intros i j c c' Hij Hc Hc'.
      destruct (decide (j < length chs)) as [Hj|Hj].
      * rewrite lookup_app_l in Hc, Hc' by lia.
        exact (Hord i j c c' Hij Hc Hc').
      * pose proof (lookup_lt_Some _ _ _ Hc') as Hj'.
        rewrite length_app in Hj'. simpl in Hj'.
        rewrite lookup_app_l in Hc by lia.
        rewrite lookup_app_r in Hc' by lia.
        destruct (j - length chs) as [|?]; [|done]. injection Hc' as <-.
        simpl. apply list_elem_of_lookup_2 in Hc. destruct (Hchs c Hc). lia.
Qed.

(** The chapters that [detectChapters] returns, whatever the text:
    there is at least one; each lies inside the text; and they come in
    the order of the text without overlapping, a chapter ending at the
    latest where the next one starts.  A chapter made from a heading is
    never empty. *)
Theorem detected_chapters_are_ordered_ranges text :
  let result := detectChapters text in
  (∃ c cs, result = c :: cs)
  ∧ (∀ c, c ∈ result → startIndex c ≤ endIndex c ≤ String.length text)
  ∧ (∀ i j c c', i < j → result !! i = Some c → result !! j = Some c' →
                 endIndex c ≤ startIndex c')
  ∧ (∀ c, c ∈ result → c = fullDocument text ∨ startIndex c < endIndex c).
Proof.
  intros result. unfold result, detectChapters.
  rewrite pattern_loop_first_matches.
  destruct (first_matches_is_matchAll chapterPatterns text)
    as [Hnone|(pattern & _ & Hms)].
  { rewrite Hnone. simpl. split_and!.
    - by eexists _, _.
    - intros c Hc%list_elem_of_singleton. subst c. simpl. lia.
    - intros [|i] [|j] c c' Hij Hc Hc'; try done; lia.
    - intros c Hc%list_elem_of_singleton. by left. }
  destruct (first_matches chapterPatterns text) as [|m0 ms] eqn:Hfm.
  { simpl. split_and!.
    - by eexists _, _.
    - intros c Hc%list_elem_of_singleton. subst c. simpl. lia.
    - intros [|i] [|j] c c' Hij Hc Hc'; try done; lia.
    - intros c Hc%list_elem_of_singleton. by left. }
  cbn [length Nat.ltb Nat.leb].
  destruct (forEach_matches_spec text (m0 :: ms) ltac:(done))
    as (Hne & _ & _ & _).
  pose proof (forEach_ranges text (m0 :: ms) (length (m0 :: ms))) as Hr.
  cbv zeta in Hr. rewrite take_ge in Hr by (by rewrite length_imap).
  rewrite (lookup_ge_None_2 (m0 :: ms)) in Hr by done.
  fold (forEach_matches text (m0 :: ms) (∅, [])) in Hr.
  destruct Hr as [Hin Hord].
  { intros i j a b Hij Ha Hb. rewrite Hms in Ha, Hb.
    by eapply matchAll_increasing. }
  { intros m Hm. rewrite Hms in Hm. apply scan_bounds in Hm. lia. }
  { done. }
  destruct ((forEach_matches text (m0 :: ms) (∅, [])).2) as [|c0 chs] eqn:Hc;
    [done|].
  cbn [length Nat.eqb]. split_and!.
  - by eexists _, _.
  - intros c Hc'. destruct (Hin c Hc'). lia.
  - done.
  - intros c Hc'. right. by destruct (Hin c Hc').
Qed.

End ChapterRanges.

Section Extraction.
Import Io FileProcessor.

Lemma split_ws_go_nonempty cur inws s : 1 ≤ length (split_ws_go cur inws s).
Proof.
  revert cur inws. induction s as [|c s IH]; intros cur inws; simpl; [lia|].
  destruct (Js.is_ws c); [destruct inws; [apply IH|simpl; lia]|apply IH].
Qed.

Lemma pages_of_words_bounds n :
  1 ≤ n →
  (1 ≤ pages_of_words n)%Z
  ∧ (500 * (pages_of_words n - 1) < Z.of_nat n ≤ 500 * pages_of_words n)%Z.
Proof.
  intros Hn. unfold pages_of_words.
  pose proof (Z.div_mod (Z.of_nat n + 499) 500 ltac:(lia)) as Hdm.
  pose proof (Z.mod_pos_bound (Z.of_nat n + 499) 500 ltac:(lia)) as Hm.
  lia.
Qed.

(** The page count of a text or DOCX document is an estimate from its
    words, 500 to a page, rounded up; as splitting at white space gives
    at least one piece, the estimate is at least one page, also for an
    empty document. *)
Theorem page_estimate_from_words env filePath w doc w' :
  processTXT env filePath w = (Ok doc, w')
  ∨ processDOCX env filePath w = (Ok doc, w') →
  let words := length (split_ws (text doc)) in
  1 ≤ words
  ∧ (1 ≤ pageCount doc)%Z
  ∧ (500 * (pageCount doc - 1) < Z.of_nat words ≤ 500 * pageCount doc)%Z
  ∧ metadata doc = Some empty_metadata.
Proof.
  intros Hrun words.
  assert (pageCount doc = pages_of_words words
          ∧ metadata doc = Some empty_metadata) as [Hpc Hmd].
  { destruct Hrun as [Hrun|Hrun].
    - unfold processTXT, try_catch in Hrun. rewrite bind_unfold in Hrun.
      unfold call at 1 in Hrun.
      destruct (Env.readFile env filePath (instant w)); [|done].
      by injection Hrun as <- _.
    - unfold processDOCX, try_catch in Hrun. rewrite bind_unfold in Hrun.
      unfold call at 1 in Hrun.
      destruct (Env.mammoth_extractRawText env filePath (instant w)); [|done].
      by injection Hrun as <- _. }
  pose proof (split_ws_go_nonempty EmptyString false (text doc)) as Hw.
  fold (split_ws (text doc)) in Hw. fold words in Hw.
  rewrite Hpc. destruct (pages_of_words_bounds words Hw). done.
Qed.

(** What [processDocument] throws is always a new [Error], without code
    or status, whose message is one of five.  For a PDF the message
    ends with the message of what reading or parsing the file threw (or
    with [Unknown error] when that was not an [Error]); for a DOCX or
    text file the cause is dropped; and a file of an EPUB or unsupported
    type is rejected before the file is read. *)
Theorem extraction_failures env filePath fileType w e w' :
  processDocument env filePath fileType w = (Throw e, w') →
  ∃ msg,
    e = Error msg
    ∧ ((∃ cause,
          (Env.readFile env filePath (instant w) = Throw cause
           ∧ calls w' = calls w ++ [CReadFile filePath]
           ∨ ∃ buf,
               Env.readFile env filePath (instant w) = Ok buf
               ∧ Env.pdfParse env buf (instant w + 1) = Throw cause
               ∧ calls w' = calls w ++ [CReadFile filePath; CPdfParse])
          ∧ msg = ("Failed to process PDF file: "
                   ++ (if instanceofError cause
                       then default EmptyString (message cause)
                       else "Unknown error"))%string)
       ∨ (msg = "Failed to process DOCX file"
          ∧ is_ok (Env.mammoth_extractRawText env filePath (instant w)) = false
          ∧ calls w' = calls w ++ [CMammoth filePath])
       ∨ (msg = "Failed to process TXT file"
          ∧ is_ok (Env.readFile env filePath (instant w)) = false
          ∧ calls w' = calls w ++ [CReadFile filePath])
       ∨ (msg = ("EPUB processing not yet implemented for " ++ filePath
                 ++ ". Please use PDF or DOCX format.")%string ∧ w' = w)
       ∨ (msg = ("Unsupported file type: " ++ Js.toLowerCase fileType)%string
          ∧ w' = w)).
Proof.
  unfold processDocument.
  repeat match goal with |- context [if ?b then _ else _] => destruct b end.
  - unfold processPDF, try_catch. rewrite bind_unfold. unfold call at 1.
    destruct (Env.readFile env filePath (instant w)) as [buf|e0] eqn:Hread.
    + rewrite bind_unfold. unfold call at 1. rewrite instant_record.
      replace (S (instant w)) with (instant w + 1) by lia.
      destruct (Env.pdfParse env buf _) as [data|e0] eqn:Hparse; [done|].
      intros [= <- <-]. eexists. split; [done|]. left. exists e0.
      split; [|done]. right. exists buf. split; [done|]. split; [done|].
      simpl. by rewrite <- app_assoc.
    + intros [= <- <-]. eexists. split; [done|]. left. exists e0.
      split; [|done]. by left.
  - unfold processDOCX, try_catch. rewrite bind_unfold. unfold call at 1.
    destruct (Env.mammoth_extractRawText env filePath (instant w)); [done|].
    intros [= <- <-]. eexists. split; [done|]. right; left. done.
  - unfold processTXT, try_catch. rewrite bind_unfold. unfold call at 1.
    destruct (Env.readFile env filePath (instant w)); [done|].
    intros [= <- <-]. eexists. split; [done|]. right; right; left. done.
  - intros [= <- <-]. eexists. split; [done|]. right; right; right; left. done.
  - intros [= <- <-]. eexists. split; [done|]. right; right; right; right. done.
Qed.

End Extraction.

Lemma page_estimate_from_words_witness :
  ∃ doc w',
    FileProcessor.processTXT Examples.env_ok "uploads/book.txt"
      (Examples.world "m1" Io.PROCESSING) = (Io.Ok doc, w')
    ∧ FileProcessor.pageCount doc = 1%Z.
Proof.
  eexists _, _. split; [reflexivity|].
  destruct (page_estimate_from_words Examples.env_ok "uploads/book.txt"
              (Examples.world "m1" Io.PROCESSING) _ _ (or_introl eq_refl))
    as (_ & _ & _ & _).
  reflexivity.
Defined.

Lemma extraction_failures_witness :
  ∃ msg,
    (FileProcessor.processDocument Examples.env_ok "uploads/book.md"
       "text/Markdown" (Examples.world "m1" Io.PROCESSING)).1
    = Io.Throw (Io.Error msg)
    ∧ msg = "Unsupported file type: text/markdown".
Proof.
  destruct (extraction_failures Examples.env_ok "uploads/book.md"
              "text/Markdown" (Examples.world "m1" Io.PROCESSING) _ _ eq_refl)
    as (msg & _ & _).
  eexists. split; reflexivity.
Defined.

(** ** More on the vector store adapter *)



Section UpsertRun.
Import Io Pinecone.
Context (env : Env.t) (materialId : string).
Context (Hdb : ∀ op n, Env.db_fault env op n = None).







(** The loop that creates the rows. *)
Lemma create_rows chunks :
  ∀ w,
    NoDup (id <$> chunks) →
    (∀ r, r ∈ textChunks w → tc_id r ∉ id <$> chunks) →
    ∃ w',
      for_of chunks (λ chunk,
        Store.textChunk_create env
          {| tc_id := id chunk;
             tc_materialId := materialId;
             tc_text := text chunk;
             tc_pageNumber := pageNumber chunk;
             tc_chapterNumber := or_zero (chapterNumber chunk) |}) w
      = (Ok tt, w')
      ∧ textChunks w' = textChunks w ++ (row_of_chunk materialId <$> chunks)
      ∧ calls w'
        = calls w ++ ((λ c, CDb (TextChunkCreate (id c))) <$> chunks)
      ∧ vectors w' = vectors w.
Proof using Hdb.
  induction chunks as [|chunk chunks IH]; intros w Hnd Hfresh.
  { exists w. by rewrite !app_nil_r. }
  apply NoDup_cons in Hnd as [Hchunk Hnd].
  cbn [for_of]. unfold bind.
  unfold Store.textChunk_create at 1, Store.db. rewrite Hdb.
  cbn [tc_id record textChunks].
  rewrite bool_decide_eq_false_2.
  2:{ intros (r & Heq & Hr)%list_elem_of_fmap.
      apply (Hfresh r Hr). rewrite <- Heq. by left. }
  set (w1 := set_textChunks _ _).
  destruct (IH w1 Hnd) as (w' & Hrun & Hrows & Hcalls & Hvec).
  { intros r Hr. unfold w1 in Hr. cbn in Hr.
    apply elem_of_app in Hr as [Hr|Hr].
    - intros Hin. apply (Hfresh r Hr). by right.
    - apply list_elem_of_singleton in Hr as ->. done. }
  exists w'. split; [done|]. rewrite Hrows, Hcalls, Hvec. unfold w1. cbn.
  by rewrite <- !app_assoc.
Qed.

(** The loop that sends the batches. *)
Lemma send_batches (bs : list (list VectorRecord)) :
  (∀ n, Env.index_fault env n = None) →
  ∀ w, ∃ w',
    for_of bs (Store.index_upsert env) w = (Ok tt, w')
    ∧ calls w' = calls w ++ (CIndexUpsert <$> bs)
    ∧ textChunks w' = textChunks w.
Proof.
  intros Hix. induction bs as [|b bs IH]; intros w.
  { exists w. by rewrite app_nil_r. }
  cbn [for_of]. unfold bind.
  unfold Store.index_upsert at 1, Store.index_request. rewrite Hix.
  set (w1 := set_vectors _ _).
  destruct (IH w1) as (w' & Hrun & Hcalls & Hrows).
  exists w'. split; [done|]. rewrite Hcalls, Hrows. unfold w1. cbn.
  by rewrite <- !app_assoc.
Qed.

(** Up to the request for the embeddings. *)
Lemma upsert_prefix chunks w :
  Env.PINECONE_ENABLED env = true →
  NoDup (id <$> chunks) →
  (∀ r, r ∈ textChunks w → tc_materialId r ≠ materialId →
        tc_id r ∉ id <$> chunks) →
  ∃ w1,
    textChunks w1
    = List.filter (λ r, negb (bool_decide (tc_materialId r = materialId)))
        (textChunks w)
      ++ (row_of_chunk materialId <$> chunks)
    ∧ calls w1
      = calls w ++ CDb (TextChunkDeleteMany materialId)
                   :: ((λ c, CDb (TextChunkCreate (id c))) <$> chunks)
    ∧ vectors w1 = vectors w
    ∧ upsertDocumentChunks env materialId chunks w
      = match Env.generateLocalEmbeddingsBatch env (text <$> chunks)
                (instant w + 1 + length chunks) with
        | Ok embeddings =>
            for_of (batches (imap (vector_of materialId embeddings) chunks))
              (Store.index_upsert env)
              (record (CEmbedBatch (text <$> chunks)) w1)
        | Throw e => (Throw e, record (CEmbedBatch (text <$> chunks)) w1)
        end.
Proof using Hdb.
  intros Hpc Hnd Hfresh. unfold upsertDocumentChunks, Env.index_configured.
  rewrite Hpc. change (negb true) with false. cbv iota.
  rewrite bind_unfold. unfold Store.textChunk_deleteMany, Store.db.
  rewrite Hdb. set (w0 := set_textChunks _ _).
  destruct (create_rows chunks w0 Hnd) as (w1 & Hrun & Hrows & Hcalls & Hvec).
  { intros r Hr. unfold w0 in Hr. cbn in Hr.
    apply list_elem_of_In, filter_In in Hr as [Hr Hother].
    apply (Hfresh r); [by apply list_elem_of_In|].
    apply negb_true_iff, bool_decide_eq_false in Hother. done. }
  exists w1. split; [by rewrite Hrows|]. split.
  { rewrite Hcalls. unfold w0. cbn. by rewrite <- app_assoc. }
  split; [by rewrite Hvec|].
  rewrite bind_unfold, Hrun. rewrite bind_unfold. unfold call at 1.
  assert (instant w1 = instant w + 1 + length chunks) as ->.
  { unfold instant. rewrite Hcalls. unfold w0. cbn.
    rewrite !length_app, length_fmap. simpl. lia. }
  destruct (Env.generateLocalEmbeddingsBatch env _ _) as [embeddings|e];
    [|done].
  unfold batches. by rewrite for_of_fmap.
Qed.

(** With the index configured, the record store and the index
    answering, and chunk identifiers that are pairwise distinct and
    taken by no other material: the rows of the material are replaced
    by one row per chunk, and, once the embeddings are there, the
    upsert requests carry one record per chunk, in the order of the
    chunks, in batches of 1 to 100 records. *)
Theorem upsert_replaces_rows_and_sends_all chunks w embeddings :
  Env.PINECONE_ENABLED env = true →
  (∀ n, Env.index_fault env n = None) →
  NoDup (id <$> chunks) →
  (∀ r, r ∈ textChunks w → tc_materialId r ≠ materialId →
        tc_id r ∉ id <$> chunks) →
  Env.generateLocalEmbeddingsBatch env (text <$> chunks)
    (instant w + 1 + length chunks) = Ok embeddings →
  let final := upsertDocumentChunks env materialId chunks w in
  final.1 = Ok tt
  ∧ textChunks final.2
    = List.filter (λ r, negb (bool_decide (tc_materialId r = materialId)))
        (textChunks w)
      ++ (row_of_chunk materialId <$> chunks)
  ∧ ∃ new,
      calls final.2 = calls w ++ new
      ∧ upserted new = imap (vector_of materialId embeddings) chunks
      ∧ Forall (λ c, match c with
                     | CIndexUpsert batch => 1 ≤ length batch ≤ 100
                     | _ => True
                     end) new.
Proof using Hdb.
  intros Hpc Hix Hnd Hfresh Hemb final.
  destruct (upsert_prefix chunks w Hpc Hnd Hfresh)
    as (w1 & Hrows & Hcalls & _ & Hrun).
  rewrite Hemb in Hrun.
  set (vs := imap (vector_of materialId embeddings) chunks) in *.
  destruct (send_batches (batches vs) Hix
              (record (CEmbedBatch (text <$> chunks)) w1))
    as (w2 & Hsend & Hcalls2 & Hrows2).
  unfold final. rewrite Hrun, Hsend. cbn [fst snd].
  split; [done|]. split; [by rewrite Hrows2|].
  destruct (slices_partition vs 100 ltac:(lia)) as [Hcat Hlen].
  fold (batches vs) in Hcat, Hlen.
  eexists. split.
  { rewrite Hcalls2. cbn [record calls]. rewrite Hcalls.
    rewrite <- !app_assoc. reflexivity. }
  split.
  - rewrite !upserted_app, upserted_batches, Hcat.
    rewrite (upserted_no_upsert (_ :: _)), (upserted_no_upsert [_]); [done|..].
    + by repeat constructor.
    + constructor; [done|]. by apply Forall_fmap, Forall_true.
  - apply Forall_app. split; [|apply Forall_app; split].
    + constructor; [done|]. by apply Forall_fmap, Forall_true.
    + by repeat constructor.
    + by apply Forall_fmap.
Qed.

(** When the embeddings cannot be generated, the rows of the material
    were already replaced: the failure leaves rows in the record store
    and sends nothing to the index. *)
Theorem embedding_failure_leaves_rows_without_vectors chunks w e :
  Env.PINECONE_ENABLED env = true →
  NoDup (id <$> chunks) →
  (∀ r, r ∈ textChunks w → tc_materialId r ≠ materialId →
        tc_id r ∉ id <$> chunks) →
  Env.generateLocalEmbeddingsBatch env (text <$> chunks)
    (instant w + 1 + length chunks) = Throw e →
  let final := upsertDocumentChunks env materialId chunks w in
  final.1 = Throw e
  ∧ textChunks final.2
    = List.filter (λ r, negb (bool_decide (tc_materialId r = materialId)))
        (textChunks w)
      ++ (row_of_chunk materialId <$> chunks)
  ∧ vectors final.2 = vectors w
  ∧ ∃ new, calls final.2 = calls w ++ new ∧ upserted new = [].
Proof using Hdb.
  intros Hpc Hnd Hfresh Hemb final.
  destruct (upsert_prefix chunks w Hpc Hnd Hfresh)
    as (w1 & Hrows & Hcalls & Hvec & Hrun).
  rewrite Hemb in Hrun. unfold final. rewrite Hrun. cbn [fst snd].
  split; [done|]. split; [done|]. split; [done|].
  eexists. split.
  { cbn [record calls]. rewrite Hcalls, <- !app_assoc. reflexivity. }
  apply upserted_no_upsert. constructor; [done|].
  apply Forall_app. split; [by apply Forall_fmap, Forall_true|].
  by repeat constructor.
Qed.

End UpsertRun.

Section ChunkIds.
Import Io Pipeline.

(** The identifiers that step 4 of the pipeline gives to the chunks of
    a split are pairwise distinct, so the rows and the records of one
    document never collide with each other. *)
Theorem chunk_ids_are_distinct materialId (chunks : list string) :
  NoDup (Pinecone.id <$> imap (chunkData_of materialId) chunks)
  ∧ ∀ i chunk, chunks !! i = Some chunk →
      (Pinecone.id <$> imap (chunkData_of materialId) chunks) !! i
      = Some (materialId ++ "-chunk-" ++ pretty i)%string.
Proof.
  assert (∀ i chunk, chunks !! i = Some chunk →
      (Pinecone.id <$> imap (chunkData_of materialId) chunks) !! i
      = Some (materialId ++ "-chunk-" ++ pretty i)%string) as Hid.
  { intros i chunk Hi. by rewrite list_lookup_fmap, list_lookup_imap, Hi. }
  split; [|done]. apply NoDup_alt. intros i j x Hi Hj.
  destruct (lookup_lt_is_Some_2 chunks i) as [ci Hci].
  { apply lookup_lt_Some in Hi. by rewrite length_fmap, length_imap in Hi. }
  destruct (lookup_lt_is_Some_2 chunks j) as [cj Hcj].
  { apply lookup_lt_Some in Hj. by rewrite length_fmap, length_imap in Hj. }
  rewrite (Hid i ci Hci) in Hi. rewrite (Hid j cj Hcj) in Hj.
  rewrite <- Hj in Hi. injection Hi as Hi.
  apply String.app_inj, String.app_inj in Hi. by apply pretty_nat_inj in Hi.
Qed.

End ChunkIds.

Lemma upsert_replaces_rows_and_sends_all_witness :
  let chunks :=
    imap (Pipeline.chunkData_of "m1") ["Cells are small."; "Genes are smaller."] in
  let final :=
    Pinecone.upsertDocumentChunks Examples.env_ok "m1" chunks
      (Examples.world "m1" Io.PROCESSING) in
  final.1 = Io.Ok tt
  ∧ (Io.tc_id <$> Io.textChunks final.2) = ["m1-chunk-0"; "m1-chunk-1"]
  ∧ (Io.v_id <$> Io.upserted (Io.calls final.2))
    = ["m1-chunk-0"; "m1-chunk-1"].
Proof.
  intros chunks final.
  destruct (upsert_replaces_rows_and_sends_all Examples.env_ok "m1"
              (λ _ _, eq_refl) chunks (Examples.world "m1" Io.PROCESSING)
              [[16%Z]; [18%Z]])
    as (Hret & Hrows & new & Hcalls & Hup & _).
  - reflexivity.
  - reflexivity.
  - apply (bool_decide_unpack _). by vm_compute.
  - intros r Hr. by apply elem_of_nil in Hr.
  - reflexivity.
  - fold final in Hret, Hrows, Hcalls. split; [exact Hret|].
    split; [by rewrite Hrows|]. rewrite Hcalls. simpl. by rewrite Hup.
Defined.

Lemma embedding_failure_leaves_rows_without_vectors_witness :
  let env :=
    {| Env.DATABASE_URL := true; Env.PINECONE_ENABLED := true;
       Env.conceptCategories := [];
       Env.splitTextRecursive := λ _ _ _, Io.Ok [];
       Env.readFile := λ _ _, Io.Ok Examples.book;
       Env.pdfParse := Env.pdfParse Examples.env_ok;
       Env.mammoth_extractRawText := λ _ _, Io.Ok Examples.book;
       Env.generateSummary := Examples.summary_ok;
       Env.generatePracticeQuestions := λ _ _ _, Io.Ok [];
       Env.extractKeyConcepts := λ _ _, Io.Ok [];
       Env.generateLocalEmbeddingsBatch := λ _ _,
         Io.Throw (Io.Error "model not loaded");
       Env.generateLocalEmbedding := λ _ _, Io.Ok [];
       Env.generateEmbedding := λ _ _, Io.Ok [];
       Env.answerQuestion := Env.answerQuestion Examples.env_ok;
       Env.db_fault := Examples.no_fault;
       Env.index_fault := λ _, None;
       Env.index_matches := λ _ _ _ _ _, [] |} in
  let chunks := imap (Pipeline.chunkData_of "m1") ["Cells are small."] in
  let final :=
    Pinecone.upsertDocumentChunks env "m1" chunks
      (Examples.world "m1" Io.PROCESSING) in
  (Io.tc_id <$> Io.textChunks final.2) = ["m1-chunk-0"]
  ∧ Io.vectors final.2 = [].
Proof.
  intros env chunks final.
  destruct (embedding_failure_leaves_rows_without_vectors env "m1"
              (λ _ _, eq_refl) chunks (Examples.world "m1" Io.PROCESSING)
              (Io.Error "model not loaded"))
    as (_ & Hrows & Hvec & _).
  - reflexivity.
  - apply (bool_decide_unpack _). by vm_compute.
  - intros r Hr. by apply elem_of_nil in Hr.
  - reflexivity.
  - fold final in Hrows, Hvec. split; [by rewrite Hrows|exact Hvec].
Defined.

(** ** More on the chat route *)

Section Yields.
Import Io.

Lemma yields_ret {A} (Q : A → Prop) a : Q a → yields Q (ret a).
Proof. intros HQ w a' w' [= <- _]. done. Qed.

Lemma yields_throw {A} (Q : A → Prop) e : yields Q (throw e).
Proof. by intros w a' w'. Qed.

Lemma yields_bind {A B} (Q : B → Prop) (m : M A) (k : A → M B) :
  (∀ a, yields Q (k a)) → yields Q (m ≫= k).
Proof.
  intros Hk w b w'. rewrite bind_unfold.
  destruct (m w) as [[a|e] w1]; [apply Hk|done].
Qed.

Lemma yields_try_catch {A} (Q : A → Prop) (m : M A) h :
  yields Q m → (∀ e, yields Q (h e)) → yields Q (try_catch m h).
Proof.
  intros Hm Hh w a w'. unfold try_catch.
  destruct (m w) as [[a'|e] w1] eqn:Hrun; [|apply Hh].
  intros [= <- _]. by eapply Hm.
Qed.

End Yields.

Section ChatOutcomes.
Import Io Chat.

Local Ltac not_among H :=
  repeat (apply elem_of_cons in H as [H|H]; [done|]);
  by apply elem_of_nil in H.

(** The route answers every request: whatever the body of the request,
    the state of the store and the behaviour of the providers, [POST]
    returns a response and never throws; an answer has status 200 and
    an error one of 400, 404, 429, 500 and 503. *)
Theorem chat_always_responds env req w :
  ∃ response,
    (POST env req w).1 = Ok response
    ∧ well_formed response
    ∧ http_status response ∈ [200; 400; 404; 429; 500; 503]%Z.
Proof.
  assert (returns (POST env req)) as Hret.
  { apply returns_try_catch. intros e.
    destruct (isRateLimitError e); apply returns_ret. }
  assert (yields well_formed (POST env req)) as Hwf.
  { unfold POST. apply yields_try_catch.
    2:{ intros e. destruct (isRateLimitError e); apply yields_ret;
          unfold well_formed; simpl; set_solver. }
    destruct (negb (Env.DATABASE_URL env));
      [apply yields_ret; unfold well_formed; simpl; set_solver|].
    destruct (falsy (materialId req) || falsy (question req));
      [apply yields_ret; unfold well_formed; simpl; set_solver|].
    destruct (_ =? 0)%nat;
      [apply yields_ret; unfold well_formed; simpl; set_solver|].
    destruct (1000 <? _)%nat;
      [apply yields_ret; unfold well_formed; simpl; set_solver|].
    apply yields_bind. intros [mat|];
      [|apply yields_ret; unfold well_formed; simpl; set_solver].
    destruct (bool_decide _);
      [apply yields_ret; unfold well_formed; simpl; set_solver|].
    apply yields_bind. intros chunks. apply yields_bind.
    intros [answer citations]. by apply yields_ret. }
  destruct (Hret w) as [response Hr]. exists response. split; [done|].
  assert (well_formed response) as Hw.
  { destruct (POST env req w) as [r w'] eqn:Hrun. simpl in Hr. subst r.
    by eapply Hwf. }
  split; [done|]. unfold well_formed in Hw.
  destruct (body response); [by right|]. rewrite Hw. by left.
Qed.


(** A request that is answered with 503, 400 or 404 costs at most the
    lookup of the material: the vector index, the embedding model and
    the answer synthesiser are not called, and nothing is written. *)
Theorem chat_rejections_are_cheap env req w response w' :
  POST env req w = (Ok response, w') →
  http_status response ∈ [503; 400; 404]%Z →
  w' = w
  ∨ ∃ id, materialId req = Some id
          ∧ w' = record (CDb (MaterialFindUnique id)) w
          ∧ (http_status response = 404%Z → materials w !! id = None).
Proof.
  assert (∀ e w0 r w1,
    (if isRateLimitError e
     then ret (json (ErrorBody "Rate limit exceeded") 429)
     else ret (json (ErrorBody "Failed to process question") 500)) w0
    = (Ok r, w1) → http_status r ∈ [503; 400; 404]%Z → False) as Hhandler.
  { intros e w0 r w1. destruct (isRateLimitError e); intros [= <- _] Hin;
      simpl in Hin; not_among Hin. }
  unfold POST, try_catch.
  destruct (negb (Env.DATABASE_URL env)); [intros [= _ <-] _; by left|].
  destruct (falsy (materialId req) || falsy (question req)) eqn:Hf;
    [intros [= _ <-] _; by left|].
  destruct (_ =? 0)%nat; [intros [= _ <-] _; by left|].
  destruct (1000 <? _)%nat; [intros [= _ <-] _; by left|].
  apply orb_false_iff in Hf as [Hid _].
  destruct (materialId req) as [id|] eqn:Hreq; [|done].
  change (default EmptyString (Some id)) with id.
  rewrite bind_unfold. unfold Store.material_findUnique, Store.db.
  destruct (Env.db_fault env _ _).
  { intros Hrun Hin. by destruct (Hhandler _ _ _ _ Hrun Hin). }
  cbn [materials record].
  destruct (materials w !! id) as [mat|] eqn:Hmat.
  2:{ intros [= <- <-] _. right. exists id. done. }
  destruct (bool_decide _).
  { intros [= <- <-] _. right. exists id. split; [done|]. split; [done|].
    by intros [=]. }
  match goal with
  | |- context [(?m ≫= ?k) ?w1] =>
      pose proof (yields_bind (λ r, http_status r = 200%Z) m k) as Hy;
      destruct ((m ≫= k) w1) as [[r|e] w2] eqn:Hrun
  end.
  - intros [= <- <-] Hin. exfalso.
    rewrite (Hy ltac:(intros chunks; apply yields_bind;
                       intros [answer citations]; by apply yields_ret)
                _ _ _ Hrun) in Hin.
    not_among Hin.
  - intros Hrun' Hin. by destruct (Hhandler _ _ _ _ Hrun' Hin).
Qed.

End ChatOutcomes.

Lemma chat_rejections_are_cheap_witness :
  Io.calls
    (Chat.POST Examples.env_ok (Examples.ask "m2" "What is a cell?")
       (Examples.world "m1" Io.READY)).2
  = [Io.CDb (Io.MaterialFindUnique "m2")].
Proof.
  destruct (chat_rejections_are_cheap Examples.env_ok
              (Examples.ask "m2" "What is a cell?")
              (Examples.world "m1" Io.READY) _ _ eq_refl)
    as [Hsame|(id & Hid & Hw & _)].
  - apply (bool_decide_unpack _). by vm_compute.
  - reflexivity.
  - reflexivity.
Defined.

(** ** The vectorisation script *)

Section Script.
Import Io Scripts.

(** The words of a text are grouped [size] at a time, in order and
    without loss: the groups put together give the words back, no group
    is empty or longer than [size], and each chunk is its group joined
    by single spaces. *)
Theorem simpleChunk_groups_the_words text size :
  0 < size →
  ∃ groups,
    simpleChunk text size = Js.join " " <$> groups
    ∧ concat groups = FileProcessor.split_ws text
    ∧ Forall (λ group, 1 ≤ length group ≤ size) groups
    ∧ 1 ≤ length (simpleChunk text size).
Proof.
  intros Hsize.
  set (words := FileProcessor.split_ws text).
  exists ((λ i, Js.array_slice i (i + size) words)
            <$> Js.strides (length words) size).
  destruct (slices_partition words size Hsize) as [Hcat Hlen].
  split; [|split; [done|split; [done|]]].
  - unfold simpleChunk. fold words. by rewrite <- list_fmap_compose.
  - unfold simpleChunk. fold words. rewrite length_fmap.
    pose proof (split_ws_go_nonempty EmptyString false text) as Hw.
    fold (FileProcessor.split_ws text) in Hw. fold words in Hw.
    unfold Js.strides. rewrite length_fmap, length_seq.
    apply Nat.div_str_pos. lia.
Qed.


(** The script always ends by disconnecting from the record store,
    whatever happened before, and it throws only when the disconnection
    itself fails. *)
Theorem script_always_disconnects env w :
  ∃ w1,
    calls (main env w).2 = calls w1 ++ [CDb Disconnect]
    ∧ (∃ new, calls w1 = calls w ++ new)
    ∧ (main env w).1
      = match Env.db_fault env Disconnect (instant w1) with
        | Some e => Throw e
        | None => Ok tt
        end.
Proof.
  unfold main, try_finally.
  match goal with
  | |- context [try_catch ?m ?h w] =>
      pose proof (returns_try_catch m h (λ e, returns_ret tt) w) as [[] Hret];
      assert (traces (λ _, True) (try_catch m h)) as Htr
  end.
  { apply traces_try_catch; [|intros; apply traces_ret].
    apply traces_bind; [by apply traces_material_findUnique|].
    intros [material|]; [|apply traces_ret].
    apply traces_bind; [by apply traces_call|]. intros buf.
    apply traces_bind; [by apply traces_call|]. intros data.
    apply traces_bind; [by apply traces_material_update|]. intros _.
    destruct (negb _); [apply traces_ret|].
    apply traces_for_index. intros i chunk _.
    apply traces_try_catch; [|intros; apply traces_ret].
    apply traces_bind; [by apply traces_call|]. intros embedding.
    apply traces_bind; [by apply traces_index_upsert|]. intros _.
    by apply traces_sleep. }
  destruct (Htr w) as (new & Hnew & _).
  destruct (try_catch _ _ w) as [r w1]. cbn [fst snd] in *. subst r.
  exists w1. split; [|split; [by exists new|]].
  - unfold Store.disconnect, Store.db.
    by destruct (Env.db_fault env Disconnect (instant w1)).
  - unfold Store.disconnect, Store.db.
    by destruct (Env.db_fault env Disconnect (instant w1)).
Qed.

(** The loop of the script when every embedding is generated and the
    index accepts every request. *)
Lemma script_loop_ok env (ixs : list (nat * string)) :
  (∀ chunk n, is_ok (Env.generateEmbedding env chunk n) = true) →
  (∀ n, Env.index_fault env n = None) →
  ∀ w, ∃ w' new,
    for_of ixs (λ ix,
      try_catch
        (embedding ← call (CEmbed ix.2) (Env.generateEmbedding env ix.2);
         Store.index_upsert env [vector_of materialId ix.2 ix.1 embedding];;
         sleep 200)
        (λ _, ret tt)) w = (Ok tt, w')
    ∧ calls w' = calls w ++ new
    ∧ length (upserted new) = length ixs
    ∧ ∀ j i chunk, ixs !! j = Some (i, chunk) →
        ∃ embedding,
          Env.generateEmbedding env chunk (instant w + 3 * j) = Ok embedding
          ∧ upserted new !! j = Some (vector_of materialId chunk i embedding).
Proof.
  intros Hemb Hix. induction ixs as [|[i chunk] ixs IH]; intros w.
  { exists w, []. rewrite app_nil_r. split; [done|]. split; [done|].
    split; [done|]. by intros j i chunk Hj. }
  cbn [for_of]. unfold bind. cbn [fst snd].
  unfold try_catch at 1. rewrite bind_unfold. unfold call at 1.
  pose proof (Hemb chunk (instant w)) as Hok.
  destruct (Env.generateEmbedding env chunk (instant w))
    as [embedding|e] eqn:Hgen; [|done].
  rewrite bind_unfold. unfold Store.index_upsert at 1, Store.index_request.
  rewrite Hix. cbv beta iota. unfold sleep at 1.
  set (v := vector_of materialId chunk i embedding).
  set (w1 := record (CSleep 200) _).
  assert (calls w1 = calls w ++ [CEmbed chunk; CIndexUpsert [v]; CSleep 200])
    as Hw1 by (unfold w1; simpl; by rewrite <- !app_assoc).
  assert (instant w1 = instant w + 3) as Hi1
    by (unfold instant; rewrite Hw1, length_app; simpl; lia).
  destruct (IH w1) as (w' & new & Hrun & Hcalls & Hlen & Hat).
  exists w', ([CEmbed chunk; CIndexUpsert [v]; CSleep 200] ++ new).
  split; [done|]. split; [by rewrite Hcalls, Hw1, <- app_assoc|].
  rewrite upserted_app.
  change (upserted [CEmbed chunk; CIndexUpsert [v]; CSleep 200]) with [v].
  split; [simpl; by rewrite Hlen|].
  intros [|j] i' chunk' Hj.
  - injection Hj as <- <-. exists embedding.
    by rewrite Nat.mul_0_r, Nat.add_0_r.
  - destruct (Hat j i' chunk' Hj) as (embedding' & Hgen' & Hup).
    exists embedding'. split; [|done].
    by replace (instant w + 3 * S j) with (instant w1 + 3 * j) by lia.
Qed.

(** The script after the material was found, the file read and parsed,
    and the material updated. *)
Lemma script_after_parse env w material buf data :
  materials w !! materialId = Some material →
  Env.db_fault env (MaterialFindUnique materialId) (instant w) = None →
  Env.readFile env (fileUrl material) (instant w + 1) = Ok buf →
  Env.pdfParse env buf (instant w + 2) = Ok data →
  Env.db_fault env (MaterialUpdate materialId) (instant w + 3) = None →
  ∃ w4,
    materials w4
    = <[materialId := with_ready (Env.numpages data) material]> (materials w)
    ∧ calls w4
      = calls w ++ [CDb (MaterialFindUnique materialId);
                    CReadFile (fileUrl material); CPdfParse;
                    CDb (MaterialUpdate materialId)]
    ∧ main env w
      = try_finally
          (try_catch
             (if negb (Env.index_configured env) then ret tt
              else
                for_of
                  (imap (λ i x, (i, x))
                     (take (length (simpleChunk (Env.pdf_text data) 300)
                            `min` 30)
                        (simpleChunk (Env.pdf_text data) 300)))
                  (λ ix,
                     try_catch
                       (embedding ← call (CEmbed ix.2)
                                      (Env.generateEmbedding env ix.2);
                        Store.index_upsert env
                          [vector_of materialId ix.2 ix.1 embedding];;
                        sleep 200)
                       (λ _, ret tt)))
             (λ _, ret tt))
          (Store.disconnect env) w4.
Proof.
  intros Hmat Hfind Hread Hparse Hupdate.
  set (w3 := record CPdfParse
               (record (CReadFile (fileUrl material))
                  (record (CDb (MaterialFindUnique materialId)) w))).
  assert (instant w3 = instant w + 3) as Hi3
    by (unfold w3; rewrite !instant_record; lia).
  exists (set_materials
            (insert materialId (with_ready (Env.numpages data) material))
            (record (CDb (MaterialUpdate materialId)) w3)).
  split; [done|]. split; [simpl; by rewrite <- !app_assoc|].
  unfold main, try_finally, try_catch at 1 3. rewrite bind_unfold.
  unfold Store.material_findUnique at 1, Store.db at 1. rewrite Hfind.
  cbn [record materials]. rewrite Hmat.
  rewrite bind_unfold. unfold call at 1. rewrite instant_record.
  replace (S (instant w)) with (instant w + 1) by lia. rewrite Hread.
  rewrite bind_unfold. unfold call at 1. rewrite !instant_record.
  replace (S (S (instant w))) with (instant w + 2) by lia. rewrite Hparse.
  rewrite bind_unfold. fold w3.
  rewrite (material_update_ok env materialId _ w3 material);
    [|by rewrite Hi3|done].
  reflexivity.
Qed.

(** When the material exists, its file is read and parsed, and the
    record store accepts the two requests of the script, the script
    leaves the material READY, with the page count of the file,
    whatever happens to the upload and to the disconnection.  When
    moreover the index is configured, every embedding is generated and
    the index accepts every request, the script upserts one record for
    each of the first 30 chunks of the text, in order: the record of
    chunk [i] carries the embedding generated for that chunk and, in
    the metadata, the first 500 characters of the chunk. *)
Theorem script_marks_ready_then_uploads env w material buf data :
  materials w !! materialId = Some material →
  Env.db_fault env (MaterialFindUnique materialId) (instant w) = None →
  Env.readFile env (fileUrl material) (instant w + 1) = Ok buf →
  Env.pdfParse env buf (instant w + 2) = Ok data →
  Env.db_fault env (MaterialUpdate materialId) (instant w + 3) = None →
  let final := main env w in
  let first := take 30 (simpleChunk (Env.pdf_text data) 300) in
  (processingStatus <$> materials final.2 !! materialId = Some READY
   ∧ (pageCount <$> materials final.2 !! materialId
      = Some (Some (Env.numpages data))))
  ∧ (Env.PINECONE_ENABLED env = true →
     (∀ chunk n, is_ok (Env.generateEmbedding env chunk n) = true) →
     (∀ n, Env.index_fault env n = None) →
     ∃ new,
       calls final.2 = calls w ++ new
       ∧ length (upserted new) = length first
       ∧ ∀ i chunk, first !! i = Some chunk →
           ∃ embedding,
             Env.generateEmbedding env chunk (instant w + 4 + 3 * i)
             = Ok embedding
             ∧ upserted new !! i
               = Some {| v_id := materialId ++ "-chunk-" ++ pretty i;
                         values := Some embedding;
                         metadata :=
                           [("materialId", MStr materialId);
                            ("text", MStr (Js.substring0 500 chunk));
                            ("pageNumber", MNum (Z.of_nat (i / 3) + 1));
                            ("chapterNumber", MNum 0)] |}).
Proof.
  intros Hmat Hfind Hread Hparse Hupdate final first.
  destruct (script_after_parse env w material buf data)
    as (w4 & Hmat4 & Hcalls4 & Hrun); [done..|].
  unfold final. rewrite Hrun. clear Hrun.
  set (chunks := simpleChunk (Env.pdf_text data) 300) in *.
  assert (take (length chunks `min` 30) chunks = first) as ->.
  { unfold first. destruct (decide (length chunks ≤ 30)).
    - rewrite Nat.min_l by done. by rewrite !take_ge by lia.
    - f_equal. lia. }
  set (ready := with_ready (Env.numpages data) material).
  split.
  - set (I := λ w : World, materials w !! materialId = Some ready).
    assert (I w4) as HI4 by (unfold I; by rewrite Hmat4, lookup_insert_eq).
    match goal with
    | |- context [try_finally ?m ?f w4] =>
        assert (preserves I (try_finally m f)) as Hkeep
    end.
    { apply preserves_try_finally;
        [|by apply (db_keeps_materials (λ ms, ms !! materialId = Some ready))].
      apply preserves_try_catch; [|intros; apply preserves_ret].
      destruct (negb _); [apply preserves_ret|].
      apply preserves_for_of. intros ix _.
      apply preserves_try_catch; [|intros; apply preserves_ret].
      apply preserves_bind; [by apply preserves_call|]. intros embedding.
      apply preserves_bind; [|intros _; by apply preserves_sleep].
      by apply (index_keeps_materials (λ ms, ms !! materialId = Some ready)). }
    specialize (Hkeep w4 HI4). unfold I in Hkeep. by rewrite Hkeep.
  - intros Hconf Hemb Hix. unfold Env.index_configured. rewrite Hconf.
    change (negb true) with false. cbv iota.
    destruct (script_loop_ok env (imap (λ i x, (i, x)) first) Hemb Hix w4)
      as (w5 & loop & Hloop & Hcalls5 & Hlen & Hat).
    unfold try_finally, try_catch at 1. rewrite Hloop.
    assert (instant w4 = instant w + 4) as Hi4
      by (unfold instant; rewrite Hcalls4, length_app; simpl; lia).
    set (pre := [CDb (MaterialFindUnique materialId);
                 CReadFile (fileUrl material); CPdfParse;
                 CDb (MaterialUpdate materialId)]) in *.
    exists (pre ++ loop ++ [CDb Disconnect]). split; [|split].
    + unfold Store.disconnect, Store.db.
      destruct (Env.db_fault env Disconnect (instant w5)); simpl;
        by rewrite Hcalls5, Hcalls4, <- !app_assoc.
    + rewrite !upserted_app. change (upserted pre) with (@nil VectorRecord).
      change (upserted [CDb Disconnect]) with (@nil VectorRecord).
      rewrite app_nil_l, app_nil_r, Hlen. by rewrite length_imap.
    + intros i chunk Hi.
      destruct (Hat i i chunk) as (embedding & Hgen & Hup).
      { by rewrite list_lookup_imap, Hi. }
      exists embedding. rewrite <- Hi4. split; [done|].
      rewrite !upserted_app. change (upserted pre) with (@nil VectorRecord).
      change (upserted [CDb Disconnect]) with (@nil VectorRecord).
      by rewrite app_nil_l, app_nil_r.
Qed.

End Script.

Lemma simpleChunk_groups_the_words_witness :
  Scripts.simpleChunk "Cells are small. Genes are smaller." 4
  = ["Cells are small. Genes"; "are smaller."].
Proof.
  destruct (simpleChunk_groups_the_words
              "Cells are small. Genes are smaller." 4 ltac:(lia))
    as (groups & _ & _ & _ & _).
  reflexivity.
Defined.

Lemma script_marks_ready_then_uploads_witness :
  let final :=
    Scripts.main Examples.env_ok (Examples.world Scripts.materialId Io.ERROR) in
  Io.processingStatus <$> Io.materials final.2 !! Scripts.materialId
  = Some Io.READY
  ∧ length (Io.upserted (Io.calls final.2)) = 1.
Proof.
  destruct (script_marks_ready_then_uploads Examples.env_ok
              (Examples.world Scripts.materialId Io.ERROR)
              (Examples.uploaded Io.ERROR) Examples.book
              {| Env.pdf_text := Examples.book; Env.numpages := 3;
                 Env.info_Title := None;
                 Env.info_Author := Some "A. Author";
                 Env.info_Subject := None |}
              eq_refl eq_refl eq_refl eq_refl eq_refl)
    as [[Hready _] Hupload].
  split; [exact Hready|].
  destruct (Hupload eq_refl (λ _ _, eq_refl) (λ _, eq_refl))
    as (new & Hnew & Hlen & _).
  reflexivity.
Defined.

(** ** More on the upload pipeline *)

(** *** What a run for one material leaves alone *)

Section Frame.
Import Io Pipeline.
Context (env : Env.t) (materialId : string) (I : World → Prop).
Context (Hrecord : ∀ c w, I w → I (record c w)).
Context (HtextChunks : ∀ f w, I w → I (set_textChunks f w)).
Context (Hvectors : ∀ f w, I w → I (set_vectors f w)).
Context (Hmaterial : ∀ data w m,
           materials w !! materialId = Some m → I w →
           I (set_materials (insert materialId (data m)) w)).
Context (HchapterDelete : ∀ w, I w →
           I (set_chapters
                (List.filter
                   (λ r, negb (bool_decide (ch_materialId r = materialId))))
                w)).
Context (HchapterUpsert : ∀ row w, ch_materialId row = materialId → I w →
           I (set_chapters (Store.upsert_row row) w)).
Context (HconceptDelete : ∀ w, I w →
           I (set_concepts
                (List.filter
                   (λ r, negb (bool_decide (co_materialId r = materialId))))
                w)).
Context (HconceptCreate : ∀ row w, co_materialId row = materialId → I w →
           I (set_concepts (λ rows, rows ++ [row]) w)).

Lemma frame_processDocument filePath fileType :
  preserves I (FileProcessor.processDocument env filePath fileType).
Proof using Hrecord.
  unfold FileProcessor.processDocument.
  repeat match goal with |- context [if ?b then _ else _] => destruct b end.
  - apply preserves_try_catch; [|intros; apply preserves_throw].
    apply preserves_bind; [apply preserves_call; intros; by apply Hrecord|]. intros buf.
    apply preserves_bind; [apply preserves_call; intros; by apply Hrecord|]. intros data.
    apply preserves_ret.
  - apply preserves_try_catch; [|intros; apply preserves_throw].
    apply preserves_bind; [apply preserves_call; intros; by apply Hrecord|]. intros txt.
    apply preserves_ret.
  - apply preserves_try_catch; [|intros; apply preserves_throw].
    apply preserves_bind; [apply preserves_call; intros; by apply Hrecord|]. intros txt.
    apply preserves_ret.
  - apply preserves_throw.
  - apply preserves_throw.
Qed.

Lemma frame_generateSummaries i chapterText :
  preserves I (generateSummaries env i chapterText).
Proof using Hrecord.
  apply preserves_try_assigning. intros stmt s Hstmt.
  repeat (apply elem_of_cons in Hstmt as [->|Hstmt]);
    [..|by apply elem_of_nil in Hstmt].
  - apply preserves_bind; [|intros; apply preserves_ret].
    destruct (0 <? i)%nat; [apply preserves_sleep; intros; by apply Hrecord|apply preserves_ret].
  - apply preserves_bind; [apply preserves_call; intros; by apply Hrecord|].
    intros; apply preserves_ret.
  - apply preserves_bind; [apply preserves_sleep; intros; by apply Hrecord|].
    intros; apply preserves_ret.
  - apply preserves_bind; [apply preserves_call; intros; by apply Hrecord|].
    intros; apply preserves_ret.
  - apply preserves_bind; [apply preserves_sleep; intros; by apply Hrecord|].
    intros; apply preserves_ret.
  - apply preserves_bind; [apply preserves_call; intros; by apply Hrecord|].
    intros; apply preserves_ret.
Qed.

Lemma frame_generateQuestions chapterText :
  preserves I (generateQuestions env chapterText).
Proof using Hrecord.
  apply preserves_try_catch; [|intros; apply preserves_ret].
  apply preserves_bind; [apply preserves_sleep; intros; by apply Hrecord|]. intros _.
  apply preserves_call; intros; by apply Hrecord.
Qed.

Lemma frame_storeConcepts chapter chapterText :
  preserves I (storeConcepts env materialId chapter chapterText).
Proof using Hrecord HconceptCreate.
  apply preserves_try_catch; [|intros; apply preserves_ret].
  apply preserves_bind; [apply preserves_sleep; intros; by apply Hrecord|]. intros _.
  apply preserves_bind; [apply preserves_call; intros; by apply Hrecord|]. intros cs.
  apply preserves_for_of. intros c _.
  apply preserves_db; [by intros; apply Hrecord|].
  intros w HI. by apply HconceptCreate.
Qed.

Lemma frame_processChapter text i chapter :
  preserves I (processChapter env materialId text i chapter).
Proof using Hrecord HconceptCreate HchapterUpsert.
  apply preserves_bind; [apply frame_generateSummaries|]. intros s.
  apply preserves_bind; [apply frame_generateQuestions|]. intros qs.
  apply preserves_bind; [|intros _; apply frame_storeConcepts].
  apply preserves_db; [by intros; apply Hrecord|].
  intros w HI. by apply HchapterUpsert.
Qed.

Lemma frame_createEmbeddings text :
  preserves I (createEmbeddings env materialId text).
Proof using Hrecord HtextChunks Hvectors.
  apply preserves_try_catch; [|intros; apply preserves_ret].
  apply preserves_bind; [by intros w HI|]. intros chunks.
  unfold Pinecone.upsertDocumentChunks.
  destruct (negb _); [apply preserves_ret|].
  apply preserves_bind.
  { apply preserves_db; [by intros; apply Hrecord|].
    intros w HI. by apply HtextChunks. }
  intros _. apply preserves_bind.
  { apply preserves_for_of. intros c _.
    apply preserves_db; [by intros; apply Hrecord|].
    intros w HI. destruct (bool_decide _); [done|]. by apply HtextChunks. }
  intros _. apply preserves_bind; [apply preserves_call; intros; by apply Hrecord|]. intros es.
  apply preserves_for_of. intros k _.
  apply preserves_index_request; [by intros; apply Hrecord|].
  intros w HI. by apply Hvectors.
Qed.

Lemma frame_generateWholeSummary text :
  preserves I (generateWholeSummary env text).
Proof using Hrecord.
  apply preserves_try_catch; [|intros; apply preserves_ret].
  apply preserves_bind; [apply preserves_sleep; intros; by apply Hrecord|]. intros _.
  apply preserves_bind; [apply preserves_call; intros; by apply Hrecord|]. intros v.
  apply preserves_ret.
Qed.

Lemma frame_material_update data :
  preserves I (Store.material_update env materialId data).
Proof using Hrecord Hmaterial.
  apply preserves_db; [by intros; apply Hrecord|].
  intros w HI. destruct (materials w !! materialId) as [m|] eqn:Hm; [|done].
  by apply Hmaterial.
Qed.

Lemma frame_processDocumentAsync filePath fileType :
  preserves I (processDocumentAsync env materialId filePath fileType).
Proof using All.
  apply preserves_try_catch; [|intros; apply frame_material_update].
  apply preserves_bind; [apply frame_processDocument|]. intros doc.
  apply preserves_bind; [apply frame_material_update|]. intros _.
  apply preserves_bind.
  { apply preserves_db; [by intros; apply Hrecord|].
    intros w HI. by apply HchapterDelete. }
  intros _. apply preserves_bind.
  { apply preserves_db; [by intros; apply Hrecord|].
    intros w HI. by apply HconceptDelete. }
  intros _. apply preserves_bind.
  { apply preserves_for_index. intros i ch _. apply frame_processChapter. }
  intros _. apply preserves_bind; [apply frame_createEmbeddings|]. intros _.
  apply preserves_bind; [apply frame_generateWholeSummary|]. intros ws.
  apply frame_material_update.
Qed.

End Frame.

Section Isolation.
Import Io Pipeline.

Lemma filter_others_upsert_row materialId row rows :
  ch_materialId row = materialId →
  List.filter (λ r, negb (bool_decide (ch_materialId r = materialId)))
    (Store.upsert_row row rows)
  = List.filter (λ r, negb (bool_decide (ch_materialId r = materialId))) rows.
Proof.
  intros Hrow. induction rows as [|r rows IH]; simpl.
  - by rewrite bool_decide_eq_true_2.
  - destruct (Store.same_chapter r row) eqn:Hsame; simpl.
    + apply andb_true_iff in Hsame as [Hm%bool_decide_eq_true _].
      rewrite !bool_decide_eq_true_2 by congruence. done.
    + by rewrite IH.
Qed.

Lemma filter_filter_same {A} (p : A → bool) (xs : list A) :
  List.filter p (List.filter p xs) = List.filter p xs.
Proof.
  induction xs as [|x xs IH]; [done|]. simpl.
  destruct (p x) eqn:Hp; [simpl; by rewrite Hp, IH|done].
Qed.

(** A run for one material leaves the other materials alone: their
    records, their chapters and their concepts stay as they were, in
    the same order, and so does the search cache, however the run
    ends. *)
Theorem processing_leaves_other_materials_alone env materialId filePath
    fileType w :
  let final := (processDocumentAsync env materialId filePath fileType w).2 in
  (∀ other, other ≠ materialId →
     materials final !! other = materials w !! other)
  ∧ List.filter (λ r, negb (bool_decide (ch_materialId r = materialId)))
      (chapters final)
    = List.filter (λ r, negb (bool_decide (ch_materialId r = materialId)))
        (chapters w)
  ∧ List.filter (λ r, negb (bool_decide (co_materialId r = materialId)))
      (concepts final)
    = List.filter (λ r, negb (bool_decide (co_materialId r = materialId)))
        (concepts w)
  ∧ searchCache final = searchCache w.
Proof.
  set (I := λ w' : World,
    (∀ other, other ≠ materialId →
       materials w' !! other = materials w !! other)
    ∧ List.filter (λ r, negb (bool_decide (ch_materialId r = materialId)))
        (chapters w')
      = List.filter (λ r, negb (bool_decide (ch_materialId r = materialId)))
          (chapters w)
    ∧ List.filter (λ r, negb (bool_decide (co_materialId r = materialId)))
        (concepts w')
      = List.filter (λ r, negb (bool_decide (co_materialId r = materialId)))
          (concepts w)
    ∧ searchCache w' = searchCache w).
  apply (frame_processDocumentAsync env materialId I); try done.
  - intros data w' m Hm (Hmat & Hch & Hco & Hsc). split; [|done].
    intros other Hother. simpl. rewrite lookup_insert_ne by done.
    by apply Hmat.
  - intros w' (Hmat & Hch & Hco & Hsc). split; [done|]. split; [|done].
    simpl. by rewrite filter_filter_same.
  - intros row w' Hrow (Hmat & Hch & Hco & Hsc). split; [done|].
    split; [|done]. simpl. by rewrite filter_others_upsert_row.
  - intros w' (Hmat & Hch & Hco & Hsc). split; [done|]. split; [done|].
    split; [|done]. simpl. by rewrite filter_filter_same.
  - intros row w' Hrow (Hmat & Hch & Hco & Hsc). split; [done|].
    split; [done|]. split; [|done]. simpl.
    rewrite List.filter_app, Hco. simpl. rewrite bool_decide_eq_true_2 by done.
    simpl. by rewrite app_nil_r.
Qed.

End Isolation.

(** *** When the run itself is rejected *)

Section Rejection.
Import Io Pipeline.

Lemma keeps_on_throw_bind {A B} I (m : M A) (k : A → M B) :
  preserves I m → (∀ a, keeps_on_throw I (k a)) →
  keeps_on_throw I (m ≫= k).
Proof.
  intros Hm Hk w e w' HI. rewrite bind_unfold. specialize (Hm w HI).
  destruct (m w) as [[a|e0] w1]; simpl in Hm.
  - by apply Hk.
  - by intros [= _ <-].
Qed.

(** An update that throws has written nothing; it throws because the
    record store failed or because the record is missing. *)
Lemma material_update_throws env id data w e w' :
  Store.material_update env id data w = (Throw e, w') →
  materials w' = materials w
  ∧ (Env.db_fault env (MaterialUpdate id) (instant w) = Some e
     ∨ (e = Store.P2025 ∧ materials w !! id = None)).
Proof.
  unfold Store.material_update, Store.db.
  destruct (Env.db_fault env _ _) as [e0|].
  - intros [= <- <-]. split; [done|by left].
  - cbn [materials record]. destruct (materials w !! id) eqn:Hm; [done|].
    intros [= <- <-]. split; [done|by right].
Qed.

Lemma material_update_keeps_status env id data st :
  (∀ m, processingStatus (data m) = processingStatus m) →
  preserves (λ w, processingStatus <$> materials w !! id = st)
    (Store.material_update env id data).
Proof.
  intros Hdata. apply preserves_db; [done|]. intros w Hst.
  destruct (materials w !! id) as [m|] eqn:Hm; [|simpl; by rewrite Hm].
  simpl. rewrite lookup_insert_eq. simpl. rewrite Hdata. by rewrite <- Hst.
Qed.

(** When [processDocumentAsync] itself is rejected, the status of the
    material is the one it had before: the run ends neither in READY
    nor in ERROR.  This happens only when the update that writes ERROR
    fails, because the record store fails or because the material does
    not exist. *)
Theorem rejected_run_leaves_the_status env materialId filePath fileType
    w e w' :
  processDocumentAsync env materialId filePath fileType w = (Throw e, w') →
  processingStatus <$> materials w' !! materialId
  = processingStatus <$> materials w !! materialId
  ∧ ((∃ n, Env.db_fault env (MaterialUpdate materialId) n = Some e)
     ∨ (e = Store.P2025 ∧ materials w !! materialId = None)).
Proof.
  set (st := processingStatus <$> materials w !! materialId).
  set (I := λ w0 : World,
              processingStatus <$> materials w0 !! materialId = st).
  unfold processDocumentAsync, try_catch.
  match goal with
  | |- context [(?m ≫= ?k) w] =>
      assert (keeps_on_throw I (m ≫= k)) as Hbody
  end.
  { apply keeps_on_throw_bind.
    { apply (processDocument_keeps_materials
               (λ ms, processingStatus <$> ms !! materialId = st)). }
    intros doc. apply keeps_on_throw_bind.
    { by apply material_update_keeps_status. }
    intros _. apply keeps_on_throw_bind.
    { by apply (db_keeps_materials
                  (λ ms, processingStatus <$> ms !! materialId = st)). }
    intros _. apply keeps_on_throw_bind.
    { by apply (db_keeps_materials
                  (λ ms, processingStatus <$> ms !! materialId = st)). }
    intros _. apply keeps_on_throw_bind.
    { apply preserves_for_index. intros i ch _.
      apply (processChapter_keeps_materials
               (λ ms, processingStatus <$> ms !! materialId = st)). }
    intros _. apply keeps_on_throw_bind.
    { apply (createEmbeddings_keeps_materials
               (λ ms, processingStatus <$> ms !! materialId = st)). }
    intros _. apply keeps_on_throw_bind.
    { apply (generateWholeSummary_keeps_materials
               (λ ms, processingStatus <$> ms !! materialId = st)). }
    intros ws w0 e0 w0' HI Hrun.
    apply material_update_throws in Hrun as [Hsame _].
    unfold I. by rewrite Hsame. }
  match goal with
  | |- context [(?m ≫= ?k) w] =>
      assert (preserves (λ w0, is_Some (materials w !! materialId) →
                               is_Some (materials w0 !! materialId))
                (m ≫= k)) as Hsome
  end.
  { apply preserves_bind.
    { apply (processDocument_keeps_materials
               (λ ms, is_Some (materials w !! materialId) →
                      is_Some (ms !! materialId))). }
    intros doc. apply preserves_bind.
    { apply preserves_db; [done|]. intros w0 H0.
      destruct (materials w0 !! materialId) eqn:Hm;
        [|simpl; by rewrite Hm]. simpl.
      intros _. rewrite lookup_insert_eq. by eexists. }
    intros _. apply preserves_bind.
    { by apply (db_keeps_materials
                  (λ ms, is_Some (materials w !! materialId) →
                         is_Some (ms !! materialId))). }
    intros _. apply preserves_bind.
    { by apply (db_keeps_materials
                  (λ ms, is_Some (materials w !! materialId) →
                         is_Some (ms !! materialId))). }
    intros _. apply preserves_bind.
    { apply preserves_for_index. intros i ch _.
      apply (processChapter_keeps_materials
               (λ ms, is_Some (materials w !! materialId) →
                      is_Some (ms !! materialId))). }
    intros _. apply preserves_bind.
    { apply (createEmbeddings_keeps_materials
               (λ ms, is_Some (materials w !! materialId) →
                      is_Some (ms !! materialId))). }
    intros _. apply preserves_bind.
    { apply (generateWholeSummary_keeps_materials
               (λ ms, is_Some (materials w !! materialId) →
                      is_Some (ms !! materialId))). }
    intros ws. apply preserves_db; [done|]. intros w0 H0.
    destruct (materials w0 !! materialId) eqn:Hm; [|simpl; by rewrite Hm].
    simpl. intros _. rewrite lookup_insert_eq. by eexists. }
  specialize (Hsome w (λ H, H)).
  match goal with
  | |- context [(?m ≫= ?k) w] =>
      specialize (Hbody w); destruct ((m ≫= k) w) as [[[]|e0] w1]
  end; [done|].
  intros Hrun. cbn [snd] in Hsome.
  apply material_update_throws in Hrun as [Hsame Hwhy].
  split.
  - rewrite Hsame. by apply (Hbody e0 w1).
  - destruct Hwhy as [Hfault|[-> Hnone]]; [left; by eexists|right].
    split; [done|].
    destruct (materials w !! materialId) eqn:Hm; [|done].
    destruct Hsome as [m' Hm']; [by eexists|]. congruence.
Qed.

End Rejection.

Lemma rejected_run_leaves_the_status_witness :
  let final :=
    Pipeline.processDocumentAsync Examples.env_status_write_down "m1"
      "uploads/book.epub" "application/epub+zip"
      (Examples.world "m1" Io.PROCESSING) in
  final.1 = Io.Throw Examples.unreachable
  ∧ Io.processingStatus <$> Io.materials final.2 !! "m1" = Some Io.PROCESSING.
Proof.
  intros final. split; [reflexivity|].
  destruct (rejected_run_leaves_the_status Examples.env_status_write_down
              "m1" "uploads/book.epub" "application/epub+zip"
              (Examples.world "m1" Io.PROCESSING) Examples.unreachable
              final.2 eq_refl) as [Hst _].
  rewrite Hst. reflexivity.
Defined.

(** *** The chapters that a run stores *)

Section StoredChapters.
Import Io Pipeline.

Lemma detectChapters_numbers_distinct text :
  NoDup (FileProcessor.number <$> FileProcessor.detectChapters text).
Proof.
  unfold FileProcessor.detectChapters.
  rewrite pattern_loop_first_matches.
  destruct (FileProcessor.first_matches FileProcessor.chapterPatterns text)
    as [|m0 ms] eqn:Hms.
  { simpl. apply NoDup_singleton. }
  cbn [length Nat.ltb Nat.leb].
  destruct (forEach_matches_spec text (m0 :: ms) ltac:(done))
    as (Hne & Hnd & _).
  destruct ((FileProcessor.forEach_matches text (m0 :: ms) (∅, [])).2)
    as [|c0 chs]; [done|]. exact Hnd.
Qed.

Lemma upsert_row_fresh row rows :
  (∀ r, r ∈ rows → Store.same_chapter r row = false) →
  Store.upsert_row row rows = rows ++ [row].
Proof.
  induction rows as [|r rows IH]; intros Hfresh; [done|]. simpl.
  rewrite (Hfresh r) by (by left). f_equal. apply IH.
  intros r' Hr'. apply Hfresh. by right.
Qed.

Lemma processChapter_stores_row env materialId text i chapter w :
  (∀ number n,
     Env.db_fault env (ChapterUpsert materialId number) n = None) →
  ∃ s qs w',
    processChapter env materialId text i chapter w = (Ok tt, w')
    ∧ chapters w'
      = Store.upsert_row (chapterRow materialId chapter s qs) (chapters w).
Proof.
  intros Hok.
  set (chapterText := Js.slice (FileProcessor.startIndex chapter)
                        (FileProcessor.endIndex chapter) text).
  destruct (generateSummaries_run env i chapterText w)
    as (w1 & Hsum & _ & Hc1 & _).
  destruct (generateQuestions_run env chapterText w1)
    as (w2 & Hqs & _ & Hc2 & _).
  eexists _, _.
  unfold processChapter. fold chapterText.
  rewrite bind_unfold, Hsum. rewrite bind_unfold, Hqs.
  rewrite bind_unfold. unfold Store.chapter_upsert, Store.db.
  cbn [ch_materialId ch_number chapterRow]. rewrite Hok.
  match goal with
  | |- context [storeConcepts ?e ?m ?c ?t ?w3] =>
      pose proof (storeConcepts_keeps_chapters (λ cs, cs = chapters w3)
                    e m c t w3 eq_refl) as Hkeep;
      destruct (returns_storeConcepts e m c t w3) as [[] Hret];
      destruct (storeConcepts e m c t w3) as [r w4] eqn:Hrun
  end.
  cbn [fst snd] in *. subst r. exists w4. split; [done|].
  rewrite Hkeep. cbn [chapters set_chapters record]. by rewrite Hc2, Hc1.
Qed.

Lemma chapter_loop env materialId text chs :
  (∀ number n,
     Env.db_fault env (ChapterUpsert materialId number) n = None) →
  ∀ (f : nat → nat) w,
    NoDup (FileProcessor.number <$> chs) →
    (∀ r c, r ∈ chapters w → c ∈ chs →
            ¬ (ch_materialId r = materialId
               ∧ ch_number r = FileProcessor.number c)) →
    ∃ w' rows,
      for_of (imap (λ i x, (f i, x)) chs)
        (λ ix, processChapter env materialId text ix.1 ix.2) w
      = (Ok tt, w')
      ∧ chapters w' = chapters w ++ rows
      ∧ Forall (λ r, ch_materialId r = materialId) rows
      ∧ (λ r, (ch_number r, ch_title r, ch_pageStart r, ch_pageEnd r))
          <$> rows
        = (λ c, (FileProcessor.number c, FileProcessor.title c,
                 Z.of_nat (FileProcessor.startIndex c / 2000),
                 Z.of_nat (FileProcessor.endIndex c / 2000))) <$> chs.
Proof.
  intros Hok. induction chs as [|c chs IH]; intros f w Hnd Hfresh.
  { exists w, []. by rewrite app_nil_r. }
  apply NoDup_cons in Hnd as [Hc Hnd]. cbn [imap for_of]. unfold bind.
  destruct (processChapter_stores_row env materialId text (f 0) c w Hok)
    as (s & qs & w1 & Hrun & Hrows).
  cbn [fst snd]. rewrite Hrun.
  set (row := chapterRow materialId c s qs) in *.
  rewrite upsert_row_fresh in Hrows.
  2:{ intros r Hr. unfold Store.same_chapter.
      apply andb_false_iff.
      destruct (decide (ch_materialId r = materialId)) as [Hm|Hm].
      - right. apply bool_decide_eq_false. intros Hn.
        apply (Hfresh r c Hr ltac:(by left)). done.
      - left. by apply bool_decide_eq_false. }
  destruct (IH (f ∘ S) w1 Hnd) as (w' & rows & Hloop & Hrows' & Hmine & Hproj).
  { intros r c' Hr Hc'. rewrite Hrows in Hr.
    apply elem_of_app in Hr as [Hr|Hr].
    - apply Hfresh; [done|by right].
    - apply list_elem_of_singleton in Hr as ->. simpl. intros [_ Hn].
      apply Hc. rewrite Hn. by apply list_elem_of_fmap_2. }
  exists w', (row :: rows). split; [exact Hloop|].
  split; [by rewrite Hrows', Hrows, <- app_assoc|].
  split; [by constructor|]. rewrite !fmap_cons. by rewrite Hproj.
Qed.

(** With a record store that answers, after a run whose extraction
    succeeded the chapters stored for the material are exactly the
    chapters that [detectChapters] finds in the extracted text, in the
    same order, with their numbers and titles, and with page bounds
    that are the character offsets divided by 2000. *)
Theorem stored_chapters_are_the_detected_ones env materialId filePath
    fileType w mat doc w1 :
  (∀ op n, Env.db_fault env op n = None) →
  materials w !! materialId = Some mat →
  FileProcessor.processDocument env filePath fileType w = (Ok doc, w1) →
  let final := (processDocumentAsync env materialId filePath fileType w).2 in
  (λ r, (ch_number r, ch_title r, ch_pageStart r, ch_pageEnd r))
    <$> List.filter (λ r, bool_decide (ch_materialId r = materialId))
          (chapters final)
  = (λ c, (FileProcessor.number c, FileProcessor.title c,
           Z.of_nat (FileProcessor.startIndex c / 2000),
           Z.of_nat (FileProcessor.endIndex c / 2000)))
      <$> FileProcessor.detectChapters (FileProcessor.text doc).
Proof.
  intros Hok Hmat Hdoc final.
  pose proof (processDocument_keeps_materials
                (λ ms, ms !! materialId = Some mat) env filePath fileType
                w Hmat) as Hmat1.
  rewrite Hdoc in Hmat1. cbn [snd] in Hmat1.
  unfold final, processDocumentAsync, try_catch.
  rewrite bind_unfold, Hdoc. rewrite bind_unfold.
  rewrite (material_update_ok env materialId _ w1 mat) by done.
  set (w2 := set_materials _ _).
  rewrite bind_unfold. unfold Store.chapter_deleteMany at 1, Store.db.
  rewrite Hok. rewrite bind_unfold.
  unfold Store.concept_deleteMany at 1, Store.db. rewrite Hok.
  set (w4 := set_concepts _ _).
  set (base := List.filter
                 (λ r, negb (bool_decide (ch_materialId r = materialId)))
                 (chapters w1)).
  assert (chapters w4 = base) as Hbase by done.
  destruct (chapter_loop env materialId (FileProcessor.text doc)
              (FileProcessor.detectChapters (FileProcessor.text doc))
              (λ op, Hok _) (λ i, i) w4
              (detectChapters_numbers_distinct _))
    as (w5 & rows & Hloop & Hrows & Hmine & Hproj).
  { intros r c Hr _ [Hm _]. rewrite Hbase in Hr.
    apply list_elem_of_In, filter_In in Hr as [_ Hr].
    by rewrite bool_decide_eq_true_2 in Hr. }
  rewrite bind_unfold. unfold for_index. rewrite Hloop.
  set (X := base ++ rows).
  assert (chapters w5 = X) as H5 by (by rewrite Hrows, Hbase).
  match goal with
  | |- context [(?m ≫= ?k) w5] =>
      assert (preserves (λ w0, chapters w0 = X) (m ≫= k)) as Hrest
  end.
  { apply preserves_bind.
    { by apply (frame_createEmbeddings env materialId
                  (λ w0, chapters w0 = X)). }
    intros _. apply preserves_bind.
    { by apply (frame_generateWholeSummary env (λ w0, chapters w0 = X)). }
    intros ws. apply preserves_db; [done|]. intros w0 H0.
    by destruct (materials w0 !! materialId). }
  specialize (Hrest w5 H5).
  match goal with
  | |- context [(?m ≫= ?k) w5] => destruct ((m ≫= k) w5) as [[[]|e] w6]
  end; cbn [snd] in *.
  - rewrite Hrest. unfold X. rewrite List.filter_app.
    replace (List.filter _ base) with (@nil ChapterRow).
    2:{ symmetry. unfold base. clear.
        induction (chapters w1) as [|r rs IH]; [done|]. simpl.
        destruct (bool_decide (ch_materialId r = materialId)) eqn:Hr; simpl;
          [done|]. by rewrite Hr. }
    rewrite app_nil_l, <- Hproj. f_equal.
    clear -Hmine. induction Hmine as [|r rs Hr _ IH]; [done|]. simpl.
    rewrite bool_decide_eq_true_2 by done. by rewrite IH.
  - assert (chapters (Store.material_update env materialId
                        (with_status ERROR) w6).2 = X) as ->.
    { apply (preserves_db (λ w0, chapters w0 = X)); [done| |done].
      intros w0 H0. by destruct (materials w0 !! materialId). }
    unfold X. rewrite List.filter_app.
    replace (List.filter _ base) with (@nil ChapterRow).
    2:{ symmetry. unfold base. clear.
        induction (chapters w1) as [|r rs IH]; [done|]. simpl.
        destruct (bool_decide (ch_materialId r = materialId)) eqn:Hr; simpl;
          [done|]. by rewrite Hr. }
    rewrite app_nil_l, <- Hproj. f_equal.
    clear -Hmine. induction Hmine as [|r rs Hr _ IH]; [done|]. simpl.
    rewrite bool_decide_eq_true_2 by done. by rewrite IH.
Qed.

End StoredChapters.

Lemma stored_chapters_are_the_detected_ones_witness :
  let final :=
    (Pipeline.processDocumentAsync Examples.env_summary_down "m1"
       "uploads/book.txt" "text/plain"
       (Examples.world "m1" Io.PROCESSING)).2 in
  (λ r, (Io.ch_number r, Io.ch_title r)) <$> Io.chapters final
  = [(1%Z, "Cells"); (2%Z, "Genes")].
Proof.
  intros final.
  pose proof (stored_chapters_are_the_detected_ones Examples.env_summary_down
                "m1" "uploads/book.txt" "text/plain"
                (Examples.world "m1" Io.PROCESSING)
                (Examples.uploaded Io.PROCESSING) _ _
                (λ _ _, eq_refl) eq_refl eq_refl) as H.
  reflexivity.
Defined.

(** *** The concepts that a chapter stores *)

Section StoredConcepts.
Import Io Pipeline.

Lemma normalizeConceptCategory_range env value :
  normalizeConceptCategory env value = "OTHER"
  ∨ normalizeConceptCategory env value ∈ Env.conceptCategories env.
Proof.
  unfold normalizeConceptCategory. destruct value as [v|]; [|by left].
  destruct (bool_decide (v = EmptyString)); [by left|].
  destruct (bool_decide (Js.toUpperCase v ∈ Env.conceptCategories env))
    eqn:Hin; [|by left].
  right. by apply bool_decide_eq_true in Hin.
Qed.

Lemma concept_loop env materialId chapter found :
  ∀ w, ∃ k,
    let final :=
      for_of found (λ concept,
        Store.concept_create env (conceptRow env materialId chapter concept)) w in
    concepts final.2
    = concepts w ++ (conceptRow env materialId chapter <$> take k found)
    ∧ (∀ j c, j < k → found !! j = Some c →
         Env.db_fault env (ConceptCreate materialId (Env.rc_term c))
           (instant w + j) = None)
    ∧ (k = length found ∧ final.1 = Ok tt
       ∨ ∃ c e,
           found !! k = Some c
           ∧ Env.db_fault env (ConceptCreate materialId (Env.rc_term c))
               (instant w + k) = Some e
           ∧ final.1 = Throw e).
Proof.
  induction found as [|c found IH]; intros w.
  { exists 0. simpl. rewrite app_nil_r. split; [done|].
    split; [intros; lia|by left]. }
  cbn [for_of]. unfold bind.
  set (row := conceptRow env materialId chapter c).
  destruct (Env.db_fault env (ConceptCreate (co_materialId row) (term row))
              (instant w)) as [e|] eqn:Hfault.
  { assert (Store.concept_create env row w
            = (Throw e, record (CDb (ConceptCreate (co_materialId row)
                                       (term row))) w)) as ->.
    { unfold Store.concept_create, Store.db. by rewrite Hfault. }
    exists 0. simpl. rewrite app_nil_r. split; [done|].
    split; [intros; lia|]. right. exists c, e. by rewrite Nat.add_0_r. }
  set (w1 := set_concepts (λ rows, rows ++ [row])
               (record (CDb (ConceptCreate (co_materialId row) (term row))) w)).
  assert (Store.concept_create env row w = (Ok tt, w1)) as ->.
  { unfold Store.concept_create, Store.db. by rewrite Hfault. }
  assert (instant w1 = S (instant w)) as Hw1 by apply instant_record.
  destruct (IH w1) as (k & Hk & Hbefore & Hat).
  exists (S k). cbv zeta in *. split; [|split].
  - rewrite Hk. unfold w1. cbn. by rewrite <- app_assoc.
  - intros [|j] c' Hj Hc'.
    + injection Hc' as <-. by rewrite Nat.add_0_r.
    + replace (instant w + S j) with (instant w1 + j) by lia.
      apply Hbefore; [lia|done].
  - destruct Hat as [[-> Hret]|(c' & e & Hc' & Hfault' & Hthrow)].
    + by left.
    + right. exists c', e. split; [done|]. split; [|done].
      by replace (instant w + S k) with (instant w1 + k) by lia.
Qed.

(** The concepts of a chapter: every row that is stored belongs to the
    material and the chapter, has no page references, and carries a
    category of the enumeration or OTHER.  The rows are those of the
    extracted concepts, in order, up to the first one whose creation
    the record store rejects: the creations before it were accepted, and
    the loop stops there.  No row is stored when the extraction fails;
    and in no case does the failure leave the block. *)
Theorem stored_concepts_are_normalised env materialId chapter chapterText w :
  let final := storeConcepts env materialId chapter chapterText w in
  final.1 = Ok tt
  ∧ ∃ new,
      concepts final.2 = concepts w ++ new
      ∧ Forall (λ r, co_materialId r = materialId
                     ∧ co_chapterNumber r = FileProcessor.number chapter
                     ∧ pageReferences r = []
                     ∧ (category r = "OTHER"
                        ∨ category r ∈ Env.conceptCategories env)) new
      ∧ match Env.extractKeyConcepts env chapterText (instant w + 1) with
        | Throw _ => new = []
        | Ok found =>
            ∃ k,
              new = conceptRow env materialId chapter <$> take k found
              ∧ (∀ j c, j < k → found !! j = Some c →
                   Env.db_fault env
                     (ConceptCreate materialId (Env.rc_term c))
                     (instant w + 2 + j) = None)
              ∧ (k = length found
                 ∨ ∃ c e,
                     found !! k = Some c
                     ∧ Env.db_fault env
                         (ConceptCreate materialId (Env.rc_term c))
                         (instant w + 2 + k) = Some e)
        end.
Proof.
  intros final.
  split.
  { destruct (returns_storeConcepts env materialId chapter chapterText w)
      as [[] H]. exact H. }
  unfold final, storeConcepts, try_catch. rewrite bind_unfold.
  unfold sleep at 1. rewrite bind_unfold. unfold call at 1.
  rewrite instant_record. replace (S (instant w)) with (instant w + 1) by lia.
  destruct (Env.extractKeyConcepts env chapterText (instant w + 1))
    as [found|e].
  2:{ exists []. by rewrite app_nil_r. }
  set (w2 := record _ (record _ w)).
  assert (instant w2 = instant w + 2) as Hw2
    by (unfold w2; rewrite !instant_record; lia).
  destruct (concept_loop env materialId chapter found w2)
    as (k & Hk & Hbefore & Hat).
  cbv zeta in Hk, Hat. rewrite Hw2 in Hbefore, Hat.
  change (λ concept : Env.RawConcept,
            Store.concept_create env
              {| co_materialId := materialId;
                 term := Env.rc_term concept;
                 definition := Env.rc_definition concept;
                 category :=
                   normalizeConceptCategory env (Env.rc_category concept);
                 pageReferences := [];
                 co_chapterNumber := FileProcessor.number chapter |})
    with (λ concept,
            Store.concept_create env
              (conceptRow env materialId chapter concept)).
  exists (conceptRow env materialId chapter <$> take k found).
  split_and!.
  - by destruct (for_of found _ w2) as [[[]|e] w3].
  - apply Forall_fmap, Forall_forall. intros c _. simpl.
    split_and!; try done. apply normalizeConceptCategory_range.
  - exists k. split; [done|]. split; [done|].
    destruct Hat as [[-> _]|(c & e & Hc & Hfault & _)]; [by left|].
    right. by exists c, e.
Qed.

End StoredConcepts.
